(** * icarogw.priors: boundary-aware probability distributions

    A shallow embedding of [src/icarogw/priors.py] and the properties its
    specification states about it.

    Numbers.  The program computes on IEEE doubles through an array backend
    ([xp], numpy or cupy).  A double is modelled by [float]: the three special
    values not-a-number, minus infinity and plus infinity, or a finite value
    carried as an exact real.  The special values follow IEEE (inf - inf and
    0 * inf are not-a-number, every comparison with not-a-number is false,
    division by zero gives a signed infinity or not-a-number); finite
    arithmetic is exact: rounding, overflow to infinity and the sign of zero
    are not modelled.  Scalars are backend scalars: a division by zero gives
    an infinity or not-a-number, as the backend does, and does not raise.

    Arrays.  A one-dimensional backend array is a [list float]; assignment
    through a boolean mask is a map over the mask and the array, and fails
    (numpy raises IndexError) when their lengths differ. *)

From Stdlib Require Import Reals Lra Lia List Bool ZArith Arith.
Import ListNotations.

Set Warnings "-abstract-large-number".

Open Scope R_scope.

(** ** The numeric model *)

Inductive float : Type :=
| NaN : float
| NInf : float
| PInf : float
| Fin (r : R).

Definition Rltb (a b : R) : bool := if Rlt_dec a b then true else false.
Definition Rleb (a b : R) : bool := if Rle_dec a b then true else false.
Definition Reqb (a b : R) : bool := if Req_EM_T a b then true else false.

(** [a < b] on doubles. *)
Definition flt (a b : float) : bool :=
  match a, b with
  | NaN, _ | _, NaN => false
  | _, NInf => false
  | NInf, _ => true
  | PInf, _ => false
  | Fin _, PInf => true
  | Fin x, Fin y => Rltb x y
  end.

(** [a <= b] on doubles. *)
Definition fle (a b : float) : bool :=
  match a, b with
  | NaN, _ | _, NaN => false
  | NInf, _ => true
  | _, NInf => false
  | _, PInf => true
  | PInf, _ => false
  | Fin x, Fin y => Rleb x y
  end.

Definition fgt (a b : float) : bool := flt b a.
Definition fge (a b : float) : bool := fle b a.

(** [a == b] on doubles. *)
Definition feq (a b : float) : bool :=
  match a, b with
  | NInf, NInf | PInf, PInf => true
  | Fin x, Fin y => Reqb x y
  | _, _ => false
  end.

Definition isnan (a : float) : bool :=
  match a with NaN => true | _ => false end.

Definition fneg (a : float) : float :=
  match a with
  | NaN => NaN
  | NInf => PInf
  | PInf => NInf
  | Fin x => Fin (- x)
  end.

Definition fadd (a b : float) : float :=
  match a, b with
  | NaN, _ | _, NaN => NaN
  | PInf, NInf | NInf, PInf => NaN
  | PInf, _ | _, PInf => PInf
  | NInf, _ | _, NInf => NInf
  | Fin x, Fin y => Fin (x + y)
  end.

Definition fsub (a b : float) : float := fadd a (fneg b).

(** The infinity of the sign of [x], or not-a-number when [x] is zero. *)
Definition inf_signed (x : R) : float :=
  if Rlt_dec 0 x then PInf else if Rlt_dec x 0 then NInf else NaN.

Definition fmul (a b : float) : float :=
  match a, b with
  | NaN, _ | _, NaN => NaN
  | Fin x, Fin y => Fin (x * y)
  | PInf, PInf | NInf, NInf => PInf
  | PInf, NInf | NInf, PInf => NInf
  | PInf, Fin y | Fin y, PInf => inf_signed y
  | NInf, Fin y | Fin y, NInf => inf_signed (- y)
  end.

Definition fdiv (a b : float) : float :=
  match a, b with
  | NaN, _ | _, NaN => NaN
  | Fin x, Fin y => if Req_EM_T y 0 then inf_signed x else Fin (x / y)
  | Fin _, (PInf | NInf) => Fin 0
  | PInf, Fin y => if Rlt_dec y 0 then NInf else PInf
  | NInf, Fin y => if Rlt_dec y 0 then PInf else NInf
  | _, _ => NaN
  end.

Definition fabs (a : float) : float :=
  match a with
  | NaN => NaN
  | NInf | PInf => PInf
  | Fin x => Fin (Rabs x)
  end.

(** [xp.exp]. *)
Definition fexp (a : float) : float :=
  match a with
  | NaN => NaN
  | NInf => Fin 0
  | PInf => PInf
  | Fin x => Fin (exp x)
  end.

(** [xp.log]: minus infinity at zero, not-a-number below it. *)
Definition flog (a : float) : float :=
  match a with
  | NaN | NInf => NaN
  | PInf => PInf
  | Fin x => if Rlt_dec 0 x then Fin (ln x)
             else if Rlt_dec x 0 then NaN else NInf
  end.

(** [xp.log1p]. *)
Definition flog1p (a : float) : float := flog (fadd (Fin 1) a).

(** [xp.logaddexp a b = log (exp a + exp b)]. *)
Definition flogaddexp (a b : float) : float := flog (fadd (fexp a) (fexp b)).

(** [xp.sqrt]. *)
Definition fsqrt (a : float) : float :=
  match a with
  | NaN | NInf => NaN
  | PInf => PInf
  | Fin x => if Rlt_dec x 0 then NaN else Fin (sqrt x)
  end.

(** The largest finite double, (2 - 2^-52) * 2^1023. *)
Definition DBL_MAX : R := (2 - / 2 ^ 52) * 2 ^ 1023.

(** [xp.nan_to_num]: not-a-number becomes zero, an infinity the largest
    finite double of its sign. *)
Definition nan_to_num (a : float) : float :=
  match a with
  | NaN => Fin 0
  | PInf => Fin DBL_MAX
  | NInf => Fin (- DBL_MAX)
  | Fin x => Fin x
  end.

Definition is_integer (y : R) : bool := Reqb (frac_part y) 0.
Definition is_odd_integer (y : R) : bool := is_integer y && Z.odd (Int_part y).

(** [xp.power] with the special cases of C99 [pow]. *)
Definition fpower (a b : float) : float :=
  match a, b with
  | _, Fin y =>
      if Req_EM_T y 0 then Fin 1 else
      match a with
      | NaN => NaN
      | Fin x =>
          if Rlt_dec 0 x then Fin (Rpower x y)
          else if Rlt_dec x 0 then
            if is_integer y
            then Fin ((if Z.odd (Int_part y) then -1 else 1) * Rpower (- x) y)
            else NaN
          else if Rlt_dec 0 y then Fin 0 else PInf
      | PInf => if Rlt_dec 0 y then PInf else Fin 0
      | NInf => if Rlt_dec 0 y
                then (if is_odd_integer y then NInf else PInf)
                else Fin 0
      end
  | Fin x, NaN => if Req_EM_T x 1 then Fin 1 else NaN
  | _, NaN => NaN
  | NaN, _ => NaN
  | Fin x, PInf =>
      if Rlt_dec (Rabs x) 1 then Fin 0
      else if Rlt_dec 1 (Rabs x) then PInf else Fin 1
  | Fin x, NInf =>
      if Rlt_dec (Rabs x) 1 then PInf
      else if Rlt_dec 1 (Rabs x) then Fin 0 else Fin 1
  | (PInf | NInf), PInf => PInf
  | (PInf | NInf), NInf => Fin 0
  end.

Definition fmin (a b : float) : float := if flt b a then b else a.
Definition fmax (a b : float) : float := if flt a b then b else a.

Definition is_finite (a : float) : Prop :=
  match a with Fin _ => True | _ => False end.

(** ** Arrays *)

Definition array := list float.

(** [y[mask] = v]. *)
Definition mask_assign (mask : list bool) (v : float) (y : array)
  : option array :=
  if Nat.eqb (length mask) (length y)
  then Some (map (fun be : bool * float => if fst be then v else snd be)
              (combine mask y))
  else None.

(** Elementwise combination of two arrays of one shape, or of an array and a
    one-element array (broadcast); other shapes raise. *)
Definition broadcast2 {C} (f : float -> float -> C) (a b : array)
  : option (list C) :=
  match a, b with
  | _, [s] => Some (map (fun x => f x s) a)
  | [s], _ => Some (map (fun y => f s y) b)
  | _, _ => if Nat.eqb (length a) (length b)
            then Some (map (fun p => f (fst p) (snd p)) (combine a b))
            else None
  end.

Definition INRf (n : nat) : float := Fin (INR n).

(** [xp.linspace start stop num]: [num] points, the last one set to [stop]. *)
Definition linspace (start stop : float) (num : nat) : array :=
  let step := fdiv (fsub stop start) (INRf (num - 1)) in
  match num with
  | O => []
  | 1%nat => [start]
  | S m => map (fun i => fadd start (fmul (INRf i) step)) (seq 0 m) ++ [stop]
  end.

Definition fsum (a : array) : float := fold_left fadd a (Fin 0).

(** [xp.cumsum]. *)
Fixpoint cumsum_from (acc : float) (a : array) : array :=
  match a with
  | [] => []
  | x :: r => let s := fadd acc x in s :: cumsum_from s r
  end.
Definition cumsum (a : array) : array := cumsum_from (Fin 0) a.

(** Errors are [None]; [bind] threads them. *)
Definition bind {A B} (m : option A) (k : A -> option B) : option B :=
  match m with Some a => k a | None => None end.
Notation "x <- m ;; k" := (bind m (fun x => k))
  (at level 61, m at next level, right associativity).

(** [a[mask]]: the elements of [a] the mask selects. *)
Fixpoint select (mask : list bool) (a : array) : array :=
  match mask, a with
  | b :: m, x :: r => if b then x :: select m r else select m r
  | _, _ => []
  end.

(** [a[mask] = vals] for an array of values: the selected places take the
    values in order; numpy raises when the counts differ. *)
Fixpoint scatter (mask : list bool) (vals a : array) : option array :=
  match mask, a with
  | [], [] => match vals with [] => Some [] | _ => None end
  | b :: m, x :: r =>
      if b then
        match vals with
        | v :: vs => r' <- scatter m vs r ;; Some (v :: r')
        | [] => None
        end
      else r' <- scatter m vals r ;; Some (x :: r')
  | _, _ => None
  end.

(** ** [xp.interp] *)

(** The index search of [interp]: the scan [for (i = 1; i < len && key >=
    arr[i]; ++i)] the backend runs on short tables; on a non-decreasing table
    its bisection returns the same index. *)
Fixpoint scan (key : float) (tail : array) (i : nat) : nat :=
  match tail with
  | [] => i
  | a :: r => if fge key a then scan key r (S i) else i
  end.

Inductive position : Type :=
| Below : position
| Above : position
| At (j : nat).

Definition binary_search (key : float) (arr : array) : position :=
  if fgt key (last arr NaN) then Above
  else if flt key (hd NaN arr) then Below
  else At (scan key (tl arr) 1 - 1).

Definition interp1 (xp fp : array) (x : float) : float :=
  if isnan x then x else
  match binary_search x xp with
  | Below => hd NaN fp
  | Above => last fp NaN
  | At j =>
      if Nat.eqb j (length xp - 1) then nth j fp NaN
      else if feq (nth j xp NaN) x then nth j fp NaN
      else
        let slope := fdiv (fsub (nth (S j) fp NaN) (nth j fp NaN))
                          (fsub (nth (S j) xp NaN) (nth j xp NaN)) in
        let r := fadd (fmul slope (fsub x (nth j xp NaN))) (nth j fp NaN) in
        if isnan r then
          let r' := fadd (fmul slope (fsub x (nth (S j) xp NaN)))
                         (nth (S j) fp NaN) in
          if isnan r' && feq (nth j fp NaN) (nth (S j) fp NaN)
          then nth j fp NaN else r'
        else r
  end.

(** [xp.interp x xp fp]; the backend raises on an empty table and on tables
    of different lengths. *)
Definition interp (x xp fp : array) : option array :=
  match xp with
  | [] => None
  | _ => if Nat.eqb (length xp) (length fp)
         then Some (map (interp1 xp fp) x) else None
  end.

(** ** The random source *)

(** The global random source is a stream of uniform draws; [rand N] takes
    the next [N] of them and leaves the rest. *)
Definition rng := nat -> float.

Definition rand (N : nat) (g : rng) : array * rng :=
  (map g (seq 0 N), fun i => g (N + i)%nat).

(** ** [basic_1dimpdf] *)

Module basic_1dimpdf.

(** An instance: the two bounds set by [__init__] and the kernels
    [_log_pdf], [_log_cdf] a subclass supplies.  A kernel returns a fresh
    array, or raises. *)
Record t := mk {
  minval : float;
  maxval : float;
  _log_pdf : array -> option array;
  _log_cdf : array -> option array
}.

(** [y[(x<self.minval) | (x>self.maxval)] = -xp.inf]. *)
Definition _check_bound_pdf (self : t) (x y : array) : option array :=
  mask_assign
    (map (fun xi => flt xi (minval self) || fgt xi (maxval self)) x)
    NInf y.

(** [y[x<self.minval], y[x>self.maxval] = -xp.inf, 0.]: the two targets
    are assigned from left to right. *)
Definition _check_bound_cdf (self : t) (x y : array) : option array :=
  y1 <- mask_assign (map (fun xi => flt xi (minval self)) x) NInf y ;;
  mask_assign (map (fun xi => fgt xi (maxval self)) x) (Fin 0) y1.

Definition log_pdf (self : t) (x : array) : option array :=
  y <- _log_pdf self x ;; _check_bound_pdf self x y.

Definition log_cdf (self : t) (x : array) : option array :=
  y <- _log_cdf self x ;; _check_bound_cdf self x y.

Definition pdf (self : t) (x : array) : option array :=
  y <- log_pdf self x ;; Some (map fexp y).

Definition cdf (self : t) (x : array) : option array :=
  y <- log_cdf self x ;; Some (map fexp y).

(** The grid of the inverse-transform sampler. *)
Definition GRID : nat := 10000.

Definition sample (self : t) (N : nat) (g : rng) : option (array * rng) :=
  let sarray := linspace (minval self) (maxval self) GRID in
  cdfeval <- cdf self sarray ;;
  let (randomcdf, g') := rand N g in
  s <- interp randomcdf cdfeval sarray ;;
  Some (s, g').

End basic_1dimpdf.

(** ** The object store *)

(** Distribution objects live in a store and are held by reference; an
    attribute assignment on an object is seen through every reference. *)
Definition loc := nat.
Definition store := loc -> option basic_1dimpdf.t.

Definition store_set (h : store) (l : loc) (o : basic_1dimpdf.t) : store :=
  fun l' => if Nat.eqb l' l then Some o else h l'.

(** [obj.minval = v] and [obj.maxval = v] on the object at [l]. *)
Definition setattr_minval (h : store) (l : loc) (v : float) : option store :=
  o <- h l ;;
  Some (store_set h l (basic_1dimpdf.mk v (basic_1dimpdf.maxval o)
                         (basic_1dimpdf._log_pdf o) (basic_1dimpdf._log_cdf o))).

Definition setattr_maxval (h : store) (l : loc) (v : float) : option store :=
  o <- h l ;;
  Some (store_set h l (basic_1dimpdf.mk (basic_1dimpdf.minval o) v
                         (basic_1dimpdf._log_pdf o) (basic_1dimpdf._log_cdf o))).

(** ** [conditional_2dimpdf] *)

Module conditional_2dimpdf.

(** [self.pdf1 = pdf1; self.pdf2 = pdf2]: the two attributes are the
    references the caller passed. *)
Record t := mk { pdf1 : loc; pdf2 : loc }.

Definition __init__ (pdf1 pdf2 : loc) : t := mk pdf1 pdf2.

(** [y[(x1<x2) | xp.isnan(y)] = -xp.inf]. *)
Definition _check_bound_pdf (x1 x2 y : array) : option array :=
  lt <- broadcast2 flt x1 x2 ;;
  if Nat.eqb (length lt) (length y)
  then mask_assign
         (map (fun p : bool * float => fst p || isnan (snd p))
            (combine lt y))
         NInf y
  else None.

(** [log_pdf] on the two objects the references lead to. *)
Definition log_pdf_at (p1 p2 : basic_1dimpdf.t) (x1 x2 : array)
  : option array :=
  a <- basic_1dimpdf.log_pdf p1 x1 ;;
  b <- basic_1dimpdf.log_pdf p2 x2 ;;
  ab <- broadcast2 fadd a b ;;
  c <- basic_1dimpdf.log_cdf p2 x1 ;;
  y <- broadcast2 fsub ab c ;;
  _check_bound_pdf x1 x2 y.

Definition log_pdf (h : store) (self : t) (x1 x2 : array) : option array :=
  p1 <- h (pdf1 self) ;;
  p2 <- h (pdf2 self) ;;
  log_pdf_at p1 p2 x1 x2.

Definition pdf (h : store) (self : t) (x1 x2 : array) : option array :=
  y <- log_pdf h self x1 x2 ;; Some (map fexp y).

Definition sample_at (p1 p2 : basic_1dimpdf.t) (N : nat) (g : rng)
  : option (array * array * rng) :=
  let sarray1 := linspace (basic_1dimpdf.minval p1)
                   (basic_1dimpdf.maxval p1) basic_1dimpdf.GRID in
  cdfeval1 <- basic_1dimpdf.cdf p1 sarray1 ;;
  let (randomcdf1, g1) := rand N g in
  let sarray2 := linspace (basic_1dimpdf.minval p2)
                   (basic_1dimpdf.maxval p2) basic_1dimpdf.GRID in
  cdfeval2 <- basic_1dimpdf.cdf p2 sarray2 ;;
  let (randomcdf2, g2) := rand N g1 in
  x1samp <- interp randomcdf1 cdfeval1 sarray1 ;;
  c <- basic_1dimpdf.cdf p2 x1samp ;;
  q <- broadcast2 fmul randomcdf2 c ;;
  x2samp <- interp q cdfeval2 sarray2 ;;
  Some (x1samp, x2samp, g2).

Definition sample (h : store) (self : t) (N : nat) (g : rng)
  : option (array * array * rng) :=
  p1 <- h (pdf1 self) ;;
  p2 <- h (pdf2 self) ;;
  sample_at p1 p2 N g.

End conditional_2dimpdf.


(** ** The window function *)

Definition ones_like (a : array) : array := map (fun _ => Fin 1) a.

(** [_S_factor mass mmin delta_m], for scalar [mmin] and [delta_m]. *)
Definition _S_factor (mass : array) (mmin delta_m : float) : option array :=
  let to_ret := ones_like mass in
  if feq delta_m (Fin 0) then Some to_ret else
  let mprime := map (fun m => fsub m mmin) mass in
  let select_window :=
    map (fun m => fgt m mmin && flt m (fadd delta_m mmin)) mass in
  let select_one := map (fun m => fge m (fadd delta_m mmin)) mass in
  let select_zero := map (fun m => fle m mmin) mass in
  let effe_prime := ones_like mass in
  effe_prime <-
    scatter select_window
      (map (fun mp => fexp (nan_to_num
                              (fadd (fdiv delta_m mp)
                                    (fdiv delta_m (fsub mp delta_m)))))
         (select select_window mprime))
      effe_prime ;;
  let to_ret := map (fun e => fdiv (Fin 1) (fadd e (Fin 1))) effe_prime in
  to_ret <- mask_assign select_zero (Fin 0) to_ret ;;
  mask_assign select_one (Fin 1) to_ret.

(** ** [PowerLaw] *)

Definition PL_normfact (minpl maxpl alpha : float) : float :=
  if feq alpha (Fin (-1)) then flog (fdiv maxpl minpl)
  else fdiv (fsub (fpower maxpl (fadd alpha (Fin 1)))
                  (fpower minpl (fadd alpha (Fin 1))))
            (fadd alpha (Fin 1)).

Module PowerLaw.

Record t := mk {
  minval : float;
  maxval : float;
  minpl : float;
  maxpl : float;
  alpha : float;
  norm_fact : float
}.

Definition __init__ (minpl maxpl alpha : float) : t :=
  mk minpl maxpl minpl maxpl alpha (PL_normfact minpl maxpl alpha).

Definition _log_pdf (self : t) (x : array) : array :=
  map (fun xi => fsub (fmul (alpha self) (flog xi)) (flog (norm_fact self)))
    x.

Definition _log_cdf (self : t) (x : array) : array :=
  if feq (alpha self) (Fin (-1))
  then map (fun xi => flog (fdiv (flog (fdiv xi (minval self)))
                                 (norm_fact self))) x
  else map (fun xi =>
              flog (fdiv (fdiv (fsub (fpower xi (fadd (alpha self) (Fin 1)))
                                     (fpower (minpl self)
                                        (fadd (alpha self) (Fin 1))))
                               (fadd (alpha self) (Fin 1)))
                         (norm_fact self))) x.

(** The instance as a [basic_1dimpdf]: its bounds and its kernels. *)
Definition as_pdf (self : t) : basic_1dimpdf.t :=
  basic_1dimpdf.mk (minval self) (maxval self)
    (fun x => Some (_log_pdf self x))
    (fun x => Some (_log_cdf self x)).

End PowerLaw.

(** ** [TruncatedGaussian] *)

(** The special function the backend supplies. *)
Class Backend := { erf : R -> R }.

Definition ferf `{Backend} (a : float) : float :=
  match a with
  | NaN => NaN
  | NInf => Fin (-1)
  | PInf => Fin 1
  | Fin x => Fin (erf x)
  end.

Definition get_gaussian_norm `{Backend} (ming maxg meang sigmag : float)
  : float :=
  let max_point := fdiv (fsub maxg meang) (fmul sigmag (fsqrt (Fin 2))) in
  let min_point := fdiv (fsub ming meang) (fmul sigmag (fsqrt (Fin 2))) in
  fsub (fmul (Fin (1/2)) (ferf max_point)) (fmul (Fin (1/2)) (ferf min_point)).

Module TruncatedGaussian.

Record t := mk {
  minval : float;
  maxval : float;
  meang : float;
  sigmag : float;
  ming : float;
  maxg : float;
  norm_fact : float
}.

Definition __init__ `{Backend} (meang sigmag ming maxg : float) : t :=
  mk ming maxg meang sigmag ming maxg
    (get_gaussian_norm ming maxg meang sigmag).

Definition _log_pdf (self : t) (x : array) : array :=
  map (fun xi =>
         fsub (fsub (fsub (fneg (flog (sigmag self)))
                          (fmul (Fin (1/2)) (flog (Fin (2 * PI)))))
                    (fmul (Fin (1/2))
                       (fpower (fdiv (fsub xi (meang self)) (sigmag self))
                          (Fin 2))))
              (flog (norm_fact self))) x.

Definition _log_cdf `{Backend} (self : t) (x : array) : array :=
  map (fun xi =>
         let max_point := fdiv (fsub xi (meang self))
                            (fmul (sigmag self) (fsqrt (Fin 2))) in
         let min_point := fdiv (fsub (ming self) (meang self))
                            (fmul (sigmag self) (fsqrt (Fin 2))) in
         flog (fdiv (fsub (fmul (Fin (1/2)) (ferf max_point))
                          (fmul (Fin (1/2)) (ferf min_point)))
                    (norm_fact self))) x.

Definition as_pdf `{Backend} (self : t) : basic_1dimpdf.t :=
  basic_1dimpdf.mk (minval self) (maxval self)
    (fun x => Some (_log_pdf self x))
    (fun x => Some (_log_cdf self x)).

End TruncatedGaussian.

(** ** [PowerLawGaussian] *)

Module PowerLawGaussian.

Record t := mk {
  minval : float;
  maxval : float;
  lambdag : float;
  PL : PowerLaw.t;
  TG : TruncatedGaussian.t
}.

(** The bounds are Python's [min(minpl,ming)] and [max(maxpl,maxg)]. *)
Definition __init__ `{Backend}
  (minpl maxpl alpha lambdag meang sigmag ming maxg : float) : t :=
  mk (fmin minpl ming) (fmax maxpl maxg) lambdag
    (PowerLaw.__init__ minpl maxpl alpha)
    (TruncatedGaussian.__init__ meang sigmag ming maxg).

Definition _log_pdf `{Backend} (self : t) (x : array) : option array :=
  pl <- basic_1dimpdf.log_pdf (PowerLaw.as_pdf (PL self)) x ;;
  tg <- basic_1dimpdf.log_pdf (TruncatedGaussian.as_pdf (TG self)) x ;;
  broadcast2 flogaddexp
    (map (fadd (flog1p (fneg (lambdag self)))) pl)
    (map (fadd (flog (lambdag self))) tg).

Definition _log_cdf `{Backend} (self : t) (x : array) : option array :=
  pl <- basic_1dimpdf.cdf (PowerLaw.as_pdf (PL self)) x ;;
  tg <- basic_1dimpdf.cdf (TruncatedGaussian.as_pdf (TG self)) x ;;
  s <- broadcast2 fadd
         (map (fmul (fsub (Fin 1) (lambdag self))) pl)
         (map (fmul (lambdag self)) tg) ;;
  Some (map flog s).

Definition as_pdf `{Backend} (self : t) : basic_1dimpdf.t :=
  basic_1dimpdf.mk (minval self) (maxval self)
    (_log_pdf self) (_log_cdf self).

End PowerLawGaussian.

(** The value [_S_factor] leaves at one place of [mass], for a width that
    is not zero. *)
Definition S_elem (mmin delta_m x : float) : float :=
  let e := if fgt x mmin && flt x (fadd delta_m mmin)
           then fexp (nan_to_num
                        (fadd (fdiv delta_m (fsub x mmin))
                              (fdiv delta_m (fsub (fsub x mmin) delta_m))))
           else Fin 1 in
  let r := fdiv (Fin 1) (fadd e (Fin 1)) in
  let r := if fle x mmin then Fin 0 else r in
  if fge x (fadd delta_m mmin) then Fin 1 else r.

(** [a[i] = v], which raises when [i] is out of range. *)
Fixpoint set_nth (a : array) (i : nat) (v : float) : option array :=
  match a, i with
  | [], _ => None
  | _ :: r, O => Some (v :: r)
  | x :: r, S i' => r' <- set_nth r i' v ;; Some (x :: r')
  end.

(** ** [scipy.interpolate.CubicHermiteSpline] *)

(** [np.isfinite]. *)
Definition isfinite (a : float) : bool :=
  match a with Fin _ => true | _ => false end.

(** [np.diff]. *)
Fixpoint diff (x : array) : array :=
  match x with
  | a :: (b :: _) as r => fsub b a :: diff r
  | _ => []
  end.

(** The constructor [CubicHermiteSpline(x, y, dydx)] validates its input
    and raises [ValueError] unless [y] and [dydx] have one shape, [x] has at
    least two elements and as many as [y], the three arrays hold only
    finite values and [x] is strictly increasing (no [np.diff(x) <= 0]). *)
Definition CubicHermiteSpline_accepts (x y dydx : array) : bool :=
  Nat.eqb (length y) (length dydx) &&
  Nat.leb 2 (length x) &&
  Nat.eqb (length x) (length y) &&
  forallb isfinite x &&
  forallb isfinite y &&
  forallb isfinite dydx &&
  negb (existsb (fun d => fle d (Fin 0)) (diff x)).

(** ** [SplineWrapper] *)

Module SplineWrapper.

Definition SPLINE_OFFSET_SLOPE : float := Fin (1 / 2).

(** The spline that [generate_spline_from_slope_list] returns, by the data
    that [CubicHermiteSpline] was built from: the grid, the values and the
    tangents; and the [delta_x] recorded on the way. *)
Record spline := mk_spline {
  x_points : array;
  y_points : array;
  dy_dx : array;
  delta_x : float
}.

(** [for i in ...: y_points[i] = y_points[i-1] + delta_x * dy_dx[i-1]]. *)
Fixpoint integrate (delta_x : float) (dy_dx : array) (range : list nat)
  (y_points : array) : option array :=
  match range with
  | [] => Some y_points
  | i :: rest =>
      prev <- nth_error y_points (i - 1) ;;
      d <- nth_error dy_dx (i - 1) ;;
      y' <- set_nth y_points i (fadd prev (fmul delta_x d)) ;;
      integrate delta_x dy_dx rest y'
  end.

Definition generate_spline_from_slope_list
  (x_range_min x_range_max : float) (n_bins : nat) (slope_list : array)
  : option spline :=
  let x_points := linspace x_range_min x_range_max n_bins in
  x1 <- nth_error x_points 1 ;;
  x0 <- nth_error x_points 0 ;;
  let delta_x := fsub x1 x0 in
  let dy_dx := map (fun s => fadd s SPLINE_OFFSET_SLOPE) slope_list in
  let mean := fdiv (fsum dy_dx) (INRf n_bins) in
  let dy_dx := map (fun d => fdiv d mean) dy_dx in
  y_points <- integrate delta_x dy_dx (seq 1 (n_bins - 1)) x_points ;;
  mid <- nth_error y_points ((n_bins - 1) / 2) ;;
  let y_points := map (fun y => fsub y mid) y_points in
  if CubicHermiteSpline_accepts x_points y_points dy_dx
  then Some (mk_spline x_points y_points dy_dx delta_x)
  else None.

Record t := mk {
  slope_list : array;
  x_range_min : float;
  x_range_max : float;
  n_bins : nat;
  the_spline : spline
}.

(** The constructor up to [self.spline]; it raises where the node
    computation or [CubicHermiteSpline] does.  The attributes set after it
    (lines 925-930: the spline's values at the two ends of the range, its
    derivative and the table of its inverse) are evaluations of that spline
    at finite points of its range, and are not kept in the record. *)
Definition __init__ (slope_list_in : array) (x_range : float) : option t :=
  let n_bins := length slope_list_in in
  s <- generate_spline_from_slope_list (fneg x_range) x_range n_bins
         slope_list_in ;;
  Some (mk slope_list_in (fneg x_range) x_range n_bins s).

End SplineWrapper.

(** ** [np.piecewise] *)

(** An entry of the function list: a constant or a callable. *)
Inductive piece : Type :=
| Const (v : float)
| Func (f : array -> array).

Fixpoint piecewise_loop (x : array) (condlist : list (list bool))
  (funclist : list piece) (y : array) : option array :=
  match condlist, funclist with
  | cond :: cs, func :: fs =>
      y' <- match func with
            | Const v => mask_assign cond v y
            | Func f =>
                if Nat.eqb (length cond) (length x) then
                  match select cond x with
                  | [] => Some y
                  | vals => scatter cond (f vals) y
                  end
                else None
            end ;;
      piecewise_loop x cs fs y'
  | _, _ => Some y
  end.

(** The condition the backend appends when the function list is one longer
    than the condition list: no other condition holds. *)
Definition condelse (n : nat) (condlist : list (list bool)) : list bool :=
  map (fun i => negb (existsb (fun c => nth i c false) condlist)) (seq 0 n).

Definition piecewise (x : array) (condlist : list (list bool))
  (funclist : list piece) : option array :=
  let n2 := length funclist in
  let n := length condlist in
  let y := map (fun _ => Fin 0) x in
  if Nat.eqb n (n2 - 1) && negb (Nat.eqb n2 0)
  then piecewise_loop x (condlist ++ [condelse (length x) condlist]) funclist y
  else if Nat.eqb n n2 then piecewise_loop x condlist funclist y
  else None.

(** ** [piecewise_constant_distribution_normalized] and [BinModel1d] *)

Definition linear_function (slope offset_x offset_y : float) : piece :=
  Func (map (fun x => fadd (fmul slope (fsub x offset_x)) offset_y)).

(** [[f i for i in range(n)]] where [f] may raise. *)
Fixpoint for_range {A} (f : nat -> option A) (range : list nat)
  : option (list A) :=
  match range with
  | [] => Some []
  | i :: rest => a <- f i ;; r <- for_range f rest ;; Some (a :: r)
  end.

Module piecewise_constant_distribution_normalized.

Record t := mk {
  dist_min : float;
  dist_max : float;
  n_bins : nat;
  weights_with_boundaries : array;
  bins : array;
  bins_with_boundaries : array;
  delta_bin : float;
  norm : float;
  weights_with_boundaries_normalized : array;
  cumulated_normalized_weights : array
}.

Definition __init__ (dist_min dist_max : float) (weights : array)
  : option t :=
  let n_bins := length weights in
  let wwb := [Fin 0] ++ weights ++ [Fin 0] in
  let bins := linspace dist_min dist_max (n_bins + 1) in
  let bwb := (NInf :: bins) ++ [PInf] in
  b1 <- nth_error bins 1 ;;
  b0 <- nth_error bins 0 ;;
  let delta_bin := fsub b1 b0 in
  let norm := fdiv (fmul (fdiv (Fin 1) (fsum weights)) (Fin 1)) delta_bin in
  let wn := map (fmul norm) wwb in
  Some (mk dist_min dist_max n_bins wwb bins bwb delta_bin norm wn
          (cumsum wn)).

Definition get_conditions (self : t) (x : array)
  : option (list (list bool)) :=
  for_range
    (fun i =>
       lo <- nth_error (bins_with_boundaries self) i ;;
       hi <- nth_error (bins_with_boundaries self) (i + 1) ;;
       Some (map (fun xi => fle lo xi && flt xi hi) x))
    (seq 0 (n_bins self + 2)).

Definition pdf (self : t) (x : array) : option array :=
  conditions <- get_conditions self x ;;
  piecewise x conditions
    (map Const (weights_with_boundaries_normalized self)).

Definition cdf (self : t) (x : array) : option array :=
  conditions <- get_conditions self x ;;
  linear_functions <-
    for_range
      (fun i =>
         slope <- nth_error (weights_with_boundaries_normalized self)
                    (i + 1) ;;
         offset_x <- nth_error (bins self) i ;;
         c <- nth_error (cumulated_normalized_weights self) i ;;
         Some (linear_function slope offset_x (fmul c (delta_bin self))))
      (seq 0 (n_bins self)) ;;
  piecewise x conditions ([Const (Fin 0)] ++ linear_functions
                          ++ [Const (Fin 1)]).

End piecewise_constant_distribution_normalized.

Module BinModel1d.

Record t := mk {
  minval : float;
  maxval : float;
  dist_min : float;
  dist_max : float;
  bin_list : array;
  distribution : piecewise_constant_distribution_normalized.t
}.

Definition __init__ (dist_min dist_max : float) (bin_list : array)
  : option t :=
  d <- piecewise_constant_distribution_normalized.__init__
         dist_min dist_max bin_list ;;
  Some (mk dist_min dist_max dist_min dist_max bin_list d).

Definition _log_pdf (self : t) (x : array) : option array :=
  p <- piecewise_constant_distribution_normalized.pdf (distribution self) x ;;
  Some (map flog p).

Definition _log_cdf (self : t) (x : array) : option array :=
  c <- piecewise_constant_distribution_normalized.cdf (distribution self) x ;;
  Some (map flog c).

Definition as_pdf (self : t) : basic_1dimpdf.t :=
  basic_1dimpdf.mk (minval self) (maxval self)
    (_log_pdf self) (_log_cdf self).

End BinModel1d.

(** The sum of a list of reals, in the order [fsum] adds. *)
Definition Rsum (l : list R) : R := fold_left Rplus l 0.

(** ** [piecewise_constant_2d_distribution_normalized] *)

(** Floor division [a // b] of the backend. *)
Definition ffloordiv (a b : float) : float :=
  match a, b with
  | Fin x, Fin y =>
      if Req_EM_T y 0 then fdiv a b else Fin (IZR (Int_part (x / y)))
  | Fin x, PInf => if Rlt_dec x 0 then Fin (-1) else Fin 0
  | Fin x, NInf => if Rlt_dec 0 x then Fin (-1) else Fin 0
  | _, _ => NaN
  end.

Module piecewise_constant_2d_distribution_normalized.

(** A two-dimensional backend array: its shape and its entries. *)
Record matrix := mk_matrix {
  nrows : nat;
  ncols : nat;
  entry : nat -> nat -> float
}.

(** [np.zeros((n, m))]. *)
Definition zeros (n m : nat) : matrix := mk_matrix n m (fun _ _ => Fin 0).

(** [M[r, c] = v], which raises out of range. *)
Definition mset (M : matrix) (r c : nat) (v : float) : option matrix :=
  if Nat.ltb r (nrows M) && Nat.ltb c (ncols M)
  then Some (mk_matrix (nrows M) (ncols M)
               (fun r' c' => if Nat.eqb r' r && Nat.eqb c' c then v
                             else entry M r' c'))
  else None.

(** [np.sum(M)]: the rows one after the other. *)
Definition msum (M : matrix) : float :=
  fsum (flat_map (fun r => map (entry M r) (seq 0 (ncols M)))
          (seq 0 (nrows M))).

(** [np.triu_indices(n, k=0)]: the pairs [(r, c)], [r <= c < n], row by
    row. *)
Definition triu_indices (n : nat) : list (nat * nat) :=
  flat_map (fun r => map (fun c => (r, c)) (seq r (n - r))) (seq 0 n).

Fixpoint assign_loop (M : matrix) (indices : list (nat * nat))
  (vals : array) : option matrix :=
  match indices, vals with
  | [], [] => Some M
  | (r, c) :: idx, v :: vs => M' <- mset M r c v ;; assign_loop M' idx vs
  | _, _ => None
  end.

(** [M[indices] = vals]: one value per index pair, or a single value for
    all of them; other shapes raise. *)
Definition assign (M : matrix) (indices : list (nat * nat)) (vals : array)
  : option matrix :=
  if Nat.eqb (length vals) (length indices) then assign_loop M indices vals
  else match vals with
       | [v] => assign_loop M indices (map (fun _ => v) indices)
       | _ => None
       end.

(** [for i in ...: M[i,i] *= 1/2]. *)
Fixpoint halve_diagonal (M : matrix) (range : list nat) : option matrix :=
  match range with
  | [] => Some M
  | i :: rest =>
      M' <- (if Nat.ltb i (nrows M) && Nat.ltb i (ncols M)
             then mset M i i (fmul (entry M i i) (Fin (1 / 2)))
             else None) ;;
      halve_diagonal M' rest
  end.

Definition compute_norm (n_bins_1d : nat) (weights : array)
  (delta_bin_x1 delta_bin_x2 : float) : option float :=
  let upper_triangle_indices := triu_indices n_bins_1d in
  let M := zeros n_bins_1d n_bins_1d in
  M <- assign M upper_triangle_indices weights ;;
  M <- halve_diagonal M (seq 0 n_bins_1d) ;;
  Some (fdiv (fdiv (fmul (fdiv (Fin 1) (msum M)) (Fin 1)) delta_bin_x1)
          delta_bin_x2).

Record t := mk {
  dist_min : float;
  dist_max : float;
  n_bins : nat;
  n_bins_1d : nat;
  weights : array;
  grid_x1 : array;
  grid_x2 : array;
  delta_bin_x1 : float;
  delta_bin_x2 : float;
  norm : float;
  weights_normalized : array
}.

(** [int(-1/2 + np.sqrt(1/4 + 2 * n_bins))]. *)
Definition invert_triangular (n_bins : nat) : nat :=
  Z.to_nat (Int_part (- (1 / 2) + sqrt (1 / 4 + 2 * INR n_bins))).

Definition __init__ (dist_min dist_max : float) (weights : array)
  : option t :=
  let n_bins := length weights in
  let n_bins_1d := invert_triangular n_bins in
  let grid_x1 := linspace dist_min dist_max (n_bins_1d + 1) in
  let grid_x2 := linspace dist_min dist_max (n_bins_1d + 1) in
  a1 <- nth_error grid_x1 1 ;;
  a0 <- nth_error grid_x1 0 ;;
  let delta_bin_x1 := fsub a1 a0 in
  b1 <- nth_error grid_x2 1 ;;
  b0 <- nth_error grid_x2 0 ;;
  let delta_bin_x2 := fsub b1 b0 in
  norm <- compute_norm n_bins_1d weights delta_bin_x1 delta_bin_x2 ;;
  Some (mk dist_min dist_max n_bins n_bins_1d weights grid_x1 grid_x2
          delta_bin_x1 delta_bin_x2 norm (map (fmul norm) weights)).

Definition outside_domain_1d (self : t) (x : array) : list bool :=
  map (fun xi => flt xi (dist_min self) || fgt xi (dist_max self)) x.

(** The three masks are combined place by place, over arrays of one shape
    or an array and a one-element array. *)
Definition outside_domain_2d (self : t) (x1 x2 : array)
  : option (list bool) :=
  let outside := fun x => flt x (dist_min self) || fgt x (dist_max self) in
  broadcast2 (fun a b => (outside a || outside b) || flt a b) x1 x2.

Definition compute_conditions (self : t) (positions : array)
  : list (list bool) :=
  map (fun i => map (fun p => feq p (INRf i)) positions)
    (seq 0 (n_bins self)).

(** The grid position is a pair of arrays, one per coordinate. *)
Definition compute_flat_position (self : t) (position_in_grid : array * array)
  : option array :=
  let (p0, p1) := position_in_grid in
  flat_position_in_square <-
    broadcast2 fadd p0 (map (fmul (INRf (n_bins_1d self))) p1) ;;
  let subtract_triangle_constraint :=
    map (fun p => fdiv (fmul p (fadd p (Fin 1))) (Fin 2)) p1 in
  broadcast2 fsub flat_position_in_square subtract_triangle_constraint.

(** [n1 = (x1 - dist_min) // delta_bin_x1], [n2 = (x2 - dist_min) //
    delta_bin_x2]; [return (n1, n2)]. *)
Definition determine_grid_position (self : t) (x1 x2 : array)
  : array * array :=
  (map (fun x => ffloordiv (fsub x (dist_min self)) (delta_bin_x1 self)) x1,
   map (fun x => ffloordiv (fsub x (dist_min self)) (delta_bin_x2 self)) x2).

(** The weight [pdf] selects for grid positions: the lines of [pdf]
    between the grid position and the mask of the domain. *)
Definition weight_at (self : t) (position_in_grid : array * array)
  : option array :=
  positions_flat <- compute_flat_position self position_in_grid ;;
  let conditions := compute_conditions self positions_flat in
  piecewise positions_flat conditions
    (map Const (weights_normalized self)).

Definition pdf (self : t) (x1 x2 : array) : option array :=
  let position_in_grid := determine_grid_position self x1 x2 in
  pdf <- weight_at self position_in_grid ;;
  outside <- outside_domain_2d self x1 x2 ;;
  if Nat.eqb (length outside) (length pdf)
  then Some (map (fun p : bool * float => if fst p then Fin 0 else snd p)
               (combine outside pdf))
  else None.

Definition log_pdf (self : t) (x1 x2 : array) : option array :=
  p <- pdf self x1 x2 ;; Some (map flog p).

(** The bins of the triangular grid, [(i, j)] with [j <= i < n_bins_1d],
    and the area of a bin: a diagonal bin is cut in half by [x1 = x2]. *)
Definition bins (self : t) : list (nat * nat) :=
  flat_map (fun j => map (fun i => (i, j)) (seq j (n_bins_1d self - j)))
    (seq 0 (n_bins_1d self)).

Definition bin_area (self : t) (i j : nat) : float :=
  let a := fmul (delta_bin_x1 self) (delta_bin_x2 self) in
  if Nat.eqb i j then fmul a (Fin (1 / 2)) else a.

(** The mass of the distribution: over all bins, the weight of the bin
    times its area. *)
Fixpoint mass_terms (self : t) (bs : list (nat * nat)) : option array :=
  match bs with
  | [] => Some []
  | (i, j) :: rest =>
      w <- weight_at self ([INRf i], [INRf j]) ;;
      match w with
      | [wij] =>
          terms <- mass_terms self rest ;;
          Some (fmul wij (bin_area self i j) :: terms)
      | _ => None
      end
  end.

Definition total_mass (self : t) : option float :=
  terms <- mass_terms self (bins self) ;; Some (fsum terms).

End piecewise_constant_2d_distribution_normalized.

Module P2 := piecewise_constant_2d_distribution_normalized.

(** The place of the pair [(r, c)], [r <= c < n], among the upper-triangle
    indices of an [n] by [n] grid. *)
Fixpoint triu_offset (n r : nat) : nat :=
  match r with
  | O => O
  | S r' => triu_offset n r' + (n - r')
  end.

Definition triu_place (n r c : nat) : nat := (triu_offset n r + (c - r))%nat.

(** The sum the normalisation divides by: every weight once, a weight on
    the diagonal halved. *)
Definition half_diagonal_sum (n : nat) (ws : list R) : R :=
  Rsum (map (fun rc : nat * nat =>
               nth (triu_place n (fst rc) (snd rc)) ws 0
               * (if Nat.eqb (fst rc) (snd rc) then 1 / 2 else 1))
          (piecewise_constant_2d_distribution_normalized.triu_indices n)).

(** The entry of the halved upper-triangle matrix at [(r, c)]. *)
Definition triangle_entry (n : nat) (ws : list R) (r c : nat) : R :=
  if Nat.leb r c
  then nth (triu_place n r c) ws 0 * (if Nat.eqb r c then 1 / 2 else 1)
  else 0.

(** The value the two clamps leave at one place, for a kernel that works
    place by place. *)
Definition clamp_pdf (lo hi : float) (k : float -> float) (x : float) : float :=
  if flt x lo || fgt x hi then NInf else k x.

Definition clamp_cdf (lo hi : float) (k : float -> float) (x : float) : float :=
  if fgt x hi then Fin 0 else if flt x lo then NInf else k x.

(** An empty store. *)
Definition store_empty : store := fun _ => None.

(** ** Concrete instances *)

(** [PowerLaw(1, 10, -2)], the example of the specification. *)
Definition example_PL : basic_1dimpdf.t :=
  PowerLaw.as_pdf (PowerLaw.__init__ (Fin 1) (Fin 10) (Fin (-2))).

(** Two such power laws in a store, and the conditional density built on
    them. *)
Definition example_store : store :=
  store_set (store_set store_empty 0%nat example_PL) 1%nat example_PL.

Definition example_conditional : conditional_2dimpdf.t :=
  conditional_2dimpdf.__init__ 0%nat 1%nat.

(** An increasing odd function with values in (-1, 1), standing for [erf]
    where only its monotonicity matters. *)
Definition sigmoid_backend : Backend := {| erf := fun x => 2 / PI * atan x |}.

(** A random source whose first draw is [u1] and whose later draws are
    [u2]. *)
Definition two_draws (u1 u2 : R) : rng :=
  fun i => match i with O => Fin u1 | S _ => Fin u2 end.

(** ** Proof automation *)

(** Case analysis on the decisions of real comparisons. *)
Ltac rdec :=
  repeat match goal with
    | |- context [Rlt_dec ?a ?b] => destruct (Rlt_dec a b)
    | |- context [Rle_dec ?a ?b] => destruct (Rle_dec a b)
    | |- context [Req_EM_T ?a ?b] => destruct (Req_EM_T a b)
    | H : context [Rlt_dec ?a ?b] |- _ => destruct (Rlt_dec a b)
    | H : context [Rle_dec ?a ?b] |- _ => destruct (Rle_dec a b)
    | H : context [Req_EM_T ?a ?b] |- _ => destruct (Req_EM_T a b)
    end.

Ltac fcmp :=
  unfold fgt, fge, flt, fle, feq, Rltb, Rleb, Reqb in *;
  rdec; try discriminate; try reflexivity; try lra.

(** ** The moments of the beta distribution *)

(** [betadistro_muvar2ab] and [betadistro_ab2muvar], at one place of their
    array arguments. *)
Definition betadistro_muvar2ab (mu var : float) : float * float :=
  let a := fmul (fsub (fdiv (fsub (Fin 1) mu) var) (fdiv (Fin 1) mu))
                (fpower mu (Fin 2)) in
  (a, fmul a (fsub (fdiv (Fin 1) mu) (Fin 1))).

Definition betadistro_ab2muvar (a b : float) : float * float :=
  (fdiv a (fadd a b),
   fdiv (fmul a b)
        (fmul (fpower (fadd a b) (Fin 2)) (fadd (fadd a b) (Fin 1)))).

(** ** The power law in closed form *)

(** The antiderivative of [x^alpha] from [mn], the normalisation it gives on
    [[mn, mx]], and the density and the cumulative of the power law. *)
Definition PL_primitive (mn a x : R) : R :=
  if Req_EM_T a (-1) then ln (x / mn)
  else (Rpower x (a + 1) - Rpower mn (a + 1)) / (a + 1).

Definition PL_norm (mn mx a : R) : R := PL_primitive mn a mx.

Definition PL_density (mn mx a x : R) : R :=
  if Rlt_dec x mn then 0 else if Rlt_dec mx x then 0
  else Rpower x a / PL_norm mn mx a.

Definition PL_cumulative (mn mx a x : R) : R :=
  if Rlt_dec mx x then 1 else if Rlt_dec x mn then 0
  else PL_primitive mn a x / PL_norm mn mx a.

(** ** The truncated Gaussian in closed form *)

Definition TG_z (mu sg x : R) : R := (x - mu) / (sg * sqrt 2).

Definition TG_norm `{Backend} (lo hi mu sg : R) : R :=
  1 / 2 * erf (TG_z mu sg hi) - 1 / 2 * erf (TG_z mu sg lo).

Definition TG_log_density `{Backend} (lo hi mu sg x : R) : R :=
  - ln sg - 1 / 2 * ln (2 * PI) - 1 / 2 * ((x - mu) / sg * ((x - mu) / sg))
  - ln (TG_norm lo hi mu sg).

Definition TG_density `{Backend} (lo hi mu sg x : R) : R :=
  if Rlt_dec x lo then 0 else if Rlt_dec hi x then 0
  else exp (TG_log_density lo hi mu sg x).

Definition TG_cumulative `{Backend} (lo hi mu sg x : R) : R :=
  if Rlt_dec hi x then 1 else if Rlt_dec x lo then 0
  else (1 / 2 * erf (TG_z mu sg x) - 1 / 2 * erf (TG_z mu sg lo))
       / TG_norm lo hi mu sg.

(** ** [BrokenPowerLaw] *)

Module BrokenPowerLaw.

Record t := mk {
  minval : float;
  maxval : float;
  minpl : float;
  maxpl : float;
  alpha_1 : float;
  alpha_2 : float;
  b : float;
  break_point : float;
  PL1 : PowerLaw.t;
  PL2 : PowerLaw.t;
  norm_fact : array
}.

(** [norm_fact] is the one-element array
    [1 + PL1.pdf([break_point]) / PL2.pdf([break_point])]. *)
Definition __init__ (minpl maxpl alpha_1 alpha_2 b : float) : option t :=
  let break_point := fadd minpl (fmul b (fsub maxpl minpl)) in
  let PL1 := PowerLaw.__init__ minpl break_point alpha_1 in
  let PL2 := PowerLaw.__init__ break_point maxpl alpha_2 in
  p1 <- basic_1dimpdf.pdf (PowerLaw.as_pdf PL1) [break_point] ;;
  p2 <- basic_1dimpdf.pdf (PowerLaw.as_pdf PL2) [break_point] ;;
  r <- broadcast2 fdiv p1 p2 ;;
  Some (mk minpl maxpl minpl maxpl alpha_1 alpha_2 b break_point PL1 PL2
          (map (fadd (Fin 1)) r)).

Definition _log_pdf (self : t) (x : array) : option array :=
  l1 <- basic_1dimpdf.log_pdf (PowerLaw.as_pdf (PL1 self)) x ;;
  l2 <- basic_1dimpdf.log_pdf (PowerLaw.as_pdf (PL2 self)) x ;;
  c1 <- basic_1dimpdf.log_pdf (PowerLaw.as_pdf (PL1 self))
          [break_point self] ;;
  s <- broadcast2 fadd l2 c1 ;;
  c2 <- basic_1dimpdf.log_pdf (PowerLaw.as_pdf (PL2 self))
          [break_point self] ;;
  s <- broadcast2 fsub s c2 ;;
  s <- broadcast2 flogaddexp l1 s ;;
  broadcast2 fsub s (map flog (norm_fact self)).

Definition _log_cdf (self : t) (x : array) : option array :=
  c1 <- basic_1dimpdf.cdf (PowerLaw.as_pdf (PL1 self)) x ;;
  c2 <- basic_1dimpdf.cdf (PowerLaw.as_pdf (PL2 self)) x ;;
  p1 <- basic_1dimpdf.pdf (PowerLaw.as_pdf (PL1 self)) [break_point self] ;;
  p2 <- basic_1dimpdf.pdf (PowerLaw.as_pdf (PL2 self)) [break_point self] ;;
  r <- broadcast2 fdiv p1 p2 ;;
  s <- broadcast2 fmul c2 r ;;
  s <- broadcast2 fadd c1 s ;;
  s <- broadcast2 fdiv s (norm_fact self) ;;
  Some (map flog s).

Definition as_pdf (self : t) : basic_1dimpdf.t :=
  basic_1dimpdf.mk (minval self) (maxval self) (_log_pdf self) (_log_cdf self).

End BrokenPowerLaw.

(** ** [PowerLawTwoGaussians] *)

Module PowerLawTwoGaussians.

Record t := mk {
  minval : float;
  maxval : float;
  lambdag : float;
  lambdaglow : float;
  PL : PowerLaw.t;
  TGlow : TruncatedGaussian.t;
  TGhigh : TruncatedGaussian.t
}.

(** The bounds are Python's [min] and [max] of three values. *)
Definition __init__ `{Backend}
  (minpl maxpl alpha lambdag lambdaglow meanglow sigmaglow minglow maxglow
   meanghigh sigmaghigh minghigh maxghigh : float) : t :=
  mk (fmin (fmin minpl minglow) minghigh) (fmax (fmax maxpl maxglow) maxghigh)
    lambdag lambdaglow
    (PowerLaw.__init__ minpl maxpl alpha)
    (TruncatedGaussian.__init__ meanglow sigmaglow minglow maxglow)
    (TruncatedGaussian.__init__ meanghigh sigmaghigh minghigh maxghigh).

Definition _log_pdf `{Backend} (self : t) (x : array) : option array :=
  pl <- basic_1dimpdf.log_pdf (PowerLaw.as_pdf (PL self)) x ;;
  let pl_part := map (fadd (flog1p (fneg (lambdag self)))) pl in
  lo <- basic_1dimpdf.log_pdf (TruncatedGaussian.as_pdf (TGlow self)) x ;;
  let g_low :=
    map (fun l => fadd (fadd l (flog (lambdag self)))
                       (flog (lambdaglow self))) lo in
  hi <- basic_1dimpdf.log_pdf (TruncatedGaussian.as_pdf (TGhigh self)) x ;;
  let g_high :=
    map (fun l => fadd (fadd l (flog (lambdag self)))
                       (flog1p (fneg (lambdaglow self)))) hi in
  s <- broadcast2 flogaddexp pl_part g_low ;;
  broadcast2 flogaddexp s g_high.

Definition _log_cdf `{Backend} (self : t) (x : array) : option array :=
  pl <- basic_1dimpdf.cdf (PowerLaw.as_pdf (PL self)) x ;;
  let pl_part := map (fmul (fsub (Fin 1) (lambdag self))) pl in
  lo <- basic_1dimpdf.cdf (TruncatedGaussian.as_pdf (TGlow self)) x ;;
  hi <- basic_1dimpdf.cdf (TruncatedGaussian.as_pdf (TGhigh self)) x ;;
  g_part <-
    broadcast2 fadd
      (map (fun c => fmul (fmul c (lambdag self)) (lambdaglow self)) lo)
      (map (fun c => fmul (fmul c (lambdag self))
                       (fsub (Fin 1) (lambdaglow self))) hi) ;;
  s <- broadcast2 fadd pl_part g_part ;;
  Some (map flog s).

Definition as_pdf `{Backend} (self : t) : basic_1dimpdf.t :=
  basic_1dimpdf.mk (minval self) (maxval self) (_log_pdf self) (_log_cdf self).

End PowerLawTwoGaussians.

(** The break point of a broken power law, the ratio that joins its two
    pieces, and its density and cumulative. *)
Definition BPL_break (mn mx b : R) : R := mn + b * (mx - mn).

Definition BPL_ratio (mn mx a1 a2 b : R) : R :=
  PL_density mn (BPL_break mn mx b) a1 (BPL_break mn mx b)
  / PL_density (BPL_break mn mx b) mx a2 (BPL_break mn mx b).

Definition BPL_density (mn mx a1 a2 b x : R) : R :=
  (PL_density mn (BPL_break mn mx b) a1 x
   + PL_density (BPL_break mn mx b) mx a2 x * BPL_ratio mn mx a1 a2 b)
  / (1 + BPL_ratio mn mx a1 a2 b).

Definition BPL_cumulative (mn mx a1 a2 b x : R) : R :=
  (PL_cumulative mn (BPL_break mn mx b) a1 x
   + PL_cumulative (BPL_break mn mx b) mx a2 x * BPL_ratio mn mx a1 a2 b)
  / (1 + BPL_ratio mn mx a1 a2 b).


(** The kernels of the two building blocks at one place, with their
    normalisation in closed form. *)
Definition PL_kernel (mn mx a : R) (xi : float) : float :=
  fsub (fmul (Fin a) (flog xi)) (flog (Fin (PL_norm mn mx a))).

Definition TG_kernel `{Backend} (lo hi mu sg : R) (xi : float) : float :=
  fsub (fsub (fsub (Fin (- ln sg)) (Fin (1 / 2 * ln (2 * PI))))
             (fmul (Fin (1 / 2))
                (fpower (fdiv (fsub xi (Fin mu)) (Fin sg)) (Fin 2))))
       (Fin (ln (TG_norm lo hi mu sg))).

(** A function of finite values, as a function of array elements. *)
Definition on_fin (g : R -> float) (xi : float) : float :=
  match xi with Fin x => g x | _ => NaN end.


(** ** Ranges of values *)

(** A finite double with a value in [[lo, hi]]. *)
Definition within (lo hi : R) (y : float) : Prop :=
  exists v, y = Fin v /\ lo <= v <= hi.

(** A table that never decreases from one place to the next. *)
Definition nondecreasing (a : array) : Prop :=
  forall i, (S i < length a)%nat -> fle (nth i a NaN) (nth (S i) a NaN) = true.

(** The values of [linspace] between finite end points. *)
Definition linspace_R (a b : R) (n : nat) : list R :=
  match n with
  | O => []
  | 1%nat => [a]
  | S m => map (fun i => a + INR i * ((b - a) / INR (n - 1))) (seq 0 m) ++ [b]
  end.


(** The value a piece of [np.piecewise] gives at one point. *)
Definition piece_at (pc : piece) (x : float) : float :=
  match pc with
  | Const v => v
  | Func f => hd NaN (f [x])
  end.


(** ** [linear_function_with_jacobian] *)

(** [z] is an array; the four bounds are scalars of the backend, as in the
    caller [m_to_y_with_jacobian], so that a division by zero gives an
    infinity or not-a-number. *)
Definition linear_function_with_jacobian
  (z : array) (target_min target_max z_minimum z_maximum : float)
  : array * float :=
  let normalized_z :=
    map (fun zi => fdiv (fsub zi z_minimum) (fsub z_maximum z_minimum)) z in
  let mapped_value :=
    map (fun nz => fadd target_min (fmul nz (fsub target_max target_min)))
      normalized_z in
  let jacobian :=
    fdiv (fsub z_maximum z_minimum) (fsub target_max target_min) in
  (mapped_value, jacobian).

(** The window of [_S_factor] for a positive width, in closed form. *)
Definition S_window (minval w x : R) : R :=
  if Rle_dec x minval then 0
  else if Rle_dec (minval + w) x then 1
  else 1 / (exp (w / (x - minval) + w / (x - minval - w)) + 1).


(** ** [SmoothedProb] *)

(** The quadrature [trapz] of the backend: a function of the samples and of
    the grid. *)
Class Quadrature := { trapz : array -> array -> float }.

Module SmoothedProb.

(** The grid of the two integrals and of the numeric cumulative. *)
Definition N_INT : nat := 1000.

(** An instance.  [origin_prob] is the deep copy the constructor takes: it
    is held by value. *)
Record t := mk {
  minval : float;
  maxval : float;
  origin_prob : basic_1dimpdf.t;
  bottom_smooth : float;
  bottom : float;
  integral_before : float;
  integral_now : float;
  norm : float;
  x_eval : array;
  cdf_numeric : array
}.

Definition _log_pdf (self : t) (x : array) : option array :=
  window <- _S_factor x (bottom self) (bottom_smooth self) ;;
  l <- basic_1dimpdf.log_pdf (origin_prob self) x ;;
  s <- broadcast2 fadd l (map flog window) ;;
  Some (map (fun v => fsub v (flog (norm self))) s).

(** [(x_eval[:-1:] + x_eval[1::]) * 0.5]. *)
Definition midpoints (x_eval : array) : option array :=
  s <- broadcast2 fadd (removelast x_eval) (tl x_eval) ;;
  Some (map (fun v => fmul v (Fin (1 / 2))) s).

(** On a one-dimensional array [ravel] and [reshape] change nothing. *)
Definition _log_cdf (self : t) (x : array) : option array :=
  let top := fadd (bottom self) (bottom_smooth self) in
  let toret := ones_like x in
  toret <- mask_assign (map (fun xi => flt xi (bottom self)) x) (Fin 0) toret ;;
  let in_window := map (fun xi => fge xi (bottom self) && fle xi top) x in
  mids <- midpoints (x_eval self) ;;
  v <- interp (select in_window x) mids (cdf_numeric self) ;;
  toret <- scatter in_window v toret ;;
  let above := map (fun xi => fge xi top) x in
  c <- basic_1dimpdf.cdf (origin_prob self) (select above x) ;;
  c0 <- basic_1dimpdf.cdf (origin_prob self) [top] ;;
  s <- broadcast2 fsub (map (fadd (integral_now self)) c) c0 ;;
  toret <- scatter above (map (fun v => fdiv v (norm self)) s) toret ;;
  Some (map flog toret).

Definition as_pdf (self : t) : basic_1dimpdf.t :=
  basic_1dimpdf.mk (minval self) (maxval self) (_log_pdf self) (_log_cdf self).

(** [self.pdf] is called while [cdf_numeric] is not yet set; it does not
    read it. *)
Definition __init__ `{Quadrature} (originprob : basic_1dimpdf.t)
  (bottomsmooth : float) : option t :=
  let origin_prob := originprob in
  let bottom := basic_1dimpdf.minval originprob in
  let int_array :=
    linspace (basic_1dimpdf.minval originprob)
      (fadd (basic_1dimpdf.minval originprob) bottomsmooth) N_INT in
  p <- basic_1dimpdf.pdf origin_prob int_array ;;
  let integral_before := trapz p int_array in
  p' <- basic_1dimpdf.pdf origin_prob int_array ;;
  sf <- _S_factor int_array bottom bottomsmooth ;;
  ps <- broadcast2 fmul p' sf ;;
  let integral_now := trapz ps int_array in
  let norm := fadd (fsub (Fin 1) integral_before) integral_now in
  let x_eval := linspace bottom (fadd bottom bottomsmooth) N_INT in
  let pre := mk (basic_1dimpdf.minval originprob)
               (basic_1dimpdf.maxval originprob) origin_prob bottomsmooth
               bottom integral_before integral_now norm x_eval [] in
  mids <- midpoints x_eval ;;
  pd <- basic_1dimpdf.pdf (as_pdf pre) mids ;;
  widths <- broadcast2 fsub (tl x_eval) (removelast x_eval) ;;
  cn <- broadcast2 fmul (cumsum pd) widths ;;
  Some (mk (basic_1dimpdf.minval originprob)
          (basic_1dimpdf.maxval originprob) origin_prob bottomsmooth
          bottom integral_before integral_now norm x_eval cn).

End SmoothedProb.

(** The trapezoid rule, an instance of the quadrature. *)
Fixpoint trapezoid (y x : array) : float :=
  match y, x with
  | y0 :: ((y1 :: _) as yr), x0 :: ((x1 :: _) as xr) =>
      fadd (fdiv (fmul (fsub x1 x0) (fadd y0 y1)) (Fin 2)) (trapezoid yr xr)
  | _, _ => Fin 0
  end.

Definition trapezoid_quadrature : Quadrature := {| trapz := trapezoid |}.

(** The window of [SmoothedProb] for a width that may be zero. *)
Definition smoothing_window (lo w x : R) : R :=
  if Req_EM_T w 0 then 1 else S_window lo w x.


(** ** [Bivariate2DGaussian] *)

Module Bivariate2DGaussian.

(** The nine parameters are scalars of the backend; the class overrides the
    methods of [conditional_2dimpdf] and holds no sub-distribution. *)
Record t := mk {
  x1min : float;
  x1max : float;
  x1mean : float;
  x2min : float;
  x2max : float;
  x2mean : float;
  x1variance : float;
  x12covariance : float;
  x2variance : float;
  norm_marginal_1 : float
}.

Definition __init__ `{Backend}
  (x1min x1max x1mean x2min x2max x2mean x1variance x12covariance
   x2variance : float) : t :=
  mk x1min x1max x1mean x2min x2max x2mean x1variance x12covariance
    x2variance (get_gaussian_norm x1min x1max x1mean (fsqrt x1variance)).

(** [y[(x1<x1min) | (x1>x1max) | (x2<x2min) | (x2>x2max)] = -xp.inf]. *)
Definition _check_bound_pdf (self : t) (x1 x2 y : array) : option array :=
  mask <- broadcast2
            (fun a b => ((flt a (x1min self) || fgt a (x1max self))
                         || flt b (x2min self)) || fgt b (x2max self))
            x1 x2 ;;
  mask_assign mask NInf y.

Definition log_pdf `{Backend} (self : t) (x1 x2 : array) : option array :=
  let marginal_log :=
    map (fun a =>
           fsub (fsub (fmul (Fin (- (1 / 2)))
                         (flog (fmul (Fin (2 * PI)) (x1variance self))))
                      (fdiv (fmul (Fin (1 / 2))
                               (fpower (fsub a (x1mean self)) (Fin 2)))
                            (x1variance self)))
                (flog (norm_marginal_1 self))) x1 in
  let conditioned_mean :=
    map (fun a =>
           fadd (x2mean self)
             (fmul (fdiv (x12covariance self) (x1variance self))
                (fsub a (x1mean self)))) x1 in
  let conditioned_variance :=
    fsub (x2variance self)
      (fdiv (fpower (x12covariance self) (Fin 2)) (x1variance self)) in
  let norm_conditioned :=
    map (fun cm =>
           get_gaussian_norm (x2min self) (x2max self) cm
             (fsqrt conditioned_variance)) conditioned_mean in
  d <- broadcast2 fsub x2 conditioned_mean ;;
  let q :=
    map (fun di =>
           fsub (fmul (Fin (- (1 / 2)))
                   (flog (fmul (Fin (2 * PI)) conditioned_variance)))
                (fdiv (fmul (Fin (1 / 2)) (fpower di (Fin 2)))
                   conditioned_variance)) d in
  conditioned_log <- broadcast2 fsub q (map flog norm_conditioned) ;;
  y <- broadcast2 fadd marginal_log conditioned_log ;;
  _check_bound_pdf self x1 x2 y.

Definition pdf `{Backend} (self : t) (x1 x2 : array) : option array :=
  y <- log_pdf self x1 x2 ;; Some (map fexp y).

End Bivariate2DGaussian.

(** * Properties *)

(** ** Comparisons and masks *)

Lemma flt_fle_trans (a b c : float) :
  flt a b = true -> fle b c = true -> flt a c = true.
Proof. destruct a, b, c; simpl; intros; fcmp. Qed.

Lemma flt_irrefl (a : float) : flt a a = false.
Proof. destruct a; simpl; fcmp. Qed.

Lemma flt_asym (a b : float) : flt a b = true -> flt b a = false.
Proof. destruct a, b; simpl; intros; fcmp. Qed.

Lemma flt_trans (a b c : float) :
  flt a b = true -> flt b c = true -> flt a c = true.
Proof. destruct a, b, c; simpl; intros; fcmp. Qed.

Lemma mask_assign_total (mask : list bool) (v : float) (y : array) :
  length mask = length y -> exists y', mask_assign mask v y = Some y'.
Proof.
  intros E. unfold mask_assign. rewrite E, Nat.eqb_refl. eauto.
Qed.

Lemma mask_assign_length (mask : list bool) (v : float) (y y' : array) :
  mask_assign mask v y = Some y' ->
  length mask = length y /\ length y' = length y.
Proof.
  unfold mask_assign. destruct (Nat.eqb_spec (length mask) (length y)) as [E|];
    [|discriminate].
  intros [= <-]. split; [exact E|].
  rewrite length_map, length_combine, E. apply Nat.min_id.
Qed.

Lemma mask_assign_nth (mask : list bool) (v : float) (y y' : array)
  (i : nat) (b : bool) (e : float) :
  mask_assign mask v y = Some y' ->
  nth_error mask i = Some b -> nth_error y i = Some e ->
  nth_error y' i = Some (if b then v else e).
Proof.
  unfold mask_assign. destruct (Nat.eqb (length mask) (length y));
    [|discriminate].
  intros [= <-]. revert y i. induction mask as [|m mask IH];
    intros [|y0 y] [|i]; simpl; try discriminate.
  - intros [= ->] [= ->]. reflexivity.
  - apply IH.
Qed.

Lemma nth_error_map_some {A B} (f : A -> B) (l : list A) (i : nat) (a : A) :
  nth_error l i = Some a -> nth_error (map f l) i = Some (f a).
Proof. intros E. rewrite nth_error_map, E. reflexivity. Qed.

Lemma nth_error_same_length {A B} (l : list A) (l' : list B) (i : nat) (a : A) :
  length l' = length l -> nth_error l i = Some a ->
  exists b, nth_error l' i = Some b.
Proof.
  intros E Hn. destruct (nth_error l' i) eqn:E'; [eauto|].
  apply nth_error_None in E'.
  assert (i < length l)%nat by (apply nth_error_Some; congruence). lia.
Qed.

(** ** The boundary clamp of [basic_1dimpdf] *)

(** C1.  For a distribution with [minval <= maxval] whose kernels return
    arrays of the shape of [x], [log_pdf] and [log_cdf] return, and at every
    place where [x < minval] or [x > maxval] the log-density is minus
    infinity; where [x < minval] the log-cumulative is minus infinity and the
    cumulative 0; where [x > maxval] the log-cumulative is zero and the
    cumulative 1.  The values the kernels return at those places play no
    part. *)
Theorem C1_boundary_clamp (d : basic_1dimpdf.t) (x kp kc : array) :
  fle (basic_1dimpdf.minval d) (basic_1dimpdf.maxval d) = true ->
  basic_1dimpdf._log_pdf d x = Some kp -> length kp = length x ->
  basic_1dimpdf._log_cdf d x = Some kc -> length kc = length x ->
  exists lp lc c,
    basic_1dimpdf.log_pdf d x = Some lp /\
    basic_1dimpdf.log_cdf d x = Some lc /\
    basic_1dimpdf.cdf d x = Some c /\
    forall i xi, nth_error x i = Some xi ->
      ((flt xi (basic_1dimpdf.minval d) = true \/
        fgt xi (basic_1dimpdf.maxval d) = true) ->
       nth_error lp i = Some NInf) /\
      (flt xi (basic_1dimpdf.minval d) = true ->
       nth_error lc i = Some NInf /\ nth_error c i = Some (Fin 0)) /\
      (fgt xi (basic_1dimpdf.maxval d) = true ->
       nth_error lc i = Some (Fin 0) /\ nth_error c i = Some (Fin 1)).
Proof.
  intros Hle Hp Lp Hc Lc.
  unfold basic_1dimpdf.cdf, basic_1dimpdf.log_pdf, basic_1dimpdf.log_cdf,
    basic_1dimpdf._check_bound_pdf, basic_1dimpdf._check_bound_cdf.
  rewrite Hp, Hc. simpl.
  set (mp := map (fun xi => flt xi (basic_1dimpdf.minval d)
                            || fgt xi (basic_1dimpdf.maxval d)) x).
  set (m1 := map (fun xi => flt xi (basic_1dimpdf.minval d)) x).
  set (m2 := map (fun xi => fgt xi (basic_1dimpdf.maxval d)) x).
  destruct (mask_assign_total mp NInf kp) as [lp Elp].
  { unfold mp. rewrite length_map. auto. }
  destruct (mask_assign_total m1 NInf kc) as [l1 El1].
  { unfold m1. rewrite length_map. auto. }
  destruct (mask_assign_length _ _ _ _ El1) as [_ Ll1].
  destruct (mask_assign_total m2 (Fin 0) l1) as [lc Elc].
  { unfold m2. rewrite length_map. congruence. }
  exists lp, lc, (map fexp lc). rewrite Elp, El1. simpl. rewrite Elc.
  split; [reflexivity|]. split; [reflexivity|]. split; [reflexivity|].
  intros i xi Hx.
  destruct (nth_error_same_length x kp i xi Lp Hx) as [ep Hep].
  destruct (nth_error_same_length x kc i xi Lc Hx) as [ec Hec].
  pose proof (mask_assign_nth _ _ _ _ i _ ep Elp
                (nth_error_map_some _ _ _ _ Hx) Hep) as Hlp.
  pose proof (mask_assign_nth _ _ _ _ i _ ec El1
                (nth_error_map_some _ _ _ _ Hx) Hec) as Hl1.
  pose proof (mask_assign_nth _ _ _ _ i _ _ Elc
                (nth_error_map_some _ _ _ _ Hx) Hl1) as Hlc.
  split; [|split].
  - intros Hout. rewrite Hlp.
    destruct Hout as [-> | ->]; [|rewrite orb_true_r]; reflexivity.
  - intros Hlo. rewrite Hlo in Hlc.
    assert (E : fgt xi (basic_1dimpdf.maxval d) = false).
    { unfold fgt. apply flt_asym. eapply flt_fle_trans; eauto. }
    rewrite E in Hlc. split; [exact Hlc|].
    apply (nth_error_map_some fexp) in Hlc. exact Hlc.
  - intros Hhi. rewrite Hhi in Hlc. split; [exact Hlc|].
    apply (nth_error_map_some fexp) in Hlc. rewrite Hlc.
    simpl. rewrite exp_0. reflexivity.
Qed.

(** ** The conditional density *)

Lemma broadcast2_same_length {C} (f : float -> float -> C) (a b : array) :
  length a = length b ->
  broadcast2 f a b = Some (map (fun p => f (fst p) (snd p)) (combine a b)).
Proof.
  intros E. destruct a as [|a0 [|a1 a]], b as [|b0 [|b1 b]];
    try discriminate; try reflexivity.
  unfold broadcast2. rewrite E, Nat.eqb_refl. reflexivity.
Qed.

Lemma nth_error_combine {A B} (l : list A) (l' : list B) (i : nat)
  (a : A) (b : B) :
  nth_error l i = Some a -> nth_error l' i = Some b ->
  nth_error (combine l l') i = Some (a, b).
Proof.
  revert l' i. induction l as [|x l IH]; intros [|y l'] [|i]; simpl;
    try discriminate.
  - intros [= ->] [= ->]. reflexivity.
  - apply IH.
Qed.

Lemma length_combine_same {A B} (l : list A) (l' : list B) :
  length l = length l' -> length (combine l l') = length l.
Proof. intros E. rewrite length_combine, E. apply Nat.min_id. Qed.

Lemma log_pdf_length (d : basic_1dimpdf.t) (x y : array) :
  basic_1dimpdf.log_pdf d x = Some y -> length y = length x.
Proof.
  unfold basic_1dimpdf.log_pdf, basic_1dimpdf._check_bound_pdf.
  destruct (basic_1dimpdf._log_pdf d x) as [k|]; [simpl|discriminate].
  intros E. apply mask_assign_length in E. rewrite length_map in E. lia.
Qed.

Lemma log_cdf_length (d : basic_1dimpdf.t) (x y : array) :
  basic_1dimpdf.log_cdf d x = Some y -> length y = length x.
Proof.
  unfold basic_1dimpdf.log_cdf, basic_1dimpdf._check_bound_cdf.
  destruct (basic_1dimpdf._log_cdf d x) as [k|]; [simpl|discriminate].
  destruct (mask_assign _ NInf k) as [k1|] eqn:E1; [simpl|discriminate].
  intros E. apply mask_assign_length in E, E1.
  rewrite length_map in E, E1. lia.
Qed.

(** C2.  On two arrays of one length, when the three one-dimensional
    evaluations return, [log_pdf] returns, and its value at each place is
    [pdf1.log_pdf(x1) + pdf2.log_pdf(x2) - pdf2.log_cdf(x1)], except that it
    is minus infinity where [x1 < x2] or where that sum is not-a-number; it
    is never not-a-number. *)
Theorem C2_conditional_log_pdf (h : store) (self : conditional_2dimpdf.t)
  (p1 p2 : basic_1dimpdf.t) (x1 x2 a b c : array) :
  h (conditional_2dimpdf.pdf1 self) = Some p1 ->
  h (conditional_2dimpdf.pdf2 self) = Some p2 ->
  length x2 = length x1 ->
  basic_1dimpdf.log_pdf p1 x1 = Some a ->
  basic_1dimpdf.log_pdf p2 x2 = Some b ->
  basic_1dimpdf.log_cdf p2 x1 = Some c ->
  exists y,
    conditional_2dimpdf.log_pdf h self x1 x2 = Some y /\
    length y = length x1 /\
    forall i u v ai bi ci,
      nth_error x1 i = Some u -> nth_error x2 i = Some v ->
      nth_error a i = Some ai -> nth_error b i = Some bi ->
      nth_error c i = Some ci ->
      let raw := fsub (fadd ai bi) ci in
      nth_error y i = Some (if flt u v || isnan raw then NInf else raw) /\
      (if flt u v || isnan raw then NInf else raw) <> NaN.
Proof.
  intros H1 H2 L Ha Hb Hc.
  pose proof (log_pdf_length _ _ _ Ha) as La.
  pose proof (log_pdf_length _ _ _ Hb) as Lb.
  pose proof (log_cdf_length _ _ _ Hc) as Lc.
  unfold conditional_2dimpdf.log_pdf, conditional_2dimpdf.log_pdf_at.
  rewrite H1, H2. simpl. rewrite Ha, Hb. simpl.
  rewrite (broadcast2_same_length fadd a b) by congruence. simpl.
  rewrite Hc. simpl.
  set (ab := map _ (combine a b)).
  assert (Lab : length ab = length x1).
  { unfold ab. rewrite length_map, length_combine_same; congruence. }
  rewrite (broadcast2_same_length fsub ab c) by congruence. simpl.
  set (y0 := map _ (combine ab c)).
  assert (Ly0 : length y0 = length x1).
  { unfold y0. rewrite length_map, length_combine_same; congruence. }
  unfold conditional_2dimpdf._check_bound_pdf.
  rewrite (broadcast2_same_length flt x1 x2) by congruence. simpl.
  set (lt := map _ (combine x1 x2)).
  assert (Llt : length lt = length x1).
  { unfold lt. rewrite length_map, length_combine_same; congruence. }
  replace (length lt =? length y0)%nat with true
    by (symmetry; apply Nat.eqb_eq; congruence).
  set (mask := map _ (combine lt y0)).
  destruct (mask_assign_total mask NInf y0) as [y Ey].
  { unfold mask. rewrite length_map, length_combine_same; congruence. }
  exists y. split; [exact Ey|]. split.
  { apply mask_assign_length in Ey. lia. }
  intros i u v ai bi ci Hu Hv Hai Hbi Hci.
  set (raw := fsub (fadd ai bi) ci).
  assert (Hab : nth_error ab i = Some (fadd ai bi)).
  { unfold ab. erewrite nth_error_map_some;
      [|apply nth_error_combine; eassumption]. reflexivity. }
  assert (Hy0 : nth_error y0 i = Some raw).
  { unfold y0. erewrite nth_error_map_some;
      [|apply nth_error_combine; eassumption]. reflexivity. }
  assert (Hlt : nth_error lt i = Some (flt u v)).
  { unfold lt. erewrite nth_error_map_some;
      [|apply nth_error_combine; eassumption]. reflexivity. }
  assert (Hm : nth_error mask i = Some (flt u v || isnan raw)).
  { unfold mask. erewrite nth_error_map_some;
      [|apply nth_error_combine; eassumption]. reflexivity. }
  split.
  - exact (mask_assign_nth _ _ _ _ _ _ _ Ey Hm Hy0).
  - destruct (flt u v); simpl; [discriminate|].
    destruct raw; simpl; discriminate.
Qed.

(** ** The window function *)

Lemma scatter_select (f : float -> float) (mask : list bool) :
  forall a b : array,
    length a = length mask -> length b = length mask ->
    scatter mask (map f (select mask a)) b =
    Some (map (fun p : bool * float * float =>
                 if fst (fst p) then f (snd (fst p)) else snd p)
            (combine (combine mask a) b)).
Proof.
  induction mask as [|m mask IH]; intros [|a0 a] [|b0 b]; simpl;
    try discriminate; try reflexivity.
  intros [= La] [= Lb]. destruct m; simpl; rewrite (IH a b La Lb);
    reflexivity.
Qed.

Lemma mask_assign_map (m : float -> bool) (v : float) (g : float -> float)
  (x : array) :
  mask_assign (map m x) v (map g x) =
  Some (map (fun xi => if m xi then v else g xi) x).
Proof.
  unfold mask_assign. rewrite !length_map, Nat.eqb_refl. f_equal.
  induction x as [|x0 x IH]; simpl; [reflexivity|]. rewrite IH. reflexivity.
Qed.

Lemma S_factor_elementwise (mass : array) (mmin delta_m : float) :
  feq delta_m (Fin 0) = false ->
  _S_factor mass mmin delta_m = Some (map (S_elem mmin delta_m) mass).
Proof.
  intros Hd. unfold _S_factor. rewrite Hd.
  rewrite scatter_select by (unfold ones_like; rewrite !length_map; reflexivity).
  simpl.
  set (e := fun x => if fgt x mmin && flt x (fadd delta_m mmin)
           then fexp (nan_to_num
                        (fadd (fdiv delta_m (fsub x mmin))
                              (fdiv delta_m (fsub (fsub x mmin) delta_m))))
           else Fin 1).
  match goal with
  | |- context [map ?f (map ?g (combine (combine ?a ?b) ?c))] =>
      assert (E : map f (map g (combine (combine a b) c)) =
                  map (fun x => fdiv (Fin 1) (fadd (e x) (Fin 1))) mass)
  end.
  { unfold ones_like, e. induction mass as [|x0 x IH]; simpl;
      [reflexivity|]. rewrite IH. reflexivity. }
  rewrite E. rewrite mask_assign_map. simpl. rewrite mask_assign_map.
  reflexivity.
Qed.


(** ** The power law *)

Lemma fpower_pos (x y : R) :
  0 < x -> y <> 0 -> fpower (Fin x) (Fin y) = Fin (Rpower x y).
Proof. intros Hx Hy. simpl. rdec; try lra. reflexivity. Qed.

Lemma Rpower_1_l (y : R) : Rpower 1 y = 1.
Proof. unfold Rpower. rewrite ln_1, Rmult_0_r. apply exp_0. Qed.

Lemma PL_normfact_general (mn mx a : R) :
  0 < mn -> 0 < mx -> a <> -1 ->
  PL_normfact (Fin mn) (Fin mx) (Fin a) =
  Fin ((Rpower mx (a + 1) - Rpower mn (a + 1)) / (a + 1)).
Proof.
  intros Hmn Hmx Ha. unfold PL_normfact.
  replace (feq (Fin a) (Fin (-1))) with false by (simpl; fcmp).
  cbn [fadd]. rewrite !fpower_pos by lra.
  simpl. destruct (Req_EM_T (a + 1) 0); [lra|]. reflexivity.
Qed.

Lemma PL_normfact_log (mn mx : R) :
  0 < mn -> 0 < mx ->
  PL_normfact (Fin mn) (Fin mx) (Fin (-1)) = Fin (ln (mx / mn)).
Proof.
  intros Hmn Hmx. unfold PL_normfact.
  replace (feq (Fin (-1)) (Fin (-1))) with true by (simpl; fcmp).
  simpl. destruct (Req_EM_T mn 0); [lra|]. simpl.
  assert (0 < mx / mn) by (apply Rdiv_lt_0_compat; assumption).
  destruct (Rlt_dec 0 (mx / mn)); [reflexivity|lra].
Qed.

Lemma PL_normfact_example :
  PL_normfact (Fin 1) (Fin 10) (Fin (-2)) = Fin (9 / 10).
Proof.
  rewrite PL_normfact_general by lra. f_equal.
  replace (-2 + 1) with (- (1)) by lra.
  rewrite !Rpower_Ropp, Rpower_1_l, Rpower_1 by lra. field.
Qed.

(** C5.  For positive finite bounds the normalisation constant is
    [(max^(alpha+1) - min^(alpha+1)) / (alpha+1)] when [alpha] is not -1 and
    [log (max/min)] when it is; [PowerLaw(min=1, max=10, alpha=-2)] has
    constant 0.9 and density [1/0.9] at 1. *)
Theorem C5_PowerLaw_norm (mn mx a : R) :
  0 < mn -> 0 < mx ->
  (a <> -1 ->
   PowerLaw.norm_fact (PowerLaw.__init__ (Fin mn) (Fin mx) (Fin a)) =
   Fin ((Rpower mx (a + 1) - Rpower mn (a + 1)) / (a + 1))) /\
  (a = -1 ->
   PowerLaw.norm_fact (PowerLaw.__init__ (Fin mn) (Fin mx) (Fin a)) =
   Fin (ln (mx / mn))) /\
  PowerLaw.norm_fact (PowerLaw.__init__ (Fin 1) (Fin 10) (Fin (-2))) =
  Fin (9 / 10) /\
  basic_1dimpdf.pdf
    (PowerLaw.as_pdf (PowerLaw.__init__ (Fin 1) (Fin 10) (Fin (-2))))
    [Fin 1] = Some [Fin (1 / (9 / 10))].
Proof.
  intros Hmn Hmx. repeat split.
  - intros Ha. apply PL_normfact_general; assumption.
  - intros ->. apply PL_normfact_log; assumption.
  - apply PL_normfact_example.
  - unfold basic_1dimpdf.pdf, basic_1dimpdf.log_pdf, PowerLaw.as_pdf,
      PowerLaw.__init__, PowerLaw._log_pdf,
      basic_1dimpdf._check_bound_pdf.
    cbn [basic_1dimpdf._log_pdf basic_1dimpdf.minval basic_1dimpdf.maxval
         PowerLaw.alpha PowerLaw.norm_fact PowerLaw.minval PowerLaw.maxval
         bind map].
    rewrite PL_normfact_example.
    replace (flt (Fin 1) (Fin 1)) with false by (simpl; fcmp).
    replace (fgt (Fin 1) (Fin 10)) with false by (simpl; fcmp).
    unfold mask_assign. simpl.
    destruct (Rlt_dec 0 1); [|lra].
    destruct (Rlt_dec 0 (9 / 10)); [|lra]. simpl.
    do 3 f_equal. rewrite ln_1, Rmult_0_r, Rplus_0_l, exp_Ropp, exp_ln by lra.
    lra.
Qed.

(** ** The mixture of a power law and a Gaussian *)

Lemma Rltb_true (a b : R) : a < b -> Rltb a b = true.
Proof. intros. unfold Rltb. rdec; [reflexivity|lra]. Qed.

Lemma Rltb_false (a b : R) : b <= a -> Rltb a b = false.
Proof. intros. unfold Rltb. rdec; [lra|reflexivity]. Qed.

Lemma fdiv_self (r : R) : r <> 0 -> fdiv (Fin r) (Fin r) = Fin 1.
Proof.
  intros Hr. simpl. destruct (Req_EM_T r 0); [contradiction|].
  f_equal. field. assumption.
Qed.

Lemma flog_1 : flog (Fin 1) = Fin 0.
Proof. simpl. destruct (Rlt_dec 0 1); [|lra]. rewrite ln_1. reflexivity. Qed.

Lemma fexp_0 : fexp (Fin 0) = Fin 1.
Proof. simpl. rewrite exp_0. reflexivity. Qed.

Lemma log_cdf_singleton (d : basic_1dimpdf.t) (x k : float) :
  basic_1dimpdf._log_cdf d [x] = Some [k] ->
  basic_1dimpdf.log_cdf d [x] =
  Some [if fgt x (basic_1dimpdf.maxval d) then Fin 0
        else if flt x (basic_1dimpdf.minval d) then NInf else k].
Proof.
  intros E. unfold basic_1dimpdf.log_cdf, basic_1dimpdf._check_bound_cdf.
  rewrite E. reflexivity.
Qed.

Lemma log_pdf_singleton (d : basic_1dimpdf.t) (x k : float) :
  basic_1dimpdf._log_pdf d [x] = Some [k] ->
  basic_1dimpdf.log_pdf d [x] =
  Some [if flt x (basic_1dimpdf.minval d) || fgt x (basic_1dimpdf.maxval d)
        then NInf else k].
Proof.
  intros E. unfold basic_1dimpdf.log_pdf, basic_1dimpdf._check_bound_pdf.
  rewrite E. reflexivity.
Qed.

Lemma Rpower_base_inj (x y e : R) :
  0 < x -> 0 < y -> e <> 0 -> Rpower x e = Rpower y e -> x = y.
Proof.
  intros Hx Hy He E. unfold Rpower in E. apply exp_inv in E.
  apply Rmult_eq_reg_l in E; [|exact He]. apply ln_inv; assumption.
Qed.

Lemma PowerLaw_log_cdf_kernel_top (mn mx a : R) :
  0 < mn < mx ->
  PowerLaw._log_cdf (PowerLaw.__init__ (Fin mn) (Fin mx) (Fin a)) [Fin mx] =
  [Fin 0].
Proof.
  intros Hb. unfold PowerLaw._log_cdf, PowerLaw.__init__.
  cbn [PowerLaw.alpha PowerLaw.norm_fact PowerLaw.minpl PowerLaw.minval].
  destruct (Req_EM_T a (-1)) as [->|Ha].
  - replace (feq (Fin (-1)) (Fin (-1))) with true by (simpl; fcmp).
    cbn [map]. f_equal. rewrite <- flog_1. f_equal.
    rewrite PL_normfact_log by lra.
    assert (1 < mx / mn).
    { apply Rmult_lt_reg_r with mn; [lra|]. field_simplify; lra. }
    assert (0 < ln (mx / mn)) by (rewrite <- ln_1; apply ln_increasing; lra).
    replace (flog (fdiv (Fin mx) (Fin mn))) with (Fin (ln (mx / mn))).
    + apply fdiv_self. lra.
    + cbn [fdiv]. destruct (Req_EM_T mn 0); [lra|].
      cbn [flog]. destruct (Rlt_dec 0 (mx / mn)); [reflexivity|lra].
  - replace (feq (Fin a) (Fin (-1))) with false by (simpl; fcmp).
    cbn [map]. f_equal. rewrite <- flog_1. f_equal.
    rewrite PL_normfact_general by lra.
    cbn [fadd]. rewrite !fpower_pos by lra.
    assert (Rpower mx (a + 1) <> Rpower mn (a + 1)).
    { intros E. apply Rpower_base_inj in E; lra. }
    replace (fdiv (fsub (Fin (Rpower mx (a + 1))) (Fin (Rpower mn (a + 1))))
               (Fin (a + 1)))
      with (Fin ((Rpower mx (a + 1) - Rpower mn (a + 1)) / (a + 1))).
    + apply fdiv_self. intros E.
      apply (f_equal (fun z => z * (a + 1))) in E.
      field_simplify in E; lra.
    + simpl. destruct (Req_EM_T (a + 1) 0); [lra|]. reflexivity.
Qed.

Lemma PowerLaw_log_cdf_kernel_one (self : PowerLaw.t) (x : float) :
  exists k, PowerLaw._log_cdf self [x] = [k].
Proof.
  unfold PowerLaw._log_cdf. destruct (feq _ _); simpl; eauto.
Qed.

Lemma PowerLaw_cdf_top (mn mx a M : R) :
  0 < mn < mx -> mx <= M ->
  basic_1dimpdf.cdf (PowerLaw.as_pdf (PowerLaw.__init__ (Fin mn) (Fin mx) (Fin a)))
    [Fin M] = Some [Fin 1].
Proof.
  intros Hb HM. unfold basic_1dimpdf.cdf.
  destruct (PowerLaw_log_cdf_kernel_one
              (PowerLaw.__init__ (Fin mn) (Fin mx) (Fin a)) (Fin M)) as [k Ek].
  rewrite (log_cdf_singleton _ _ k)
    by (cbn [PowerLaw.as_pdf basic_1dimpdf._log_cdf]; rewrite Ek; reflexivity).
  cbn [PowerLaw.as_pdf PowerLaw.__init__ basic_1dimpdf.minval
       basic_1dimpdf.maxval PowerLaw.minval PowerLaw.maxval bind map].
  destruct (Rlt_dec mx M) as [Hgt|Hngt].
  - replace (fgt (Fin M) (Fin mx)) with true
      by (symmetry; apply Rltb_true; assumption).
    rewrite fexp_0. reflexivity.
  - assert (M = mx) as -> by lra.
    replace (fgt (Fin mx) (Fin mx)) with false
      by (symmetry; apply Rltb_false; lra).
    replace (flt (Fin mx) (Fin mn)) with false
      by (symmetry; apply Rltb_false; lra).
    rewrite PowerLaw_log_cdf_kernel_top in Ek by assumption.
    injection Ek as <-. rewrite fexp_0. reflexivity.
Qed.

Lemma gaussian_norm_value `{Backend} (lo hi mu sg : R) :
  0 < sg ->
  get_gaussian_norm (Fin lo) (Fin hi) (Fin mu) (Fin sg) =
  Fin (1 / 2 * erf ((hi - mu) / (sg * sqrt 2))
       - 1 / 2 * erf ((lo - mu) / (sg * sqrt 2))).
Proof.
  intros Hsg. unfold get_gaussian_norm.
  assert (0 < sqrt 2) by (apply sqrt_lt_R0; lra).
  assert (sg * sqrt 2 <> 0) by (apply Rgt_not_eq, Rmult_lt_0_compat; lra).
  simpl. destruct (Rlt_dec 2 0); [lra|]. simpl.
  destruct (Req_EM_T (sg * sqrt 2) 0); [contradiction|]. reflexivity.
Qed.

Lemma TruncatedGaussian_log_cdf_kernel_top `{Backend} (mu sg lo hi : R) :
  (forall x y, x < y -> erf x < erf y) ->
  0 < sg -> lo < hi ->
  TruncatedGaussian._log_cdf
    (TruncatedGaussian.__init__ (Fin mu) (Fin sg) (Fin lo) (Fin hi))
    [Fin hi] = [Fin 0].
Proof.
  intros Herf Hsg Hb.
  unfold TruncatedGaussian._log_cdf, TruncatedGaussian.__init__.
  cbn [TruncatedGaussian.meang TruncatedGaussian.sigmag
       TruncatedGaussian.ming TruncatedGaussian.norm_fact map].
  f_equal. rewrite <- flog_1. f_equal.
  change (fdiv (get_gaussian_norm (Fin lo) (Fin hi) (Fin mu) (Fin sg))
               (get_gaussian_norm (Fin lo) (Fin hi) (Fin mu) (Fin sg))
          = Fin 1).
  rewrite gaussian_norm_value by assumption.
  apply fdiv_self.
  assert (0 < sqrt 2) by (apply sqrt_lt_R0; lra).
  assert (erf ((lo - mu) / (sg * sqrt 2)) < erf ((hi - mu) / (sg * sqrt 2))).
  { apply Herf. apply Rmult_lt_compat_r; [|lra].
    apply Rinv_0_lt_compat, Rmult_lt_0_compat; lra. }
  lra.
Qed.

Lemma TruncatedGaussian_cdf_top `{Backend} (mu sg lo hi M : R) :
  (forall x y, x < y -> erf x < erf y) ->
  0 < sg -> lo < hi -> hi <= M ->
  basic_1dimpdf.cdf
    (TruncatedGaussian.as_pdf
       (TruncatedGaussian.__init__ (Fin mu) (Fin sg) (Fin lo) (Fin hi)))
    [Fin M] = Some [Fin 1].
Proof.
  intros Herf Hsg Hb HM. unfold basic_1dimpdf.cdf.
  destruct (Rlt_dec hi M) as [Hgt|Hngt].
  - erewrite log_cdf_singleton by reflexivity.
    cbn [TruncatedGaussian.as_pdf TruncatedGaussian.__init__
         basic_1dimpdf.minval basic_1dimpdf.maxval TruncatedGaussian.minval
         TruncatedGaussian.maxval bind map].
    replace (fgt (Fin M) (Fin hi)) with true
      by (symmetry; apply Rltb_true; assumption).
    rewrite fexp_0. reflexivity.
  - assert (M = hi) as -> by lra.
    rewrite (log_cdf_singleton _ _ (Fin 0))
      by (cbn [TruncatedGaussian.as_pdf basic_1dimpdf._log_cdf];
          rewrite TruncatedGaussian_log_cdf_kernel_top by assumption;
          reflexivity).
    cbn [TruncatedGaussian.as_pdf TruncatedGaussian.__init__
         basic_1dimpdf.minval basic_1dimpdf.maxval TruncatedGaussian.minval
         TruncatedGaussian.maxval bind map].
    replace (fgt (Fin hi) (Fin hi)) with false
      by (symmetry; apply Rltb_false; lra).
    replace (flt (Fin hi) (Fin lo)) with false
      by (symmetry; apply Rltb_false; lra).
    rewrite fexp_0. reflexivity.
Qed.

Lemma fmax_Fin (a b : R) : fmax (Fin a) (Fin b) = Fin (Rmax a b).
Proof.
  unfold fmax, Rmax. simpl. unfold Rltb.
  destruct (Rlt_dec a b), (Rle_dec a b); try reflexivity; try lra.
  f_equal. lra.
Qed.

Lemma fmin_Fin (a b : R) : fmin (Fin a) (Fin b) = Fin (Rmin a b).
Proof.
  unfold fmin, Rmin. simpl. unfold Rltb.
  destruct (Rlt_dec b a), (Rle_dec a b); try reflexivity; try lra.
Qed.

Lemma combine_map_map {A B A' B'} (f : A -> A') (g : B -> B')
  (a : list A) (b : list B) :
  combine (map f a) (map g b) =
  map (fun p => (f (fst p), g (snd p))) (combine a b).
Proof.
  revert b. induction a as [|a0 a IH]; intros [|b0 b]; simpl;
    try reflexivity. rewrite IH. reflexivity.
Qed.

Lemma cdf_length (d : basic_1dimpdf.t) (x y : array) :
  basic_1dimpdf.cdf d x = Some y -> length y = length x.
Proof.
  unfold basic_1dimpdf.cdf.
  destruct (basic_1dimpdf.log_cdf d x) as [k|] eqn:E; [simpl|discriminate].
  intros [= <-]. rewrite length_map. eapply log_cdf_length; eassumption.
Qed.

(** C6.  For a mixture with weight [0 < lambda < 1], a power law on
    [0 < minpl < maxpl] and a Gaussian with [sigma > 0] on [ming < maxg] (all
    finite, [erf] increasing): the log-cumulative kernel is the logarithm of
    [(1-lambda) * PL.cdf(x) + lambda * TG.cdf(x)]; the log-density kernel is
    [log (exp (log (1-lambda) + PL.log_pdf(x)) + exp (log lambda +
    TG.log_pdf(x)))]; the upper bound is the larger of [maxpl] and [maxg],
    and the cumulative there is 1. *)
Theorem C6_PowerLawGaussian `{Backend} (mn mx a l mu sg lo hi : R) :
  (forall x y, x < y -> erf x < erf y) ->
  0 < mn < mx -> 0 < l < 1 -> 0 < sg -> lo < hi ->
  let d := PowerLawGaussian.__init__ (Fin mn) (Fin mx) (Fin a) (Fin l)
             (Fin mu) (Fin sg) (Fin lo) (Fin hi) in
  let PL := PowerLaw.as_pdf (PowerLawGaussian.PL d) in
  let TG := TruncatedGaussian.as_pdf (PowerLawGaussian.TG d) in
  (forall x pl tg,
     basic_1dimpdf.cdf PL x = Some pl -> basic_1dimpdf.cdf TG x = Some tg ->
     PowerLawGaussian._log_cdf d x =
     Some (map (fun p => flog (fadd (fmul (Fin (1 - l)) (fst p))
                                    (fmul (Fin l) (snd p))))
             (combine pl tg))) /\
  (forall x pl tg,
     basic_1dimpdf.log_pdf PL x = Some pl ->
     basic_1dimpdf.log_pdf TG x = Some tg ->
     PowerLawGaussian._log_pdf d x =
     Some (map (fun p => flog (fadd (fexp (fadd (Fin (ln (1 - l))) (fst p)))
                                    (fexp (fadd (Fin (ln l)) (snd p)))))
             (combine pl tg))) /\
  PowerLawGaussian.maxval d = Fin (Rmax mx hi) /\
  basic_1dimpdf.cdf (PowerLawGaussian.as_pdf d) [PowerLawGaussian.maxval d] =
  Some [Fin 1].
Proof.
  intros Herf Hpl Hl Hsg Hg d PL TG.
  assert (Hcdf : forall x pl tg,
     basic_1dimpdf.cdf PL x = Some pl -> basic_1dimpdf.cdf TG x = Some tg ->
     PowerLawGaussian._log_cdf d x =
     Some (map (fun p => flog (fadd (fmul (Fin (1 - l)) (fst p))
                                    (fmul (Fin l) (snd p))))
             (combine pl tg))).
  { intros x pl tg Hp Ht. unfold PowerLawGaussian._log_cdf.
    fold PL TG. rewrite Hp, Ht. cbn [bind].
    apply cdf_length in Hp, Ht.
    rewrite broadcast2_same_length by (rewrite !length_map; congruence).
    cbn [bind]. rewrite combine_map_map, !map_map. reflexivity. }
  split; [exact Hcdf|]. split; [|split].
  - intros x pl tg Hp Ht. unfold PowerLawGaussian._log_pdf.
    fold PL TG. rewrite Hp, Ht. cbn [bind].
    apply log_pdf_length in Hp, Ht.
    rewrite broadcast2_same_length by (rewrite !length_map; congruence).
    rewrite combine_map_map, !map_map. f_equal.
    apply map_ext. intros [u v]. unfold flogaddexp. cbn [fst snd].
    replace (flog1p (fneg (PowerLawGaussian.lambdag d)))
      with (Fin (ln (1 - l))).
    replace (flog (PowerLawGaussian.lambdag d)) with (Fin (ln l)).
    + reflexivity.
    + simpl. destruct (Rlt_dec 0 l); [reflexivity|lra].
    + unfold flog1p. simpl. destruct (Rlt_dec 0 (1 + - l)); [reflexivity|lra].
  - apply fmax_Fin.
  - assert (EM : PowerLawGaussian.maxval d = Fin (Rmax mx hi))
      by apply fmax_Fin.
    rewrite EM. unfold basic_1dimpdf.cdf.
    rewrite (log_cdf_singleton _ _ (Fin 0)).
    + cbn [PowerLawGaussian.as_pdf basic_1dimpdf.minval basic_1dimpdf.maxval].
      rewrite EM.
      replace (PowerLawGaussian.minval d) with (Fin (Rmin mn lo))
        by (symmetry; apply fmin_Fin).
      replace (fgt (Fin (Rmax mx hi)) (Fin (Rmax mx hi))) with false
        by (symmetry; apply Rltb_false; lra).
      replace (flt (Fin (Rmax mx hi)) (Fin (Rmin mn lo))) with false.
      * cbn [bind map]. rewrite fexp_0. reflexivity.
      * symmetry; apply Rltb_false.
        pose proof (Rmax_l mx hi). pose proof (Rmin_l mn lo). lra.
    + cbn [PowerLawGaussian.as_pdf basic_1dimpdf._log_cdf].
      rewrite (Hcdf _ [Fin 1] [Fin 1]).
      * cbn [combine map fst snd]. do 2 f_equal. rewrite <- flog_1.
        f_equal. simpl. f_equal. lra.
      * apply PowerLaw_cdf_top; [assumption|apply Rmax_l].
      * apply TruncatedGaussian_cdf_top; try assumption. apply Rmax_r.
Qed.

(** ** Sums and grids of finite values *)

Lemma fold_fadd_Fin (l : list R) (acc : R) :
  fold_left fadd (map Fin l) (Fin acc) = Fin (fold_left Rplus l acc).
Proof.
  revert acc. induction l as [|x l IH]; intros acc; simpl; [reflexivity|].
  apply IH.
Qed.

Lemma fsum_Fin (l : list R) : fsum (map Fin l) = Fin (Rsum l).
Proof. apply fold_fadd_Fin. Qed.

Lemma fold_Rplus_acc (l : list R) (acc : R) :
  fold_left Rplus l acc = acc + fold_left Rplus l 0.
Proof.
  revert acc. induction l as [|x l IH]; intros acc; simpl; [lra|].
  rewrite IH, (IH (0 + x)). lra.
Qed.

Lemma Rsum_cons (x : R) (l : list R) : Rsum (x :: l) = x + Rsum l.
Proof. unfold Rsum. simpl. rewrite fold_Rplus_acc. lra. Qed.

Lemma Rsum_app (l l' : list R) : Rsum (l ++ l') = Rsum l + Rsum l'.
Proof.
  induction l as [|x l IH]; simpl.
  - unfold Rsum at 2. simpl. lra.
  - rewrite !Rsum_cons, IH. lra.
Qed.

Lemma linspace_length (a b : float) (n : nat) : length (linspace a b n) = n.
Proof.
  destruct n as [|[|m]]; simpl; try reflexivity.
  rewrite length_app, length_map, length_seq. simpl. lia.
Qed.

Lemma linspace_last (a b : float) (n : nat) :
  (2 <= n)%nat -> nth_error (linspace a b n) (n - 1) = Some b.
Proof.
  destruct n as [|[|m]]; try lia. intros _.
  unfold linspace. rewrite nth_error_app2; rewrite length_map, length_seq.
  - replace (S (S m) - 1 - S m)%nat with 0%nat by lia. reflexivity.
  - lia.
Qed.

Lemma linspace_nth (a b : R) (n i : nat) :
  (2 <= n)%nat -> (i < n - 1)%nat ->
  nth_error (linspace (Fin a) (Fin b) n) i =
  Some (Fin (a + INR i * ((b - a) / INR (n - 1)))).
Proof.
  destruct n as [|[|m]]; try lia. intros _ Hi.
  unfold linspace. rewrite nth_error_app1 by (rewrite length_map, length_seq; lia).
  rewrite nth_error_map, nth_error_seq.
  replace (i <? S m)%nat with true by (symmetry; apply Nat.ltb_lt; lia).
  cbn [option_map Nat.add]. f_equal.
  replace (S (S m) - 1)%nat with (S m) by lia.
  unfold INRf. cbn [fsub fneg fadd fdiv].
  destruct (Req_EM_T (INR (S m)) 0) as [E|_].
  - exfalso. revert E. apply not_0_INR. lia.
  - reflexivity.
Qed.

(** ** The binned one-dimensional distribution *)

Lemma for_range_map {A} (f : nat -> option A) (g : nat -> A) (range : list nat) :
  (forall i, In i range -> f i = Some (g i)) ->
  for_range f range = Some (map g range).
Proof.
  induction range as [|i r IH]; intros Hf; simpl; [reflexivity|].
  rewrite (Hf i) by (left; reflexivity). simpl.
  rewrite IH by (intros; apply Hf; right; assumption). reflexivity.
Qed.

Lemma piecewise_loop_last (x v : float) :
  forall (cs : list (list bool)) (vs : array) (y : array),
    length cs = length vs ->
    Forall (fun c => length c = 1%nat) cs ->
    length y = 1%nat ->
    piecewise_loop [x] (cs ++ [[true]]) (map Const (vs ++ [v])) y = Some [v].
Proof.
  induction cs as [|c cs IH]; intros [|v0 vs] y L Hc Ly; try discriminate.
  - destruct y as [|y0 [|]]; try discriminate. reflexivity.
  - inversion Hc as [|? ? Hc1 Hcs]; subst. simpl.
    destruct (mask_assign_total c v0 y) as [y' Ey]; [congruence|].
    rewrite Ey. simpl. apply IH; [simpl in L; lia|assumption|].
    apply mask_assign_length in Ey. lia.
Qed.

Lemma pcdn_init (a b : R) (ws : list R) :
  a <> b -> Rsum ws <> 0 ->
  exists d nr,
    piecewise_constant_distribution_normalized.__init__ (Fin a) (Fin b)
      (map Fin ws) = Some d /\
    piecewise_constant_distribution_normalized.n_bins d = length ws /\
    piecewise_constant_distribution_normalized.bins_with_boundaries d =
    (NInf :: linspace (Fin a) (Fin b) (length ws + 1)) ++ [PInf] /\
    piecewise_constant_distribution_normalized.weights_with_boundaries_normalized d =
    map (fmul (Fin nr)) ([Fin 0] ++ map Fin ws ++ [Fin 0]).
Proof.
  intros Hab Hs.
  assert (Hn : (1 <= length ws)%nat).
  { destruct ws; [exfalso; apply Hs; reflexivity|simpl; lia]. }
  unfold piecewise_constant_distribution_normalized.__init__.
  rewrite length_map.
  set (n := length ws) in *.
  assert (H0 : nth_error (linspace (Fin a) (Fin b) (n + 1)) 0 =
               Some (Fin (a + INR 0 * ((b - a) / INR (n + 1 - 1))))).
  { apply linspace_nth; lia. }
  assert (H1 : exists x1, nth_error (linspace (Fin a) (Fin b) (n + 1)) 1 =
                          Some (Fin x1) /\
                          x1 - (a + INR 0 * ((b - a) / INR (n + 1 - 1))) <> 0).
  { assert (INR (n + 1 - 1) <> 0) by (apply not_0_INR; lia).
    destruct (Nat.eq_dec n 1) as [E|E].
    - exists b. split.
      + rewrite E. reflexivity.
      + simpl. lra.
    - eexists. split; [apply linspace_nth; lia|].
      simpl. intros E'. apply Hab.
      assert (Z : (b - a) / INR (n + 1 - 1) = 0) by lra.
      apply (f_equal (fun z => z * INR (n + 1 - 1))) in Z.
      field_simplify in Z; lra. }
  destruct H1 as [x1 [H1 Hd]].
  rewrite H0, H1. cbn [bind]. rewrite fsum_Fin.
  cbn [fsub fneg fadd]. cbn [fdiv].
  destruct (Req_EM_T (Rsum ws) 0); [contradiction|]. cbn [fmul fdiv].
  destruct (Req_EM_T _ 0) as [E|_]; [exfalso; apply Hd; unfold Rminus; exact E|].
  eexists. eexists. split; [reflexivity|].
  cbn. repeat split.
Qed.

Lemma pcdn_pdf_at_dist_max (a b : R) (ws : list R)
  (d : piecewise_constant_distribution_normalized.t) (nr : R) :
  piecewise_constant_distribution_normalized.n_bins d = length ws ->
  piecewise_constant_distribution_normalized.bins_with_boundaries d =
    (NInf :: linspace (Fin a) (Fin b) (length ws + 1)) ++ [PInf] ->
  piecewise_constant_distribution_normalized.weights_with_boundaries_normalized d =
    map (fmul (Fin nr)) ([Fin 0] ++ map Fin ws ++ [Fin 0]) ->
  (1 <= length ws)%nat ->
  piecewise_constant_distribution_normalized.pdf d [Fin b] = Some [Fin 0].
Proof.
  intros Hn Hb Hw Hlen.
  unfold piecewise_constant_distribution_normalized.pdf,
    piecewise_constant_distribution_normalized.get_conditions.
  rewrite Hn, Hb, Hw. set (n := length ws) in *.
  set (bwb := (NInf :: linspace (Fin a) (Fin b) (n + 1)) ++ [PInf]).
  assert (Lb : length bwb = (n + 3)%nat).
  { unfold bwb. rewrite length_app. simpl. rewrite linspace_length. lia. }
  rewrite (for_range_map _
             (fun i => [fle (nth i bwb NaN) (Fin b)
                        && flt (Fin b) (nth (i + 1) bwb NaN)])).
  2:{ intros i Hi. apply in_seq in Hi.
      rewrite (nth_error_nth' bwb NaN) by lia.
      rewrite (nth_error_nth' bwb NaN) by lia. reflexivity. }
  cbn [bind].
  replace (n + 2)%nat with ((n + 1) + 1)%nat by lia.
  rewrite seq_app, map_app. cbn [seq map Nat.add].
  assert (Elast : [fle (nth (n + 1) bwb NaN) (Fin b)
                   && flt (Fin b) (nth (n + 1 + 1) bwb NaN)] = [true]).
  { assert (E1 : nth_error bwb (n + 1) = Some (Fin b)).
    { unfold bwb. rewrite nth_error_app1
        by (simpl; rewrite linspace_length; lia).
      replace (n + 1)%nat with (S n) by lia. cbn [nth_error].
      replace n with (S n - 1)%nat at 2 by lia.
      apply linspace_last. lia. }
    assert (E2 : nth_error bwb (n + 1 + 1) = Some PInf).
    { unfold bwb. rewrite nth_error_app2
        by (simpl; rewrite linspace_length; lia).
      simpl. rewrite linspace_length.
      replace (n + 1 + 1 - S (n + 1))%nat with 0%nat by lia. reflexivity. }
    rewrite (nth_error_nth _ _ NaN E1), (nth_error_nth _ _ NaN E2).
    simpl. unfold Rleb. destruct (Rle_dec b b); [reflexivity|lra]. }
  rewrite Elast.
  replace ([Fin 0] ++ map Fin ws ++ [Fin 0])
    with (([Fin 0] ++ map Fin ws) ++ [Fin 0]) by (rewrite <- app_assoc; reflexivity).
  rewrite map_app. cbn [map].
  unfold piecewise. rewrite !length_map, !length_app, !length_map, length_seq.
  cbn [length].
  replace (Nat.eqb (n + 1 + 1) (length ([Fin 0] ++ map Fin ws) + 1 - 1)
           && negb (Nat.eqb (length ([Fin 0] ++ map Fin ws) + 1) 0)) with false.
  2:{ symmetry. apply andb_false_iff. left. apply Nat.eqb_neq.
      rewrite length_app, length_map. simpl. fold n. lia. }
  replace (Nat.eqb (n + 1 + 1) (length ([Fin 0] ++ map Fin ws) + 1)) with true.
  2:{ symmetry. apply Nat.eqb_eq. rewrite length_app, length_map. simpl.
      fold n. lia. }
  replace (fmul (Fin nr) (Fin 0)) with (Fin 0) by (simpl; f_equal; lra).
  apply piecewise_loop_last.
  - rewrite !length_map, length_seq, length_app, length_map. simpl.
    fold n. lia.
  - apply Forall_forall. intros c Hc. apply in_map_iff in Hc.
    destruct Hc as [i [<- _]]. reflexivity.
  - reflexivity.
Qed.

(** C10.  For a [BinModel1d] over finite [dist_min < dist_max] with finite
    weights whose sum is not zero: at [x = dist_max] the binned density is 0,
    the kernel [_log_pdf] itself is minus infinity while the clamp of the
    base class leaves that place alone, and so [log_pdf] is minus infinity
    and [pdf] is 0. *)
Theorem C10_BinModel1d_at_dist_max (a b : R) (ws : list R) :
  a < b -> Rsum ws <> 0 ->
  exists m,
    BinModel1d.__init__ (Fin a) (Fin b) (map Fin ws) = Some m /\
    piecewise_constant_distribution_normalized.pdf
      (BinModel1d.distribution m) [Fin b] = Some [Fin 0] /\
    BinModel1d._log_pdf m [Fin b] = Some [NInf] /\
    flt (Fin b) (basic_1dimpdf.minval (BinModel1d.as_pdf m))
    || fgt (Fin b) (basic_1dimpdf.maxval (BinModel1d.as_pdf m)) = false /\
    basic_1dimpdf.log_pdf (BinModel1d.as_pdf m) [Fin b] = Some [NInf] /\
    basic_1dimpdf.pdf (BinModel1d.as_pdf m) [Fin b] = Some [Fin 0].
Proof.
  intros Hab Hs.
  assert (Hn : (1 <= length ws)%nat).
  { destruct ws; [exfalso; apply Hs; reflexivity|simpl; lia]. }
  destruct (pcdn_init a b ws) as [d [nr [Hd [Hnb [Hbw Hwn]]]]];
    [lra|assumption|].
  pose proof (pcdn_pdf_at_dist_max a b ws d nr Hnb Hbw Hwn Hn) as Hpdf.
  unfold BinModel1d.__init__. rewrite Hd. cbn [bind].
  set (m := BinModel1d.mk (Fin a) (Fin b) (Fin a) (Fin b) (map Fin ws) d).
  exists m. split; [reflexivity|].
  assert (Hk : BinModel1d._log_pdf m [Fin b] = Some [NInf]).
  { unfold BinModel1d._log_pdf. cbn [BinModel1d.distribution m].
    rewrite Hpdf. cbn [bind map]. do 2 f_equal.
    simpl. destruct (Rlt_dec 0 0); [lra|reflexivity]. }
  assert (Hm : flt (Fin b) (basic_1dimpdf.minval (BinModel1d.as_pdf m))
               || fgt (Fin b) (basic_1dimpdf.maxval (BinModel1d.as_pdf m))
               = false).
  { apply orb_false_iff. split; apply Rltb_false; simpl; lra. }
  assert (Hl : basic_1dimpdf.log_pdf (BinModel1d.as_pdf m) [Fin b] =
               Some [NInf]).
  { rewrite (log_pdf_singleton _ _ NInf) by exact Hk.
    rewrite Hm. reflexivity. }
  repeat split; try assumption.
  unfold basic_1dimpdf.pdf. rewrite Hl. reflexivity.
Qed.

(** ** The spline construction *)

Lemma set_nth_spec (a : array) (i : nat) (v : float) :
  (i < length a)%nat ->
  exists a', set_nth a i v = Some a' /\ length a' = length a /\
             nth_error a' i = Some v /\
             forall j, j <> i -> nth_error a' j = nth_error a j.
Proof.
  revert i. induction a as [|x a IH]; intros i Hi; simpl in Hi; [lia|].
  destruct i as [|i].
  - exists (v :: a). repeat split. intros [|j] Hj; [lia|reflexivity].
  - destruct (IH i) as [a' [E [L [Hv Ho]]]]; [lia|].
    exists (x :: a'). simpl. rewrite E. simpl. repeat split.
    + congruence.
    + exact Hv.
    + intros [|j] Hj; [reflexivity|]. simpl. apply Ho. lia.
Qed.

Lemma Rsum_firstn_S (l : list R) (k : nat) (t : R) :
  nth_error l k = Some t ->
  Rsum (firstn (S k) l) = Rsum (firstn k l) + t.
Proof.
  revert k. induction l as [|x l IH]; intros [|k]; simpl; try discriminate.
  - intros [= ->]. rewrite Rsum_cons. unfold Rsum. simpl. lra.
  - intros E. rewrite !Rsum_cons. fold (firstn (S k) l).
    change (x + Rsum (firstn (S k) l) = x + Rsum (firstn k l) + t).
    rewrite (IH k E). lra.
Qed.

Lemma integrate_spec (dx x0 : R) (ts : list R) (n : nat) :
  length ts = n ->
  forall (m k : nat) (y : array),
    length y = n -> (k + m < n)%nat ->
    (forall j, (j <= k)%nat ->
       nth_error y j = Some (Fin (x0 + dx * Rsum (firstn j ts)))) ->
    exists y',
      SplineWrapper.integrate (Fin dx) (map Fin ts) (seq (S k) m) y = Some y' /\
      length y' = n /\
      forall j, (j <= k + m)%nat ->
        nth_error y' j = Some (Fin (x0 + dx * Rsum (firstn j ts))).
Proof.
  intros Lt. induction m as [|m IH]; intros k y Ly Hk Hinv.
  - exists y. simpl. repeat split; [assumption|].
    intros j Hj. apply Hinv. lia.
  - cbn [seq SplineWrapper.integrate].
    replace (S k - 1)%nat with k by lia.
    rewrite (Hinv k) by lia. cbn [bind].
    destruct (nth_error ts k) as [t|] eqn:Et.
    2:{ apply nth_error_None in Et. lia. }
    rewrite (nth_error_map_some Fin _ _ _ Et). cbn [bind fmul fadd].
    destruct (set_nth_spec y (S k)
                (Fin (x0 + dx * Rsum (firstn k ts) + dx * t)))
      as [y1 [E1 [L1 [Hv Ho]]]]; [lia|].
    rewrite E1. cbn [bind].
    destruct (IH (S k) y1) as [y' [E' [L' H']]]; [lia|lia| |].
    + intros j Hj. destruct (Nat.eq_dec j (S k)) as [->|Hne].
      * rewrite Hv. do 2 f_equal. rewrite (Rsum_firstn_S _ _ _ Et). lra.
      * rewrite Ho by assumption. apply Hinv. lia.
    + exists y'. repeat split; [assumption|assumption|].
      intros j Hj. apply H'. lia.
Qed.

Lemma Rsum_map_div (c : R) (l : list R) :
  Rsum (map (fun a => a / c) l) = Rsum l / c.
Proof.
  induction l as [|x l IH]; simpl.
  - unfold Rsum. simpl. lra.
  - rewrite !Rsum_cons, IH. lra.
Qed.

Lemma forallb_isfinite_map_Fin (l : list R) :
  forallb isfinite (map Fin l) = true.
Proof. induction l as [|x l IH]; [reflexivity|exact IH]. Qed.

Lemma forallb_isfinite_nth (l : array) :
  (forall j, (j < length l)%nat -> exists v, nth_error l j = Some (Fin v)) ->
  forallb isfinite l = true.
Proof.
  induction l as [|x l IH]; intros H; [reflexivity|].
  destruct (H 0%nat) as [v Hv]; [simpl; lia|].
  simpl in Hv. injection Hv as ->. cbn [forallb isfinite andb].
  apply IH. intros j Hj. apply (H (S j)). simpl. lia.
Qed.

Lemma diff_positive_nth (x : array) :
  (forall i, (S i < length x)%nat ->
     exists a b, nth_error x i = Some (Fin a) /\
                 nth_error x (S i) = Some (Fin b) /\ a < b) ->
  existsb (fun d => fle d (Fin 0)) (diff x) = false.
Proof.
  induction x as [|a x IH]; intros H; [reflexivity|].
  destruct x as [|b r]; [reflexivity|].
  destruct (H 0%nat) as [u [v [Hu [Hv Huv]]]]; [simpl; lia|].
  simpl in Hu, Hv. injection Hu as ->. injection Hv as ->.
  cbn [diff existsb fsub fneg fadd fle]. unfold Rleb.
  destruct (Rle_dec (v + - u) 0) as [Hle|_]; [lra|]. cbn [orb].
  apply IH. intros i Hi. apply (H (S i)). simpl in Hi |- *. lia.
Qed.

Lemma linspace_nodes (a b : R) (n : nat) :
  (2 <= n)%nat -> a < b ->
  (forall j, (j < n)%nat ->
     exists v, nth_error (linspace (Fin a) (Fin b) n) j = Some (Fin v)) /\
  (forall i, (S i < n)%nat ->
     exists u v, nth_error (linspace (Fin a) (Fin b) n) i = Some (Fin u) /\
                 nth_error (linspace (Fin a) (Fin b) n) (S i) = Some (Fin v) /\
                 u < v).
Proof.
  intros Hn Hab.
  assert (Hn1 : 0 < INR (n - 1)) by (apply lt_0_INR; lia).
  assert (Hstep : 0 < (b - a) / INR (n - 1)).
  { apply Rdiv_lt_0_compat; lra. }
  assert (Hend : a + INR (n - 1) * ((b - a) / INR (n - 1)) = b).
  { field. lra. }
  split.
  - intros j Hj. destruct (Nat.eq_dec j (n - 1)) as [->|Hne].
    + exists b. apply linspace_last. exact Hn.
    + eexists. apply linspace_nth; lia.
  - intros i Hi. destruct (Nat.eq_dec (S i) (n - 1)) as [E|Hne].
    + eexists. exists b. split; [apply linspace_nth; lia|].
      rewrite E. split; [apply linspace_last; exact Hn|].
      assert (INR i < INR (n - 1)) by (apply lt_INR; lia).
      rewrite <- Hend at 2. apply Rplus_lt_compat_l.
      apply Rmult_lt_compat_r; assumption.
    + eexists. eexists. split; [apply linspace_nth; lia|].
      split; [apply linspace_nth; lia|].
      rewrite S_INR. lra.
Qed.

(** The spline that the constructor builds from finite slopes whose offset
    sum is not zero, on a range of positive half-width: its grid, spacing,
    tangents and values. *)
Lemma spline_nodes (ss : list R) (xr : R) :
  let n := length ss in
  let T := Rsum (map (fun s => s + 1 / 2) ss) in
  let tangents := map (fun s => (s + 1 / 2) / (T / INR n)) ss in
  let dx := 2 * xr / INR (n - 1) in
  let mid := ((n - 1) / 2)%nat in
  (2 <= n)%nat -> T <> 0 -> 0 < xr ->
  exists w,
    SplineWrapper.__init__ (map Fin ss) (Fin xr) = Some w /\
    SplineWrapper.x_points (SplineWrapper.the_spline w) =
    linspace (Fin (- xr)) (Fin xr) n /\
    SplineWrapper.delta_x (SplineWrapper.the_spline w) = Fin dx /\
    SplineWrapper.dy_dx (SplineWrapper.the_spline w) = map Fin tangents /\
    length (SplineWrapper.y_points (SplineWrapper.the_spline w)) = n /\
    (forall j, (j < n)%nat ->
       nth_error (SplineWrapper.y_points (SplineWrapper.the_spline w)) j =
       Some (Fin (dx * Rsum (firstn j tangents)
                  - dx * Rsum (firstn mid tangents)))).
Proof.
  intros n T tangents dx mid Hn HT Hxr.
  assert (Hn0 : INR n <> 0) by (apply not_0_INR; lia).
  assert (Hn1 : INR (n - 1) <> 0) by (apply not_0_INR; lia).
  unfold SplineWrapper.__init__, SplineWrapper.generate_spline_from_slope_list.
  rewrite length_map. fold n. cbn [fneg].
  set (x0 := - xr + INR 0 * ((xr - - xr) / INR (n - 1))).
  assert (H0 : nth_error (linspace (Fin (- xr)) (Fin xr) n) 0 = Some (Fin x0))
    by (apply linspace_nth; lia).
  assert (H1 : exists x1, nth_error (linspace (Fin (- xr)) (Fin xr) n) 1 =
                          Some (Fin x1) /\ x1 - x0 = dx).
  { destruct (Nat.eq_dec n 2) as [E|E].
    - exists xr. split; [rewrite E; reflexivity|].
      unfold x0, dx. rewrite E. simpl. field.
    - eexists. split; [apply linspace_nth; lia|].
      unfold x0, dx. simpl. field. exact Hn1. }
  destruct H1 as [x1 [H1 Hdx]].
  rewrite H0, H1. cbn [bind fsub fneg fadd].
  replace (x1 + - x0) with dx by (rewrite <- Hdx; reflexivity).
  assert (Eoff : map (fun s => fadd s SplineWrapper.SPLINE_OFFSET_SLOPE)
                   (map Fin ss) = map Fin (map (fun s => s + 1 / 2) ss)).
  { rewrite !map_map. reflexivity. }
  rewrite Eoff, fsum_Fin. fold T. unfold INRf. cbn [fdiv].
  destruct (Req_EM_T (INR n) 0); [contradiction|].
  assert (HTn : T / INR n <> 0).
  { intros E. apply HT.
    apply (f_equal (fun z => z * INR n)) in E. field_simplify in E; lra. }
  assert (Etan : map (fun d => fdiv d (Fin (T / INR n)))
                   (map Fin (map (fun s => s + 1 / 2) ss)) = map Fin tangents).
  { unfold tangents. rewrite !map_map. apply map_ext. intros s.
    cbn [fdiv]. destruct (Req_EM_T (T / INR n) 0); [contradiction|].
    reflexivity. }
  rewrite Etan.
  assert (Lt : length tangents = n).
  { unfold tangents. rewrite length_map. reflexivity. }
  destruct (integrate_spec dx x0 tangents n Lt) with (m := (n - 1)%nat)
    (k := 0%nat) (y := linspace (Fin (- xr)) (Fin xr) n)
    as [y' [Ey [Ly Hy]]].
  { apply linspace_length. }
  { lia. }
  { intros j Hj. replace j with 0%nat by lia. rewrite H0.
    do 2 f_equal. unfold Rsum. simpl. lra. }
  rewrite Ey. cbn [bind].
  assert (Hmid : (mid < n)%nat).
  { unfold mid. apply Nat.le_lt_trans with (n - 1)%nat; [|lia].
    apply Nat.Div0.div_le_upper_bound. lia. }
  fold mid. rewrite (Hy mid) by lia. cbn [bind].
  set (y := map (fun y => fsub y (Fin (x0 + dx * Rsum (firstn mid tangents))))
              y').
  assert (Hyj : forall j, (j < n)%nat ->
    nth_error y j = Some (Fin (dx * Rsum (firstn j tangents)
                               - dx * Rsum (firstn mid tangents)))).
  { intros j Hj. unfold y.
    rewrite (nth_error_map_some _ _ _ _ (Hy j ltac:(lia))).
    cbn [fsub fneg fadd]. do 2 f_equal. lra. }
  assert (Lyn : length y = n) by (unfold y; rewrite length_map; exact Ly).
  assert (Hacc : CubicHermiteSpline_accepts (linspace (Fin (- xr)) (Fin xr) n)
                   y (map Fin tangents) = true).
  { destruct (linspace_nodes (- xr) xr n Hn ltac:(lra)) as [Hfin Hinc].
    unfold CubicHermiteSpline_accepts.
    rewrite linspace_length, Lyn, length_map, Lt, Nat.eqb_refl.
    replace (2 <=? n)%nat with true by (symmetry; apply Nat.leb_le; exact Hn).
    rewrite (forallb_isfinite_nth (linspace (Fin (- xr)) (Fin xr) n))
      by (rewrite linspace_length; exact Hfin).
    rewrite (forallb_isfinite_nth y)
      by (rewrite Lyn; intros j Hj; eexists; apply Hyj; exact Hj).
    rewrite forallb_isfinite_map_Fin.
    rewrite diff_positive_nth by (rewrite linspace_length; exact Hinc).
    reflexivity. }
  rewrite Hacc. cbn [bind].
  eexists. split; [reflexivity|].
  cbn [SplineWrapper.the_spline SplineWrapper.x_points SplineWrapper.delta_x
       SplineWrapper.dy_dx SplineWrapper.y_points].
  repeat split; try reflexivity; assumption.
Qed.

(** C7.  For [n >= 2] finite slopes whose offset sum [T = sum (slope_i +
    1/2)] is not zero and a finite [x_range > 0] (the spline constructor
    raises on a grid that does not increase), the construction returns and:
    the grid is the [n] equally spaced points on [[-x_range, x_range]] with
    spacing [delta_x = 2 x_range / (n-1)]; the tangent at point [i] is
    [(slope_i + 1/2) / (T/n)], and the tangents have mean 1; the value at
    point [j] is [delta_x] times the sum of the tangents before [j], shifted
    by the same sum at the middle index [(n-1)/2] (rounded down), so the
    middle value is 0. *)
Theorem C7_spline_construction (ss : list R) (xr : R) :
  let n := length ss in
  let T := Rsum (map (fun s => s + 1 / 2) ss) in
  let tangents := map (fun s => (s + 1 / 2) / (T / INR n)) ss in
  let dx := 2 * xr / INR (n - 1) in
  let mid := ((n - 1) / 2)%nat in
  (2 <= n)%nat -> T <> 0 -> 0 < xr ->
  exists w,
    SplineWrapper.__init__ (map Fin ss) (Fin xr) = Some w /\
    let sp := SplineWrapper.the_spline w in
    SplineWrapper.x_points sp = linspace (Fin (- xr)) (Fin xr) n /\
    SplineWrapper.delta_x sp = Fin dx /\
    SplineWrapper.dy_dx sp = map Fin tangents /\
    Rsum tangents / INR n = 1 /\
    (forall j, (j < n)%nat ->
       nth_error (SplineWrapper.y_points sp) j =
       Some (Fin (dx * Rsum (firstn j tangents)
                  - dx * Rsum (firstn mid tangents)))) /\
    nth_error (SplineWrapper.y_points sp) mid = Some (Fin 0).
Proof.
  intros n T tangents dx mid Hn HT Hxr.
  destruct (spline_nodes ss xr Hn HT Hxr) as [w [Hw [Hx [Hd [Ht [_ Hy]]]]]].
  fold n T in Hx, Hd, Ht, Hy. fold tangents in Ht, Hy. fold dx in Hd, Hy.
  fold mid in Hy.
  assert (Hn0 : INR n <> 0) by (apply not_0_INR; lia).
  assert (Hmid : (mid < n)%nat).
  { unfold mid. apply Nat.le_lt_trans with (n - 1)%nat; [|lia].
    apply Nat.Div0.div_le_upper_bound. lia. }
  exists w. split; [exact Hw|]. cbv zeta.
  split; [exact Hx|]. split; [exact Hd|]. split; [exact Ht|].
  split; [|split; [exact Hy|]].
  - unfold tangents.
    replace (map (fun s => (s + 1 / 2) / (T / INR n)) ss)
      with (map (fun a => a / (T / INR n)) (map (fun s => s + 1 / 2) ss))
      by (rewrite map_map; reflexivity).
    rewrite Rsum_map_div. fold T. field. split; assumption.
  - rewrite (Hy mid Hmid). do 2 f_equal. lra.
Qed.

(** ** The binned two-dimensional distribution *)

Lemma invert_triangular_spec (n N : nat) :
  (N * 2 = n * (n + 1))%nat -> P2.invert_triangular N = n.
Proof.
  intros E. unfold P2.invert_triangular.
  assert (E' : 2 * INR N = INR n * (INR n + 1)).
  { apply (f_equal INR) in E. rewrite !mult_INR, plus_INR in E.
    simpl in E. lra. }
  replace (1 / 4 + 2 * INR N) with ((INR n + 1 / 2) * (INR n + 1 / 2))
    by (rewrite E'; field).
  rewrite sqrt_square by (pose proof (pos_INR n); lra).
  replace (- (1 / 2) + (INR n + 1 / 2)) with (INR n) by lra.
  rewrite Int_part_INR. apply Nat2Z.id.
Qed.

Lemma triu_offset_S (n r : nat) :
  triu_offset n (S r) = (triu_offset n r + (n - r))%nat.
Proof. reflexivity. Qed.

Lemma triu_offset_mono (n r m : nat) :
  (triu_offset n r <= triu_offset n (r + m))%nat.
Proof.
  induction m as [|m IH]; [rewrite Nat.add_0_r; lia|].
  rewrite Nat.add_succ_r, triu_offset_S. lia.
Qed.

Lemma map_place_row (a r0 k : nat) :
  map (fun c => (a + (c - r0))%nat) (seq r0 k) = seq a k.
Proof.
  revert a r0. induction k as [|k IH]; intros a r0; simpl; [reflexivity|].
  f_equal; [lia|].
  rewrite <- (IH (S a) (S r0)). apply map_ext_in. intros c Hc.
  apply in_seq in Hc. lia.
Qed.

Lemma triu_rows_place (n : nat) :
  forall m r0, (r0 + m <= n)%nat ->
    map (fun rc : nat * nat => triu_place n (fst rc) (snd rc))
      (flat_map (fun r => map (fun c => (r, c)) (seq r (n - r))) (seq r0 m)) =
    seq (triu_offset n r0) (triu_offset n (r0 + m) - triu_offset n r0).
Proof.
  induction m as [|m IH]; intros r0 H.
  - rewrite Nat.add_0_r, Nat.sub_diag. reflexivity.
  - cbn [seq flat_map]. rewrite map_app, map_map. cbn [fst snd].
    unfold triu_place at 1. rewrite map_place_row.
    rewrite IH by lia.
    replace (r0 + S m)%nat with (S r0 + m)%nat by lia.
    pose proof (triu_offset_mono n (S r0) m) as Hm.
    rewrite triu_offset_S in *.
    replace (triu_offset n (S r0 + m) - triu_offset n r0)%nat
      with ((n - r0) + (triu_offset n (S r0 + m)
                        - (triu_offset n r0 + (n - r0))))%nat by lia.
    rewrite seq_app. reflexivity.
Qed.

Lemma triu_place_seq (n : nat) :
  map (fun rc : nat * nat => triu_place n (fst rc) (snd rc))
    (P2.triu_indices n) = seq 0 (triu_offset n n).
Proof.
  unfold P2.triu_indices. rewrite (triu_rows_place n n 0) by lia.
  simpl. rewrite Nat.sub_0_r. reflexivity.
Qed.

Lemma triu_length (n : nat) : length (P2.triu_indices n) = triu_offset n n.
Proof.
  rewrite <- (length_map (fun rc : nat * nat => triu_place n (fst rc) (snd rc))).
  rewrite triu_place_seq. apply length_seq.
Qed.

Lemma triu_NoDup (n : nat) : NoDup (P2.triu_indices n).
Proof.
  apply (NoDup_map_inv (fun rc : nat * nat => triu_place n (fst rc) (snd rc))).
  rewrite triu_place_seq. apply seq_NoDup.
Qed.

Lemma triu_In (n r c : nat) :
  In (r, c) (P2.triu_indices n) <-> (r <= c < n)%nat.
Proof.
  unfold P2.triu_indices. rewrite in_flat_map. split.
  - intros [r' [Hr Hc]]. apply in_map_iff in Hc.
    destruct Hc as [c' [[= <- <-] Hc]]. apply in_seq in Hr, Hc. lia.
  - intros H. exists r. split; [apply in_seq; lia|].
    apply in_map_iff. exists c. split; [reflexivity|apply in_seq; lia].
Qed.

Lemma triu_nth_place (n k r c : nat) :
  nth_error (P2.triu_indices n) k = Some (r, c) -> triu_place n r c = k.
Proof.
  intros E.
  pose proof (nth_error_map_some
                (fun rc : nat * nat => triu_place n (fst rc) (snd rc))
                _ _ _ E) as E'.
  rewrite triu_place_seq in E'. cbn [fst snd] in E'.
  assert (k < triu_offset n n)%nat.
  { rewrite <- triu_length. apply nth_error_Some. congruence. }
  rewrite nth_error_seq in E'.
  replace (k <? triu_offset n n)%nat with true in E'
    by (symmetry; apply Nat.ltb_lt; assumption).
  simpl in E'. congruence.
Qed.

Lemma triu_place_nth (n r c : nat) :
  (r <= c < n)%nat ->
  nth_error (P2.triu_indices n) (triu_place n r c) = Some (r, c).
Proof.
  intros H. apply triu_In in H. apply In_nth_error in H.
  destruct H as [k Hk]. rewrite (triu_nth_place _ _ _ _ Hk). exact Hk.
Qed.

Lemma triu_place_lt (n r c : nat) :
  (r <= c < n)%nat -> (triu_place n r c < triu_offset n n)%nat.
Proof.
  intros H. rewrite <- triu_length. apply nth_error_Some.
  rewrite triu_place_nth by assumption. discriminate.
Qed.

Lemma triu_offset_double (n r : nat) :
  (r <= n)%nat -> (triu_offset n r * 2 + r * r = 2 * n * r + r)%nat.
Proof.
  induction r as [|r IH]; intros H; [simpl; lia|].
  rewrite triu_offset_S. specialize (IH ltac:(lia)). nia.
Qed.

Lemma triu_offset_total (n : nat) : (triu_offset n n * 2 = n * (n + 1))%nat.
Proof. pose proof (triu_offset_double n n (le_n n)). nia. Qed.

Lemma mset_spec (M : P2.matrix) (r c : nat) (v : float) :
  (r < P2.nrows M)%nat -> (c < P2.ncols M)%nat ->
  exists M', P2.mset M r c v = Some M' /\
             P2.nrows M' = P2.nrows M /\ P2.ncols M' = P2.ncols M /\
             P2.entry M' r c = v /\
             forall r' c', (r', c') <> (r, c) ->
                           P2.entry M' r' c' = P2.entry M r' c'.
Proof.
  intros Hr Hc. unfold P2.mset.
  replace (r <? P2.nrows M)%nat with true by (symmetry; apply Nat.ltb_lt; lia).
  replace (c <? P2.ncols M)%nat with true by (symmetry; apply Nat.ltb_lt; lia).
  eexists. split; [reflexivity|]. cbn. repeat split.
  - rewrite !Nat.eqb_refl. reflexivity.
  - intros r' c' Hne.
    destruct (Nat.eqb_spec r' r), (Nat.eqb_spec c' c); try reflexivity.
    subst. contradiction.
Qed.

Lemma assign_loop_spec :
  forall (idx : list (nat * nat)) (vals : array) (M : P2.matrix),
    length vals = length idx ->
    (forall r c, In (r, c) idx -> (r < P2.nrows M)%nat /\ (c < P2.ncols M)%nat) ->
    exists M',
      P2.assign_loop M idx vals = Some M' /\
      P2.nrows M' = P2.nrows M /\ P2.ncols M' = P2.ncols M /\
      (forall r c, ~ In (r, c) idx -> P2.entry M' r c = P2.entry M r c) /\
      (NoDup idx ->
       forall k r c v, nth_error idx k = Some (r, c) ->
                       nth_error vals k = Some v -> P2.entry M' r c = v).
Proof.
  induction idx as [|[r0 c0] idx IH]; intros [|v0 vals] M L Hin;
    try discriminate.
  - exists M. repeat split; try reflexivity.
    intros _ [|k]; discriminate.
  - destruct (Hin r0 c0 (or_introl eq_refl)) as [Hr0 Hc0].
    destruct (mset_spec M r0 c0 v0 Hr0 Hc0) as [M1 [E1 [R1 [C1 [V1 O1]]]]].
    destruct (IH vals M1) as [M' [E' [R' [C' [O' N']]]]].
    + simpl in L. lia.
    + intros r c H. rewrite R1, C1. apply Hin. right. assumption.
    + exists M'. cbn [P2.assign_loop]. rewrite E1. cbn [bind].
      split; [exact E'|]. split; [congruence|]. split; [congruence|]. split.
      * intros r c Hn. rewrite O' by (intros H; apply Hn; right; assumption).
        apply O1. intros [= -> ->]. apply Hn. left. reflexivity.
      * intros Hnd k r c v Hk Hv. apply NoDup_cons_iff in Hnd.
        destruct Hnd as [Hni Hnd'].
        destruct k as [|k].
        -- simpl in Hk, Hv. injection Hk as <- <-. injection Hv as <-.
           rewrite O' by assumption. exact V1.
        -- simpl in Hk, Hv. eapply N'; eassumption.
Qed.

Lemma halve_diagonal_spec :
  forall (m s : nat) (M : P2.matrix),
    (s + m <= P2.nrows M)%nat -> (s + m <= P2.ncols M)%nat ->
    exists M',
      P2.halve_diagonal M (seq s m) = Some M' /\
      P2.nrows M' = P2.nrows M /\ P2.ncols M' = P2.ncols M /\
      forall r c,
        P2.entry M' r c =
        if Nat.eqb r c && Nat.leb s r && Nat.ltb r (s + m)
        then fmul (P2.entry M r c) (Fin (1 / 2)) else P2.entry M r c.
Proof.
  induction m as [|m IH]; intros s M Hr Hc.
  - exists M. repeat split. intros r c.
    destruct (Nat.eqb r c), (Nat.leb_spec s r), (Nat.ltb_spec r (s + 0));
      cbn [andb]; try reflexivity; lia.
  - cbn [seq P2.halve_diagonal].
    replace (s <? P2.nrows M)%nat with true by (symmetry; apply Nat.ltb_lt; lia).
    replace (s <? P2.ncols M)%nat with true by (symmetry; apply Nat.ltb_lt; lia).
    cbn [andb].
    destruct (mset_spec M s s (fmul (P2.entry M s s) (Fin (1 / 2))))
      as [M1 [E1 [R1 [C1 [V1 O1]]]]]; try lia.
    rewrite E1. cbn [bind].
    destruct (IH (S s) M1) as [M' [E' [R' [C' H']]]]; try lia.
    exists M'. split; [exact E'|]. split; [congruence|]. split; [congruence|].
    intros r c. rewrite H'.
    destruct (Nat.eqb_spec r c) as [->|Hne]; cbn [andb].
    + destruct (Nat.leb_spec (S s) c), (Nat.leb_spec s c),
        (Nat.ltb_spec c (S s + m)), (Nat.ltb_spec c (s + S m));
        cbn [andb]; try lia.
      * rewrite O1; [reflexivity|]. intros [= ->]. lia.
      * rewrite O1; [reflexivity|]. intros [= ->]. lia.
      * assert (c = s) as -> by lia. exact V1.
      * rewrite O1; [reflexivity|]. intros [= ->]. lia.
    + apply O1. intros [= -> ->]. contradiction.
Qed.

Lemma Rsum_flat_map {A} (f : A -> list R) (l : list A) :
  Rsum (flat_map f l) = Rsum (map (fun x => Rsum (f x)) l).
Proof.
  induction l as [|x l IH]; simpl; [reflexivity|].
  rewrite Rsum_app, Rsum_cons, IH. reflexivity.
Qed.

Lemma map_flat_map {A B C} (g : B -> C) (f : A -> list B) (l : list A) :
  map g (flat_map f l) = flat_map (fun x => map g (f x)) l.
Proof.
  induction l as [|x l IH]; simpl; [reflexivity|].
  rewrite map_app, IH. reflexivity.
Qed.

Lemma flat_map_ext_in {A B} (f g : A -> list B) (l : list A) :
  (forall x, In x l -> f x = g x) -> flat_map f l = flat_map g l.
Proof.
  induction l as [|x l IH]; intros H; simpl; [reflexivity|].
  rewrite (H x) by (left; reflexivity).
  rewrite IH by (intros; apply H; right; assumption). reflexivity.
Qed.

Lemma Rsum_zero (l : list R) : (forall x, In x l -> x = 0) -> Rsum l = 0.
Proof.
  induction l as [|x l IH]; intros H; [reflexivity|].
  rewrite Rsum_cons, IH by (intros; apply H; right; assumption).
  rewrite (H x) by (left; reflexivity). lra.
Qed.

Lemma Rsum_map_scale {A} (c : R) (f : A -> R) (l : list A) :
  Rsum (map (fun x => c * f x) l) = c * Rsum (map f l).
Proof.
  induction l as [|x l IH]; simpl.
  - unfold Rsum. simpl. lra.
  - rewrite !Rsum_cons, IH. lra.
Qed.

Lemma triangle_sum (n : nat) (ws : list R) :
  Rsum (flat_map (fun r => map (triangle_entry n ws r) (seq 0 n)) (seq 0 n)) =
  half_diagonal_sum n ws.
Proof.
  unfold half_diagonal_sum, P2.triu_indices.
  rewrite map_flat_map, !Rsum_flat_map. f_equal.
  apply map_ext_in. intros r Hr. apply in_seq in Hr.
  replace (seq 0 n) with (seq 0 r ++ seq r (n - r))
    by (rewrite <- seq_app; f_equal; lia).
  rewrite map_app, Rsum_app, map_map. cbn [fst snd].
  rewrite Rsum_zero.
  - rewrite Rplus_0_l. f_equal. apply map_ext_in. intros c Hc.
    apply in_seq in Hc. unfold triangle_entry.
    replace (r <=? c)%nat with true by (symmetry; apply Nat.leb_le; lia).
    reflexivity.
  - intros x Hx. apply in_map_iff in Hx. destruct Hx as [c [<- Hc]].
    apply in_seq in Hc. unfold triangle_entry.
    replace (r <=? c)%nat with false by (symmetry; apply Nat.leb_gt; lia).
    reflexivity.
Qed.

Lemma msum_Fin (M : P2.matrix) (E : nat -> nat -> R) :
  (forall r c, (r < P2.nrows M)%nat -> (c < P2.ncols M)%nat ->
               P2.entry M r c = Fin (E r c)) ->
  P2.msum M =
  Fin (Rsum (flat_map (fun r => map (E r) (seq 0 (P2.ncols M)))
               (seq 0 (P2.nrows M)))).
Proof.
  intros H. unfold P2.msum. rewrite <- fsum_Fin. f_equal.
  rewrite map_flat_map. apply flat_map_ext_in. intros r Hr.
  apply in_seq in Hr. rewrite map_map. apply map_ext_in. intros c Hc.
  apply in_seq in Hc. apply H; lia.
Qed.

Lemma compute_norm_value (n : nat) (ws : list R) (d1 d2 : R) :
  length ws = triu_offset n n ->
  half_diagonal_sum n ws <> 0 -> d1 <> 0 -> d2 <> 0 ->
  P2.compute_norm n (map Fin ws) (Fin d1) (Fin d2) =
  Some (Fin (1 / half_diagonal_sum n ws * 1 / d1 / d2)).
Proof.
  intros L HS H1 H2. unfold P2.compute_norm, P2.assign.
  rewrite length_map, L, triu_length, Nat.eqb_refl.
  destruct (assign_loop_spec (P2.triu_indices n) (map Fin ws) (P2.zeros n n))
    as [M1 [E1 [R1 [C1 [O1 N1]]]]].
  { rewrite length_map, triu_length. exact L. }
  { intros r c H. apply triu_In in H. simpl. lia. }
  rewrite E1. cbn [bind].
  destruct (halve_diagonal_spec n 0 M1) as [M2 [E2 [R2 [C2 H2']]]].
  { rewrite R1. simpl. lia. }
  { rewrite C1. simpl. lia. }
  rewrite E2. cbn [bind].
  rewrite (msum_Fin M2 (triangle_entry n ws)).
  - rewrite R2, C2, R1, C1. cbn [P2.zeros P2.nrows P2.ncols].
    rewrite triangle_sum. cbn [fdiv].
    destruct (Req_EM_T (half_diagonal_sum n ws) 0); [contradiction|].
    cbn [fmul fdiv]. destruct (Req_EM_T d1 0); [contradiction|].
    cbn [fdiv]. destruct (Req_EM_T d2 0); [contradiction|]. reflexivity.
  - rewrite R2, C2, R1, C1. cbn [P2.zeros P2.nrows P2.ncols].
    intros r c Hr Hc. rewrite H2'. unfold triangle_entry.
    destruct (Nat.leb_spec r c) as [Hle|Hgt].
    + assert (Hin : (r <= c < n)%nat) by lia.
      pose proof (triu_place_lt n r c Hin) as Hlt.
      assert (Hw : nth_error (map Fin ws) (triu_place n r c) =
                   Some (Fin (nth (triu_place n r c) ws 0))).
      { apply nth_error_map_some. apply nth_error_nth'. lia. }
      rewrite (N1 (triu_NoDup n) _ r c _ (triu_place_nth n r c Hin) Hw).
      destruct (Nat.eqb_spec r c) as [->|Hne]; cbn [andb].
      * replace ((0 <=? c)%nat && (c <? 0 + n)%nat) with true.
        -- reflexivity.
        -- symmetry. apply andb_true_iff. split;
             [apply Nat.leb_le|apply Nat.ltb_lt]; lia.
      * f_equal. lra.
    + replace (Nat.eqb r c) with false by (symmetry; apply Nat.eqb_neq; lia).
      cbn [andb]. rewrite O1; [reflexivity|].
      intros H. apply triu_In in H. lia.
Qed.

Lemma triu_place_INR (n r c : nat) :
  (r <= c)%nat -> (r <= n)%nat ->
  INR (triu_place n r c) =
  INR c + INR n * INR r - INR r * (INR r + 1) / 2.
Proof.
  intros Hrc Hrn. unfold triu_place.
  pose proof (triu_offset_double n r Hrn) as E.
  apply (f_equal INR) in E.
  rewrite !plus_INR, !mult_INR in E. simpl in E.
  rewrite plus_INR, minus_INR by assumption. lra.
Qed.

Lemma piecewise_loop_select (x : float) (p : nat) (f : nat -> bool) :
  (forall k, f k = Nat.eqb p k) ->
  forall (m s : nat) (vs : array) (y : float),
    length vs = m ->
    piecewise_loop [x] (map (fun k => [f k]) (seq s m)) (map Const vs) [y] =
    Some [if Nat.leb s p && Nat.ltb p (s + m) then nth (p - s) vs NaN else y].
Proof.
  intros Hf. induction m as [|m IH]; intros s [|v vs] y L; try discriminate.
  - simpl. destruct (Nat.leb_spec s p), (Nat.ltb_spec p (s + 0));
      cbn [andb]; try reflexivity; lia.
  - cbn [seq map piecewise_loop]. unfold mask_assign. cbn [length Nat.eqb].
    cbn [combine map fst snd bind].
    rewrite IH by (simpl in L; lia). rewrite Hf. do 2 f_equal.
    destruct (Nat.eqb_spec p s) as [->|Hne].
    + replace ((S s <=? s)%nat) with false by (symmetry; apply Nat.leb_gt; lia).
      replace ((s <=? s)%nat) with true by (symmetry; apply Nat.leb_le; lia).
      replace ((s <? s + S m)%nat) with true by (symmetry; apply Nat.ltb_lt; lia).
      cbn [andb]. rewrite Nat.sub_diag. reflexivity.
    + destruct (Nat.leb_spec (S s) p), (Nat.leb_spec s p),
        (Nat.ltb_spec p (S s + m)), (Nat.ltb_spec p (s + S m));
        cbn [andb]; try reflexivity; try lia.
      replace (p - s)%nat with (S (p - S s)) by lia. reflexivity.
Qed.

Lemma linspace_delta (a b : R) (n : nat) :
  a <> b -> (1 <= n)%nat ->
  exists x0 x1,
    nth_error (linspace (Fin a) (Fin b) (n + 1)) 0 = Some (Fin x0) /\
    nth_error (linspace (Fin a) (Fin b) (n + 1)) 1 = Some (Fin x1) /\
    x1 + - x0 <> 0.
Proof.
  intros Hab Hn.
  assert (INR (n + 1 - 1) <> 0) by (apply not_0_INR; lia).
  exists (a + INR 0 * ((b - a) / INR (n + 1 - 1))).
  destruct (Nat.eq_dec n 1) as [E|E].
  - exists b. repeat split.
    + apply linspace_nth; lia.
    + rewrite E. reflexivity.
    + simpl. lra.
  - eexists. repeat split.
    + apply linspace_nth; lia.
    + apply linspace_nth; lia.
    + simpl. intros E'. apply Hab.
      assert (Z : (b - a) / INR (n + 1 - 1) = 0) by lra.
      apply (f_equal (fun z => z * INR (n + 1 - 1))) in Z.
      field_simplify in Z; lra.
Qed.

Lemma weight_at_value (d : P2.t) (n : nat) (wn : list R) (i j : nat) :
  P2.n_bins_1d d = n -> P2.n_bins d = length wn ->
  P2.weights_normalized d = map Fin wn ->
  length wn = triu_offset n n ->
  (j <= i < n)%nat ->
  P2.weight_at d ([INRf i], [INRf j]) =
  Some [Fin (nth (triu_place n j i) wn 0)].
Proof.
  intros Hn HN Hw L Hij.
  unfold P2.weight_at, P2.compute_flat_position, P2.compute_conditions.
  rewrite Hn, HN, Hw. unfold INRf. cbn [map broadcast2 bind fmul fadd fsub fneg].
  cbn [fdiv]. destruct (Req_EM_T 2 0); [lra|]. cbn [map fadd fsub fneg bind].
  replace (INR i + INR n * INR j + - (INR j * (INR j + 1) / 2))
    with (INR (triu_place n j i)) by (rewrite triu_place_INR by lia; lra).
  set (p := triu_place n j i).
  assert (Hp : (p < length wn)%nat) by (rewrite L; apply triu_place_lt; lia).
  unfold piecewise. rewrite !length_map, length_seq.
  replace (Nat.eqb (length wn) (length wn - 1)
           && negb (Nat.eqb (length wn) 0)) with false.
  2:{ symmetry. apply andb_false_iff. left. apply Nat.eqb_neq. lia. }
  rewrite Nat.eqb_refl. cbn [map].
  rewrite (piecewise_loop_select _ p (fun k => feq (Fin (INR p)) (Fin (INR k)))).
  - replace (Nat.leb 0 p && Nat.ltb p (0 + length wn)) with true.
    + rewrite Nat.sub_0_r. do 2 f_equal.
      rewrite (nth_indep _ NaN (Fin 0)) by (rewrite length_map; assumption).
      apply (map_nth Fin).
    + symmetry. apply andb_true_iff. split;
        [apply Nat.leb_le|apply Nat.ltb_lt]; lia.
  - intros k. simpl. unfold Reqb.
    destruct (Req_EM_T (INR p) (INR k)) as [E|E], (Nat.eqb_spec p k);
      try reflexivity.
    + apply INR_eq in E. contradiction.
    + subst. contradiction.
  - apply length_map.
Qed.

Lemma mass_terms_value (d : P2.t) (n : nat) (wn : list R) (d1 d2 : R) :
  P2.n_bins_1d d = n -> P2.n_bins d = length wn ->
  P2.weights_normalized d = map Fin wn ->
  length wn = triu_offset n n ->
  P2.delta_bin_x1 d = Fin d1 -> P2.delta_bin_x2 d = Fin d2 ->
  forall bs : list (nat * nat),
    (forall i j, In (i, j) bs -> (j <= i < n)%nat) ->
    P2.mass_terms d bs =
    Some (map Fin
            (map (fun ij : nat * nat =>
                    nth (triu_place n (snd ij) (fst ij)) wn 0
                    * (d1 * d2 * (if Nat.eqb (fst ij) (snd ij)
                                  then 1 / 2 else 1)))
               bs)).
Proof.
  intros Hn HN Hw L H1 H2.
  induction bs as [|[i j] bs IH]; intros Hin; [reflexivity|].
  cbn [P2.mass_terms].
  rewrite (weight_at_value d n wn i j Hn HN Hw L)
    by (apply Hin; left; reflexivity).
  cbn [bind]. rewrite IH by (intros; apply Hin; right; assumption).
  cbn [bind map fst snd]. do 2 f_equal.
  unfold P2.bin_area. rewrite H1, H2.
  destruct (Nat.eqb i j); cbn [fmul]; f_equal; lra.
Qed.

Lemma bins_swap (d : P2.t) :
  P2.bins d =
  map (fun rc : nat * nat => (snd rc, fst rc))
    (P2.triu_indices (P2.n_bins_1d d)).
Proof.
  unfold P2.bins, P2.triu_indices. rewrite map_flat_map.
  apply flat_map_ext_in. intros j _. rewrite map_map. reflexivity.
Qed.

(** C8.  For [n >= 1] and [n (n+1) / 2] finite weights whose half-diagonal
    sum is not zero, over [dist_min <> dist_max]: the constructor returns a
    distribution with an [n] by [n] grid, and the sum over its triangular
    bins of the normalised weight of the bin times the area of the bin, a
    diagonal bin counting half of [delta_x1 * delta_x2], is 1. *)
Theorem C8_binned_2d_mass (n : nat) (a b : R) (ws : list R) :
  (1 <= n)%nat -> (length ws * 2 = n * (n + 1))%nat ->
  a <> b -> half_diagonal_sum n ws <> 0 ->
  exists d,
    P2.__init__ (Fin a) (Fin b) (map Fin ws) = Some d /\
    P2.n_bins_1d d = n /\
    P2.total_mass d = Some (Fin 1).
Proof.
  intros Hn HN Hab HS.
  assert (L : length ws = triu_offset n n).
  { pose proof (triu_offset_total n). lia. }
  destruct (linspace_delta a b n Hab Hn) as [x0 [x1 [E0 [E1 Hd]]]].
  unfold P2.__init__. rewrite length_map.
  rewrite (invert_triangular_spec n (length ws) HN).
  rewrite E0, E1. cbn [bind fsub fneg fadd].
  set (dx := x1 + - x0) in *.
  rewrite (compute_norm_value n ws dx dx L HS Hd Hd). cbn [bind].
  set (nr := 1 / half_diagonal_sum n ws * 1 / dx / dx).
  eexists. split; [reflexivity|]. split; [reflexivity|].
  unfold P2.total_mass.
  erewrite (mass_terms_value _ n (map (Rmult nr) ws) dx dx);
    try reflexivity.
  - cbn [bind]. rewrite fsum_Fin. do 2 f_equal.
    rewrite bins_swap. cbn [P2.n_bins_1d]. rewrite map_map. cbn [fst snd].
    rewrite (map_ext_in _ (fun rc : nat * nat =>
               (nr * dx * dx)
               * (nth (triu_place n (fst rc) (snd rc)) ws 0
                  * (if Nat.eqb (fst rc) (snd rc) then 1 / 2 else 1)))).
    + rewrite Rsum_map_scale. fold (half_diagonal_sum n ws).
      unfold nr. field. split; assumption.
    + intros [r c] Hin. apply triu_In in Hin. cbn [fst snd].
      rewrite (nth_indep _ 0 (nr * 0)).
      * rewrite (map_nth (Rmult nr)). rewrite (Nat.eqb_sym c r). lra.
      * rewrite length_map, L. apply triu_place_lt. lia.
  - cbn. rewrite length_map. reflexivity.
  - cbn. rewrite !map_map. reflexivity.
  - rewrite length_map. exact L.
  - intros i j Hin. rewrite bins_swap in Hin. cbn [P2.n_bins_1d] in Hin.
    apply in_map_iff in Hin. destruct Hin as [[r c] [[= <- <-] Hin]].
    apply triu_In in Hin. lia.
Qed.

(** ** Kernels that work place by place *)

Lemma log_pdf_elementwise (d : basic_1dimpdf.t) (k : float -> float) (x : array) :
  basic_1dimpdf._log_pdf d x = Some (map k x) ->
  basic_1dimpdf.log_pdf d x =
  Some (map (clamp_pdf (basic_1dimpdf.minval d) (basic_1dimpdf.maxval d) k) x).
Proof.
  intros E. unfold basic_1dimpdf.log_pdf, basic_1dimpdf._check_bound_pdf.
  rewrite E. cbn [bind]. apply mask_assign_map.
Qed.

Lemma log_cdf_elementwise (d : basic_1dimpdf.t) (k : float -> float) (x : array) :
  basic_1dimpdf._log_cdf d x = Some (map k x) ->
  basic_1dimpdf.log_cdf d x =
  Some (map (clamp_cdf (basic_1dimpdf.minval d) (basic_1dimpdf.maxval d) k) x).
Proof.
  intros E. unfold basic_1dimpdf.log_cdf, basic_1dimpdf._check_bound_cdf.
  rewrite E. cbn [bind]. rewrite mask_assign_map. cbn [bind].
  apply (mask_assign_map (fun xi => fgt xi (basic_1dimpdf.maxval d))).
Qed.

(** ** The power law with exponent -2 on [1, 10] *)

Lemma Rpower_m1 (x : R) : 0 < x -> Rpower x (-2 + 1) = / x.
Proof.
  intros Hx. replace (-2 + 1) with (- (1)) by lra.
  rewrite Rpower_Ropp, Rpower_1 by assumption. reflexivity.
Qed.

Lemma PL_example_log_pdf (x : array) :
  basic_1dimpdf.log_pdf
    (PowerLaw.as_pdf (PowerLaw.__init__ (Fin 1) (Fin 10) (Fin (-2)))) x =
  Some (map (clamp_pdf (Fin 1) (Fin 10)
               (fun xi => fsub (fmul (Fin (-2)) (flog xi)) (flog (Fin (9 / 10)))))
          x).
Proof.
  apply (log_pdf_elementwise
           (PowerLaw.as_pdf (PowerLaw.__init__ (Fin 1) (Fin 10) (Fin (-2))))).
  cbn [PowerLaw.as_pdf basic_1dimpdf._log_pdf]. unfold PowerLaw._log_pdf.
  cbn [PowerLaw.__init__ PowerLaw.alpha PowerLaw.norm_fact].
  rewrite PL_normfact_example. reflexivity.
Qed.

Lemma PL_example_log_cdf (x : array) :
  basic_1dimpdf.log_cdf
    (PowerLaw.as_pdf (PowerLaw.__init__ (Fin 1) (Fin 10) (Fin (-2)))) x =
  Some (map (clamp_cdf (Fin 1) (Fin 10)
               (fun xi =>
                  flog (fdiv (fdiv (fsub (fpower xi (Fin (-2 + 1)))
                                         (fpower (Fin 1) (Fin (-2 + 1))))
                                   (Fin (-2 + 1)))
                             (Fin (9 / 10)))))
          x).
Proof.
  apply (log_cdf_elementwise
           (PowerLaw.as_pdf (PowerLaw.__init__ (Fin 1) (Fin 10) (Fin (-2))))).
  cbn [PowerLaw.as_pdf basic_1dimpdf._log_cdf]. unfold PowerLaw._log_cdf.
  cbn [PowerLaw.__init__ PowerLaw.alpha PowerLaw.norm_fact PowerLaw.minpl].
  replace (feq (Fin (-2)) (Fin (-1))) with false by (simpl; fcmp).
  rewrite PL_normfact_example. reflexivity.
Qed.

Lemma PL_example_cdf_value (s : R) :
  1 <= s <= 10 ->
  fexp (clamp_cdf (Fin 1) (Fin 10)
          (fun xi =>
             flog (fdiv (fdiv (fsub (fpower xi (Fin (-2 + 1)))
                                    (fpower (Fin 1) (Fin (-2 + 1))))
                              (Fin (-2 + 1)))
                        (Fin (9 / 10))))
          (Fin s)) = Fin ((1 - / s) / (9 / 10)).
Proof.
  intros Hs. unfold clamp_cdf.
  replace (fgt (Fin s) (Fin 10)) with false by (symmetry; apply Rltb_false; lra).
  replace (flt (Fin s) (Fin 1)) with false by (symmetry; apply Rltb_false; lra).
  rewrite !fpower_pos by lra. rewrite !Rpower_m1, Rinv_1 by lra.
  cbn [fsub fneg fadd fdiv].
  destruct (Req_EM_T (-2 + 1) 0); [lra|]. cbn [fdiv].
  destruct (Req_EM_T (9 / 10) 0); [lra|].
  replace ((/ s + - (1)) / (-2 + 1) / (9 / 10)) with ((1 - / s) / (9 / 10))
    by (field; lra).
  assert (Hinv : / s <= 1).
  { rewrite <- Rinv_1. apply Rinv_le_contravar; lra. }
  cbn [flog]. destruct (Rlt_dec 0 ((1 - / s) / (9 / 10))) as [Hp|Hnp].
  - cbn [fexp]. rewrite exp_ln by assumption. reflexivity.
  - destruct (Rlt_dec ((1 - / s) / (9 / 10)) 0) as [Hneg|_].
    + exfalso. assert (0 <= (1 - / s) / (9 / 10)); [|lra].
      apply Rmult_le_pos; [lra|]. apply Rlt_le, Rinv_0_lt_compat. lra.
    + cbn [fexp]. f_equal.
      assert (0 <= (1 - / s) / (9 / 10)); [|lra].
      apply Rmult_le_pos; [lra|]. apply Rlt_le, Rinv_0_lt_compat. lra.
Qed.

Lemma PL_example_log_cdf_finite (s : R) :
  1 < s <= 10 ->
  exists w,
    clamp_cdf (Fin 1) (Fin 10)
      (fun xi =>
         flog (fdiv (fdiv (fsub (fpower xi (Fin (-2 + 1)))
                                (fpower (Fin 1) (Fin (-2 + 1))))
                          (Fin (-2 + 1)))
                    (Fin (9 / 10))))
      (Fin s) = Fin w.
Proof.
  intros Hs. unfold clamp_cdf.
  replace (fgt (Fin s) (Fin 10)) with false by (symmetry; apply Rltb_false; lra).
  replace (flt (Fin s) (Fin 1)) with false by (symmetry; apply Rltb_false; lra).
  rewrite !fpower_pos by lra. rewrite !Rpower_m1, Rinv_1 by lra.
  cbn [fsub fneg fadd fdiv].
  destruct (Req_EM_T (-2 + 1) 0); [lra|]. cbn [fdiv].
  destruct (Req_EM_T (9 / 10) 0); [lra|].
  replace ((/ s + - (1)) / (-2 + 1) / (9 / 10)) with ((1 - / s) / (9 / 10))
    by (field; lra).
  assert (Hinv : / s < 1).
  { rewrite <- Rinv_1. apply Rinv_lt_contravar; lra. }
  assert (0 < (1 - / s) / (9 / 10)).
  { apply Rmult_lt_0_compat; [lra|]. apply Rinv_0_lt_compat. lra. }
  cbn [flog]. destruct (Rlt_dec 0 ((1 - / s) / (9 / 10))); [|lra].
  eexists. reflexivity.
Qed.

(** C9.  The two attributes of a [conditional_2dimpdf] are the references
    the caller passed: with two power laws on [1, 10] in the store, the
    log-density at [(2, 2)] is finite; after the caller sets [minval] of its
    first object to 5, the same evaluation through the same two-dimensional
    object is minus infinity. *)
Theorem C9_sub_distributions_are_shared :
  let PL := PowerLaw.as_pdf (PowerLaw.__init__ (Fin 1) (Fin 10) (Fin (-2))) in
  let h := store_set (store_set store_empty 0%nat PL) 1%nat PL in
  let c := conditional_2dimpdf.__init__ 0%nat 1%nat in
  exists v h',
    conditional_2dimpdf.log_pdf h c [Fin 2] [Fin 2] = Some [Fin v] /\
    setattr_minval h 0%nat (Fin 5) = Some h' /\
    conditional_2dimpdf.log_pdf h' c [Fin 2] [Fin 2] = Some [NInf].
Proof.
  intros PL h c.
  destruct (PL_example_log_cdf_finite 2 ltac:(lra)) as [w Hw].
  assert (Hk : forall lo,
    clamp_pdf lo (Fin 10)
      (fun xi => fsub (fmul (Fin (-2)) (flog xi)) (flog (Fin (9 / 10))))
      (Fin 2) =
    if flt (Fin 2) lo then NInf else Fin (-2 * ln 2 + - ln (9 / 10))).
  { intros lo. unfold clamp_pdf.
    replace (fgt (Fin 2) (Fin 10)) with false
      by (symmetry; apply Rltb_false; lra).
    rewrite orb_false_r. destruct (flt (Fin 2) lo); [reflexivity|].
    simpl. destruct (Rlt_dec 0 2); [|lra].
    destruct (Rlt_dec 0 (9 / 10)); [|lra]. reflexivity. }
  exists (-2 * ln 2 + - ln (9 / 10) + (-2 * ln 2 + - ln (9 / 10)) + - w).
  eexists. split; [|split; [reflexivity|]].
  - unfold conditional_2dimpdf.log_pdf, conditional_2dimpdf.log_pdf_at.
    cbn [c conditional_2dimpdf.__init__ conditional_2dimpdf.pdf1
         conditional_2dimpdf.pdf2 h store_set Nat.eqb bind].
    unfold PL. rewrite PL_example_log_pdf, PL_example_log_cdf.
    cbn [map bind]. rewrite Hw, Hk.
    replace (flt (Fin 2) (Fin 1)) with false
      by (symmetry; apply Rltb_false; lra).
    cbn [broadcast2 map fadd fsub fneg bind].
    unfold conditional_2dimpdf._check_bound_pdf.
    cbn [broadcast2 map bind length Nat.eqb combine fst snd isnan].
    replace (flt (Fin 2) (Fin 2)) with false
      by (symmetry; apply Rltb_false; lra).
    reflexivity.
  - unfold conditional_2dimpdf.log_pdf, conditional_2dimpdf.log_pdf_at.
    cbn [c conditional_2dimpdf.__init__ conditional_2dimpdf.pdf1
         conditional_2dimpdf.pdf2 h store_set Nat.eqb bind].
    unfold PL at 2 3. rewrite PL_example_log_pdf, PL_example_log_cdf.
    rewrite (log_pdf_elementwise _
               (fun xi => fsub (fmul (Fin (-2)) (flog xi))
                            (flog (Fin (9 / 10))))).
    + cbn [basic_1dimpdf.minval basic_1dimpdf.maxval PL PowerLaw.as_pdf
           PowerLaw.__init__ PowerLaw.maxval map bind].
      rewrite Hw, !Hk.
      replace (flt (Fin 2) (Fin 1)) with false
        by (symmetry; apply Rltb_false; lra).
      replace (flt (Fin 2) (Fin 5)) with true
        by (symmetry; apply Rltb_true; lra).
      cbn [broadcast2 map fadd fsub fneg bind].
      unfold conditional_2dimpdf._check_bound_pdf.
      cbn [broadcast2 map bind length Nat.eqb combine fst snd isnan].
      replace (flt (Fin 2) (Fin 2)) with false
        by (symmetry; apply Rltb_false; lra).
      reflexivity.
    + cbn [basic_1dimpdf._log_pdf PL PowerLaw.as_pdf]. unfold PowerLaw._log_pdf.
      cbn [PowerLaw.__init__ PowerLaw.alpha PowerLaw.norm_fact].
      rewrite PL_normfact_example. reflexivity.
Qed.

(** ** The conditional sampler *)

Lemma GRID_ge_3 : (3 <= basic_1dimpdf.GRID)%nat.
Proof. apply Nat.leb_le. vm_compute. reflexivity. Qed.

Lemma INR_GRID : INR (basic_1dimpdf.GRID - 1) = 9999.
Proof.
  rewrite INR_IZR_INZ.
  replace (Z.of_nat (basic_1dimpdf.GRID - 1)) with 9999%Z
    by (vm_compute; reflexivity).
  reflexivity.
Qed.

Lemma list_shape {A} (l : list A) (a b : A) :
  (3 <= length l)%nat ->
  nth_error l 0 = Some a -> nth_error l 1 = Some b ->
  exists rest, l = a :: b :: rest /\ rest <> [].
Proof.
  destruct l as [|a' [|b' [|c rest]]]; simpl; try lia.
  intros _ [= ->] [= ->]. eexists. split; [reflexivity|discriminate].
Qed.

Lemma last_nth_error {A} (l : list A) (d x : A) :
  nth_error l (length l - 1) = Some x -> last l d = x.
Proof.
  induction l as [|a l IH]; [discriminate|].
  destruct l as [|b l].
  - simpl. intros [= ->]. reflexivity.
  - intros H. change (last (a :: b :: l) d) with (last (b :: l) d).
    apply IH. simpl in *. rewrite Nat.sub_0_r in *. exact H.
Qed.

Lemma last_map {A B} (f : A -> B) (l : list A) (d : A) (d' : B) :
  l <> [] -> last (map f l) d' = f (last l d).
Proof.
  induction l as [|a l IH]; [contradiction|]. intros _.
  destruct l as [|b l]; [reflexivity|].
  change (last (map f (b :: l)) d' = f (last (b :: l) d)).
  apply IH. discriminate.
Qed.

(** [interp] at a query strictly inside the first cell of the table. *)
Lemma interp1_first_cell (a0 a1 al b0 b1 q : R) (xr fr : array) :
  xr <> [] ->
  last (Fin a0 :: Fin a1 :: xr) NaN = Fin al ->
  a0 < q < a1 -> q <= al ->
  interp1 (Fin a0 :: Fin a1 :: xr) (Fin b0 :: Fin b1 :: fr) (Fin q) =
  Fin ((b1 - b0) / (a1 - a0) * (q - a0) + b0).
Proof.
  intros Hxr Hlast Hq Hal. unfold interp1, binary_search.
  rewrite Hlast. cbn [isnan hd tl scan].
  replace (fgt (Fin q) (Fin al)) with false by (symmetry; apply Rltb_false; lra).
  replace (flt (Fin q) (Fin a0)) with false by (symmetry; apply Rltb_false; lra).
  replace (fge (Fin q) (Fin a1)) with false.
  2:{ symmetry. simpl. unfold Rleb. destruct (Rle_dec a1 q); [lra|reflexivity]. }
  cbn [Nat.sub length nth].
  destruct xr as [|x xr']; [contradiction|]. cbn [length Nat.sub Nat.eqb].
  replace (feq (Fin a0) (Fin q)) with false.
  2:{ symmetry. simpl. unfold Reqb. destruct (Req_EM_T a0 q); [lra|reflexivity]. }
  cbn [fsub fneg fadd fdiv].
  destruct (Req_EM_T (a1 + - a0) 0); [lra|]. reflexivity.
Qed.

Lemma example_cdf (x : array) :
  basic_1dimpdf.cdf example_PL x =
  Some (map (fun xi =>
               fexp (clamp_cdf (Fin 1) (Fin 10)
                       (fun xi =>
                          flog (fdiv (fdiv (fsub (fpower xi (Fin (-2 + 1)))
                                                 (fpower (Fin 1) (Fin (-2 + 1))))
                                           (Fin (-2 + 1)))
                                     (Fin (9 / 10))))
                       xi)) x).
Proof.
  unfold basic_1dimpdf.cdf, example_PL. rewrite PL_example_log_cdf.
  cbn [bind]. rewrite map_map. reflexivity.
Qed.

Lemma example_grid :
  exists rest,
    linspace (Fin 1) (Fin 10) basic_1dimpdf.GRID =
    Fin 1 :: Fin (1112 / 1111) :: rest /\
    rest <> [] /\
    last (linspace (Fin 1) (Fin 10) basic_1dimpdf.GRID) NaN = Fin 10.
Proof.
  pose proof GRID_ge_3 as HG.
  assert (H0 : nth_error (linspace (Fin 1) (Fin 10) basic_1dimpdf.GRID) 0 =
               Some (Fin 1)).
  { rewrite linspace_nth by lia. do 2 f_equal. simpl. lra. }
  assert (H1 : nth_error (linspace (Fin 1) (Fin 10) basic_1dimpdf.GRID) 1 =
               Some (Fin (1112 / 1111))).
  { rewrite linspace_nth by lia. do 2 f_equal. rewrite INR_GRID. simpl. lra. }
  destruct (list_shape _ _ _ ltac:(rewrite linspace_length; exact HG) H0 H1)
    as [rest [E Hne]].
  exists rest. split; [exact E|]. split; [exact Hne|].
  apply last_nth_error. rewrite linspace_length. apply linspace_last. lia.
Qed.

(** C3.  The sampler of the conditional density built on two power laws
    [PowerLaw(1, 10, -2)], asked for one pair with the draws 5/10008 and
    9999/10000, returns a pair with [x1 < x2]: the first coordinate falls
    inside the first cell of the 10000-point table, where the cumulative lies
    above its chord, and the table maps the rescaled second draw past it. *)
Theorem C3_sample_breaks_order :
  exists x1 x2 g',
    conditional_2dimpdf.sample example_store example_conditional 1
      (two_draws (5 / 10008) (9999 / 10000)) =
    Some ([Fin x1], [Fin x2], g') /\
    x1 < x2.
Proof.
  destruct example_grid as [rest [Egrid [Hne Hlast]]].
  set (ce := fun xi =>
               fexp (clamp_cdf (Fin 1) (Fin 10)
                       (fun xi =>
                          flog (fdiv (fdiv (fsub (fpower xi (Fin (-2 + 1)))
                                                 (fpower (Fin 1) (Fin (-2 + 1))))
                                           (Fin (-2 + 1)))
                                     (Fin (9 / 10))))
                       xi)).
  assert (Hce : forall s, 1 <= s <= 10 -> ce (Fin s) = Fin ((1 - / s) / (9 / 10)))
    by (intros; apply PL_example_cdf_value; assumption).
  assert (Hce0 : ce (Fin 1) = Fin 0).
  { rewrite Hce by lra. f_equal. field. }
  assert (Hce1 : ce (Fin (1112 / 1111)) = Fin (5 / 5004)).
  { rewrite Hce by lra. f_equal. field. }
  assert (Hcel : last (Fin 0 :: Fin (5 / 5004) :: map ce rest) NaN = Fin 1).
  { rewrite <- Hce0, <- Hce1.
    change (last (map ce (Fin 1 :: Fin (1112 / 1111) :: rest)) NaN = Fin 1).
    rewrite <- Egrid.
    rewrite (last_map ce _ NaN) by (rewrite Egrid; discriminate).
    rewrite Hlast, Hce by lra. f_equal. field. }
  assert (Hrest : map ce rest <> []).
  { destruct rest; [contradiction|discriminate]. }
  assert (Hcell : forall q, 0 < q < 5 / 5004 ->
    interp [Fin q] (Fin 0 :: Fin (5 / 5004) :: map ce rest)
      (Fin 1 :: Fin (1112 / 1111) :: rest) =
    Some [Fin ((1112 / 1111 - 1) / (5 / 5004 - 0) * (q - 0) + 1)]).
  { intros q Hq. unfold interp. cbn [length]. rewrite length_map, Nat.eqb_refl.
    cbn [map]. rewrite (interp1_first_cell 0 (5 / 5004) 1) by (try assumption; lra).
    reflexivity. }
  set (x1 := (1112 / 1111 - 1) / (5 / 5004 - 0) * (5 / 10008 - 0) + 1).
  assert (Ex1 : x1 = 2223 / 2222) by (unfold x1; field).
  set (q := 9999 / 10000 * ((1 - / x1) / (9 / 10))).
  assert (Eq : q = 9999 / 10000 * (10 / 20007)).
  { unfold q. rewrite Ex1. field. }
  exists x1, ((1112 / 1111 - 1) / (5 / 5004 - 0) * (q - 0) + 1).
  eexists. split.
  - unfold conditional_2dimpdf.sample.
    change (example_store (conditional_2dimpdf.pdf1 example_conditional))
      with (Some example_PL).
    change (example_store (conditional_2dimpdf.pdf2 example_conditional))
      with (Some example_PL).
    cbn [bind]. unfold conditional_2dimpdf.sample_at.
    change (basic_1dimpdf.minval example_PL) with (Fin 1).
    change (basic_1dimpdf.maxval example_PL) with (Fin 10).
    rewrite !example_cdf. fold ce. rewrite Egrid. cbn [map bind].
    rewrite Hce0, Hce1.
    cbn [rand seq map two_draws Nat.add].
    rewrite Hcell by lra. cbn [bind]. fold x1.
    rewrite example_cdf. fold ce. cbn [map bind].
    rewrite Hce by (rewrite Ex1; lra).
    cbn [broadcast2 map fmul bind]. fold q.
    rewrite Hcell by (rewrite Eq; lra). cbn [bind].
    reflexivity.
  - rewrite Eq. unfold x1. lra.
Qed.

(** ** The statements at concrete inputs *)

Lemma C1_boundary_clamp_witness :
  exists lp lc c,
    basic_1dimpdf.log_pdf example_PL [Fin 0; Fin 5; Fin 20] = Some lp /\
    basic_1dimpdf.log_cdf example_PL [Fin 0; Fin 5; Fin 20] = Some lc /\
    basic_1dimpdf.cdf example_PL [Fin 0; Fin 5; Fin 20] = Some c /\
    forall i xi, nth_error [Fin 0; Fin 5; Fin 20] i = Some xi ->
      ((flt xi (basic_1dimpdf.minval example_PL) = true \/
        fgt xi (basic_1dimpdf.maxval example_PL) = true) ->
       nth_error lp i = Some NInf) /\
      (flt xi (basic_1dimpdf.minval example_PL) = true ->
       nth_error lc i = Some NInf /\ nth_error c i = Some (Fin 0)) /\
      (fgt xi (basic_1dimpdf.maxval example_PL) = true ->
       nth_error lc i = Some (Fin 0) /\ nth_error c i = Some (Fin 1)).
Proof.
  apply (C1_boundary_clamp example_PL [Fin 0; Fin 5; Fin 20]
           (PowerLaw._log_pdf (PowerLaw.__init__ (Fin 1) (Fin 10) (Fin (-2)))
              [Fin 0; Fin 5; Fin 20])
           (PowerLaw._log_cdf (PowerLaw.__init__ (Fin 1) (Fin 10) (Fin (-2)))
              [Fin 0; Fin 5; Fin 20])).
  - simpl. unfold Rleb. destruct (Rle_dec 1 10); [reflexivity|lra].
  - reflexivity.
  - reflexivity.
  - reflexivity.
  - unfold PowerLaw._log_cdf. destruct (feq _ _); reflexivity.
Defined.

Lemma C2_conditional_log_pdf_witness :
  exists y,
    conditional_2dimpdf.log_pdf example_store example_conditional
      [Fin 2; Fin (1 / 2)] [Fin 2; Fin (1 / 2)] = Some y /\
    length y = 2%nat /\
    nth_error y 1 = Some NInf.
Proof.
  destruct (C2_conditional_log_pdf example_store example_conditional
              example_PL example_PL [Fin 2; Fin (1 / 2)] [Fin 2; Fin (1 / 2)]
              _ _ _ eq_refl eq_refl eq_refl
              (PL_example_log_pdf _) (PL_example_log_pdf _)
              (PL_example_log_cdf _)) as [y [Hy [Ly Hn]]].
  exists y. split; [exact Hy|]. split; [exact Ly|].
  destruct (Hn 1%nat _ _ _ _ _ eq_refl eq_refl eq_refl eq_refl eq_refl)
    as [H1 _].
  rewrite H1. f_equal. unfold clamp_pdf, clamp_cdf.
  replace (flt (Fin (1 / 2)) (Fin 1)) with true
    by (symmetry; apply Rltb_true; lra).
  replace (fgt (Fin (1 / 2)) (Fin 10)) with false
    by (symmetry; apply Rltb_false; lra).
  cbn [orb fadd fsub fneg isnan]. rewrite orb_true_r. reflexivity.
Defined.


Lemma C5_PowerLaw_norm_witness :
  PowerLaw.norm_fact (PowerLaw.__init__ (Fin 2) (Fin 3) (Fin 1)) =
  Fin ((Rpower 3 (1 + 1) - Rpower 2 (1 + 1)) / (1 + 1)).
Proof.
  destruct (C5_PowerLaw_norm 2 3 1 ltac:(lra) ltac:(lra)) as [H _].
  apply H. lra.
Defined.

Lemma C6_PowerLawGaussian_witness :
  basic_1dimpdf.cdf
    (@PowerLawGaussian.as_pdf sigmoid_backend
       (@PowerLawGaussian.__init__ sigmoid_backend (Fin 1) (Fin 10) (Fin (-2))
          (Fin (1 / 4)) (Fin 5) (Fin 1) (Fin 2) (Fin 12)))
    [Fin 12] = Some [Fin 1].
Proof.
  assert (Hincr : forall x y, x < y -> @erf sigmoid_backend x < @erf sigmoid_backend y).
  { intros x y Hxy. simpl. apply Rmult_lt_compat_l.
    - apply Rdiv_lt_0_compat; [lra|apply PI_RGT_0].
    - apply atan_increasing. exact Hxy. }
  destruct (@C6_PowerLawGaussian sigmoid_backend 1 10 (-2) (1 / 4) 5 1 2 12
              Hincr ltac:(lra) ltac:(lra) ltac:(lra) ltac:(lra))
    as [_ [_ [HM H]]].
  rewrite HM in H. unfold Rmax in H.
  destruct (Rle_dec 10 12); [exact H|lra].
Defined.

Lemma C7_spline_construction_witness :
  exists w,
    SplineWrapper.__init__ [Fin 0; Fin 0; Fin 0] (Fin 3) = Some w /\
    SplineWrapper.delta_x (SplineWrapper.the_spline w) = Fin (2 * 3 / INR 2) /\
    nth_error (SplineWrapper.y_points (SplineWrapper.the_spline w)) 1 =
    Some (Fin 0).
Proof.
  assert (HT : Rsum (map (fun s => s + 1 / 2) [0; 0; 0]) <> 0).
  { unfold Rsum. simpl. lra. }
  destruct (C7_spline_construction [0; 0; 0] 3 ltac:(simpl; lia) HT
              ltac:(lra))
    as [w [Hw [_ [Hd [_ [_ [_ Hm]]]]]]].
  exists w. split; [exact Hw|]. split; [exact Hd|exact Hm].
Defined.

Lemma C8_binned_2d_mass_witness :
  exists d,
    P2.__init__ (Fin 0) (Fin 1) [Fin 1; Fin 2; Fin 3] = Some d /\
    P2.n_bins_1d d = 2%nat /\
    P2.total_mass d = Some (Fin 1).
Proof.
  assert (HS : half_diagonal_sum 2 [1; 2; 3] <> 0).
  { unfold half_diagonal_sum, Rsum. simpl. lra. }
  exact (C8_binned_2d_mass 2 0 1 [1; 2; 3] ltac:(lia) eq_refl
           ltac:(lra) HS).
Defined.

Lemma C10_BinModel1d_at_dist_max_witness :
  exists m,
    BinModel1d.__init__ (Fin 0) (Fin 1) [Fin 1; Fin 3] = Some m /\
    basic_1dimpdf.log_pdf (BinModel1d.as_pdf m) [Fin 1] = Some [NInf] /\
    basic_1dimpdf.pdf (BinModel1d.as_pdf m) [Fin 1] = Some [Fin 0].
Proof.
  assert (HS : Rsum [1; 3] <> 0) by (unfold Rsum; simpl; lra).
  destruct (C10_BinModel1d_at_dist_max 0 1 [1; 3] ltac:(lra) HS)
    as [m [Hm [_ [_ [_ [Hl Hp]]]]]].
  exists m. split; [exact Hm|]. split; [exact Hl|exact Hp].
Defined.

(** * Further properties of the code *)

(** ** Arithmetic of the numeric model *)

Lemma Fin_eq (a b : R) : a = b -> Fin a = Fin b.
Proof. intros ->. reflexivity. Qed.

Lemma fmul_1_r (a : float) : fmul a (Fin 1) = a.
Proof.
  destruct a; simpl; try reflexivity.
  - unfold inf_signed. rdec; try lra. reflexivity.
  - unfold inf_signed. rdec; try lra. reflexivity.
  - apply Fin_eq. lra.
Qed.

Lemma fadd_0_r (a : float) : fadd a (Fin 0) = a.
Proof. destruct a; simpl; try reflexivity. apply Fin_eq. lra. Qed.

Lemma fsub_0_r (a : float) : fsub a (Fin 0) = a.
Proof. destruct a; simpl; try reflexivity. apply Fin_eq. lra. Qed.

Ltac fclose :=
  simpl; unfold inf_signed;
  repeat match goal with
    | |- context [exp ?r] =>
        lazymatch goal with
        | H : 0 < exp r |- _ => fail
        | _ => pose proof (exp_pos r)
        end
    end;
  rdec; try lra; try reflexivity; try (apply Fin_eq; try lra).

Lemma fexp_fadd (a b : float) : fexp (fadd a b) = fmul (fexp a) (fexp b).
Proof. destruct a, b; fclose. apply exp_plus. Qed.

Lemma fexp_fsub (a b : float) : fexp (fsub a b) = fdiv (fexp a) (fexp b).
Proof.
  destruct a, b; fclose.
  unfold Rdiv. rewrite exp_plus, exp_Ropp. reflexivity.
Qed.

(** A value [exp] can return: zero or more, plus infinity, or not-a-number. *)
Lemma fexp_flog_nonneg (s : float) :
  (forall r, s = Fin r -> 0 <= r) -> s <> NInf -> fexp (flog s) = s.
Proof.
  intros Hs Hn. destruct s as [| | |r]; simpl; try reflexivity.
  - contradiction.
  - specialize (Hs r eq_refl). rdec; try lra; simpl.
    + apply Fin_eq. apply exp_ln. assumption.
    + apply Fin_eq. lra.
Qed.

Lemma fexp_range (a : float) :
  (forall r, fexp a = Fin r -> 0 <= r) /\ fexp a <> NInf.
Proof.
  destruct a; simpl; split; try discriminate.
  - intros r [= <-]. lra.
  - intros x [= <-]. apply Rlt_le, exp_pos.
Qed.

Lemma fexp_flogaddexp (a b : float) :
  fexp (flogaddexp a b) = fadd (fexp a) (fexp b).
Proof.
  unfold flogaddexp. apply fexp_flog_nonneg.
  - intros r E. destruct (fexp_range a) as [Ha _], (fexp_range b) as [Hb _].
    destruct (fexp a) as [| | |x], (fexp b) as [| | |y]; try discriminate.
    injection E as <-. specialize (Ha x eq_refl). specialize (Hb y eq_refl).
    lra.
  - destruct (fexp_range a) as [_ Ha], (fexp_range b) as [_ Hb].
    destruct (fexp a), (fexp b); simpl; try discriminate; try contradiction.
Qed.

(** ** The moments of the beta distribution *)

Lemma Rpower_two (x : R) : 0 < x -> Rpower x 2 = x * x.
Proof.
  intros Hx. replace 2 with (1 + 1) by lra.
  rewrite Rpower_plus, Rpower_1 by assumption. reflexivity.
Qed.

Lemma muvar2ab_value (mu var : R) :
  0 < mu -> var <> 0 ->
  betadistro_muvar2ab (Fin mu) (Fin var) =
  (Fin (((1 - mu) / var - 1 / mu) * (mu * mu)),
   Fin (((1 - mu) / var - 1 / mu) * (mu * mu) * (1 / mu - 1))).
Proof.
  intros Hmu Hvar. unfold betadistro_muvar2ab.
  rewrite fpower_pos by lra. rewrite Rpower_two by assumption.
  simpl. rdec; try lra. reflexivity.
Qed.

Lemma ab2muvar_value (a b : R) :
  0 < a + b ->
  betadistro_ab2muvar (Fin a) (Fin b) =
  (Fin (a / (a + b)),
   Fin (a * b / ((a + b) * (a + b) * (a + b + 1)))).
Proof.
  intros Hab. unfold betadistro_ab2muvar. cbn [fadd].
  rewrite fpower_pos by lra. rewrite Rpower_two by assumption.
  cbn [fmul fdiv]. destruct (Req_EM_T (a + b) 0); [lra|].
  destruct (Req_EM_T _ 0) as [E|_]; [|reflexivity].
  exfalso. assert (0 < (a + b) * (a + b) * (a + b + 1)); [|lra].
  apply Rmult_lt_0_compat; [apply Rmult_lt_0_compat|]; lra.
Qed.

(** X1.  For a mean [0 < mu < 1] and a variance [0 < var < mu (1 - mu)],
    [betadistro_muvar2ab] returns two positive parameters, and
    [betadistro_ab2muvar] maps them back to the mean and the variance. *)
Theorem betadistro_muvar_roundtrip (mu var : R) :
  0 < mu < 1 -> 0 < var < mu * (1 - mu) ->
  exists a b,
    betadistro_muvar2ab (Fin mu) (Fin var) = (Fin a, Fin b) /\
    0 < a /\ 0 < b /\
    betadistro_ab2muvar (Fin a) (Fin b) = (Fin mu, Fin var).
Proof.
  intros Hmu Hvar.
  set (k := (1 - mu) * mu / var - 1).
  assert (Hk : 0 < k).
  { unfold k. assert (1 < (1 - mu) * mu / var); [|lra].
    apply Rmult_lt_reg_r with var; [lra|]. field_simplify; lra. }
  assert (Ea : ((1 - mu) / var - 1 / mu) * (mu * mu) = mu * k)
    by (unfold k; field; lra).
  exists (mu * k), (mu * k * (1 / mu - 1)).
  assert (Ha : 0 < mu * k) by (apply Rmult_lt_0_compat; lra).
  assert (Eb : mu * k * (1 / mu - 1) = k * (1 - mu)) by (field; lra).
  assert (Hb : 0 < mu * k * (1 / mu - 1)).
  { rewrite Eb. apply Rmult_lt_0_compat; lra. }
  split; [|split; [exact Ha|split; [exact Hb|]]].
  - rewrite muvar2ab_value by lra. rewrite Ea. reflexivity.
  - rewrite ab2muvar_value by lra. rewrite Eb.
    assert (mu * k + k * (1 - mu) = k) by ring.
    f_equal; apply Fin_eq.
    + field. lra.
    + unfold k. field. repeat split; try lra; try nra.
Qed.

(** X2.  For parameters [a > 0] and [b > 0], [betadistro_ab2muvar] returns a
    mean and a variance from which [betadistro_muvar2ab] recovers [a] and
    [b]. *)
Theorem betadistro_ab_roundtrip (a b : R) :
  0 < a -> 0 < b ->
  exists mu var,
    betadistro_ab2muvar (Fin a) (Fin b) = (Fin mu, Fin var) /\
    0 < mu < 1 /\ 0 < var /\
    betadistro_muvar2ab (Fin mu) (Fin var) = (Fin a, Fin b).
Proof.
  intros Ha Hb.
  exists (a / (a + b)), (a * b / ((a + b) * (a + b) * (a + b + 1))).
  assert (Hs : 0 < a + b) by lra.
  assert (Hmu : 0 < a / (a + b) < 1).
  { split.
    - apply Rdiv_lt_0_compat; lra.
    - apply Rmult_lt_reg_r with (a + b); [lra|]. field_simplify; lra. }
  assert (Hd : 0 < (a + b) * (a + b) * (a + b + 1)).
  { apply Rmult_lt_0_compat; [apply Rmult_lt_0_compat|]; lra. }
  assert (Hvar : 0 < a * b / ((a + b) * (a + b) * (a + b + 1))).
  { apply Rdiv_lt_0_compat; [apply Rmult_lt_0_compat; lra|exact Hd]. }
  split; [apply ab2muvar_value; lra|]. split; [exact Hmu|].
  split; [exact Hvar|].
  rewrite muvar2ab_value by lra.
  f_equal; apply Fin_eq; field; repeat split; lra.
Qed.

(** ** The power law in closed form *)

Lemma Rpower_base_lt (x y e : R) :
  0 < x < y -> 0 < e -> Rpower x e < Rpower y e.
Proof. intros Hxy He. apply Rlt_Rpower_l; assumption. Qed.

Lemma Rpower_base_gt (x y e : R) :
  0 < x < y -> e < 0 -> Rpower y e < Rpower x e.
Proof.
  intros Hxy He. unfold Rpower. apply exp_increasing.
  assert (ln x < ln y) by (apply ln_increasing; lra). nra.
Qed.

Lemma PL_primitive_mn (mn a : R) : 0 < mn -> PL_primitive mn a mn = 0.
Proof.
  intros Hmn. unfold PL_primitive. destruct (Req_EM_T a (-1)).
  - replace (mn / mn) with 1 by (field; lra). apply ln_1.
  - unfold Rdiv. rewrite Rminus_diag. lra.
Qed.

Lemma PL_primitive_incr (mn a x y : R) :
  0 < mn -> 0 < x < y -> PL_primitive mn a x < PL_primitive mn a y.
Proof.
  intros Hmn Hxy. unfold PL_primitive. destruct (Req_EM_T a (-1)) as [->|Ha].
  - apply ln_increasing.
    + apply Rdiv_lt_0_compat; lra.
    + apply Rmult_lt_compat_r; [apply Rinv_0_lt_compat|]; lra.
  - destruct (Rlt_dec 0 (a + 1)) as [Hp|Hn].
    + pose proof (Rpower_base_lt x y (a + 1) Hxy Hp).
      apply Rmult_lt_compat_r; [apply Rinv_0_lt_compat|]; lra.
    + assert (Hneg : a + 1 < 0) by lra.
      pose proof (Rpower_base_gt x y (a + 1) Hxy Hneg).
      unfold Rdiv. assert (/ (a + 1) < 0) by (apply Rinv_lt_0_compat; lra).
      nra.
Qed.

Lemma PL_norm_pos (mn mx a : R) : 0 < mn < mx -> 0 < PL_norm mn mx a.
Proof.
  intros H. unfold PL_norm. rewrite <- (PL_primitive_mn mn a) by lra.
  apply PL_primitive_incr; lra.
Qed.

Lemma PL_normfact_value (mn mx a : R) :
  0 < mn -> 0 < mx ->
  PL_normfact (Fin mn) (Fin mx) (Fin a) = Fin (PL_norm mn mx a).
Proof.
  intros Hmn Hmx. unfold PL_norm, PL_primitive.
  destruct (Req_EM_T a (-1)) as [->|Ha].
  - apply PL_normfact_log; assumption.
  - apply PL_normfact_general; assumption.
Qed.

Lemma PL_pdf_elem (mn mx a x : R) :
  0 < mn < mx ->
  fexp (clamp_pdf (Fin mn) (Fin mx)
          (fun xi => fsub (fmul (Fin a) (flog xi)) (flog (Fin (PL_norm mn mx a))))
          (Fin x)) = Fin (PL_density mn mx a x).
Proof.
  intros H. pose proof (PL_norm_pos mn mx a H) as HN.
  unfold clamp_pdf, PL_density. simpl. unfold Rltb.
  destruct (Rlt_dec x mn); [reflexivity|].
  destruct (Rlt_dec mx x); [reflexivity|]. simpl.
  destruct (Rlt_dec 0 x); [|lra].
  destruct (Rlt_dec 0 (PL_norm mn mx a)); [|lra]. simpl.
  apply Fin_eq. unfold Rdiv, Rpower.
  rewrite exp_plus, exp_Ropp, exp_ln by assumption. reflexivity.
Qed.

Lemma PL_cdf_elem (mn mx a x : R) (k : float -> float) :
  0 < mn < mx ->
  (mn <= x <= mx -> k (Fin x) = flog (Fin (PL_primitive mn a x / PL_norm mn mx a))) ->
  fexp (clamp_cdf (Fin mn) (Fin mx) k (Fin x)) =
  Fin (PL_cumulative mn mx a x).
Proof.
  intros H Hk. pose proof (PL_norm_pos mn mx a H) as HN.
  unfold clamp_cdf, PL_cumulative. simpl. unfold Rltb.
  destruct (Rlt_dec mx x); [simpl; apply Fin_eq, exp_0|].
  destruct (Rlt_dec x mn); [reflexivity|].
  rewrite Hk by lra. apply fexp_flog_nonneg; [|discriminate].
  intros r [= <-]. apply Rmult_le_pos; [|apply Rlt_le, Rinv_0_lt_compat; lra].
  destruct (Req_EM_T x mn) as [->|Hne].
  - rewrite PL_primitive_mn by lra. lra.
  - rewrite <- (PL_primitive_mn mn a) by lra. apply Rlt_le.
    apply PL_primitive_incr; lra.
Qed.

Lemma PowerLaw_pdf_finite (mn mx a : R) (xs : list R) :
  0 < mn < mx ->
  basic_1dimpdf.pdf (PowerLaw.as_pdf (PowerLaw.__init__ (Fin mn) (Fin mx) (Fin a)))
    (map Fin xs) =
  Some (map Fin (map (PL_density mn mx a) xs)).
Proof.
  intros H. unfold basic_1dimpdf.pdf.
  rewrite (log_pdf_elementwise _
             (fun xi => fsub (fmul (Fin a) (flog xi))
                          (flog (Fin (PL_norm mn mx a))))).
  - cbn [bind PowerLaw.as_pdf PowerLaw.__init__ basic_1dimpdf.minval
         basic_1dimpdf.maxval PowerLaw.minval PowerLaw.maxval].
    rewrite !map_map. f_equal. apply map_ext. intros x.
    apply PL_pdf_elem. assumption.
  - cbn [PowerLaw.as_pdf basic_1dimpdf._log_pdf]. unfold PowerLaw._log_pdf.
    cbn [PowerLaw.__init__ PowerLaw.alpha PowerLaw.norm_fact].
    rewrite PL_normfact_value by lra. reflexivity.
Qed.

Lemma PowerLaw_cdf_finite (mn mx a : R) (xs : list R) :
  0 < mn < mx ->
  basic_1dimpdf.cdf (PowerLaw.as_pdf (PowerLaw.__init__ (Fin mn) (Fin mx) (Fin a)))
    (map Fin xs) =
  Some (map Fin (map (PL_cumulative mn mx a) xs)).
Proof.
  intros H. pose proof (PL_norm_pos mn mx a H) as HN. unfold basic_1dimpdf.cdf.
  destruct (Req_EM_T a (-1)) as [Ea|Ha].
  - rewrite (log_cdf_elementwise _
               (fun xi => flog (fdiv (flog (fdiv xi (Fin mn)))
                                     (Fin (PL_norm mn mx a))))).
    + cbn [bind PowerLaw.as_pdf PowerLaw.__init__ basic_1dimpdf.minval
           basic_1dimpdf.maxval PowerLaw.minval PowerLaw.maxval].
      rewrite !map_map. f_equal. apply map_ext. intros x.
      apply PL_cdf_elem; [assumption|]. intros Hx.
      unfold PL_primitive. destruct (Req_EM_T a (-1)); [|contradiction].
      cbn [fdiv]. destruct (Req_EM_T mn 0); [lra|]. cbn [flog].
      assert (0 < x / mn) by (apply Rdiv_lt_0_compat; lra).
      destruct (Rlt_dec 0 (x / mn)); [|lra]. cbn [fdiv].
      destruct (Req_EM_T (PL_norm mn mx a) 0); [lra|]. reflexivity.
    + cbn [PowerLaw.as_pdf basic_1dimpdf._log_cdf]. unfold PowerLaw._log_cdf.
      cbn [PowerLaw.__init__ PowerLaw.alpha PowerLaw.norm_fact
           PowerLaw.minval].
      rewrite PL_normfact_value by lra. rewrite Ea.
      replace (feq (Fin (-1)) (Fin (-1))) with true by (simpl; fcmp).
      reflexivity.
  - rewrite (log_cdf_elementwise _
               (fun xi =>
                  flog (fdiv (fdiv (fsub (fpower xi (Fin (a + 1)))
                                         (fpower (Fin mn) (Fin (a + 1))))
                                   (Fin (a + 1)))
                             (Fin (PL_norm mn mx a))))).
    + cbn [bind PowerLaw.as_pdf PowerLaw.__init__ basic_1dimpdf.minval
           basic_1dimpdf.maxval PowerLaw.minval PowerLaw.maxval].
      rewrite !map_map. f_equal. apply map_ext. intros x.
      apply PL_cdf_elem; [assumption|]. intros Hx.
      unfold PL_primitive. destruct (Req_EM_T a (-1)); [contradiction|].
      rewrite !fpower_pos by lra. cbn [fsub fneg fadd fdiv].
      destruct (Req_EM_T (a + 1) 0); [lra|]. cbn [fdiv].
      destruct (Req_EM_T (PL_norm mn mx a) 0); [lra|]. reflexivity.
    + cbn [PowerLaw.as_pdf basic_1dimpdf._log_cdf]. unfold PowerLaw._log_cdf.
      cbn [PowerLaw.__init__ PowerLaw.alpha PowerLaw.norm_fact
           PowerLaw.minpl fadd].
      rewrite PL_normfact_value by lra.
      replace (feq (Fin a) (Fin (-1))) with false by (simpl; fcmp).
      reflexivity.
Qed.

Lemma PL_primitive_le (mn a x y : R) :
  0 < mn -> 0 < x <= y -> PL_primitive mn a x <= PL_primitive mn a y.
Proof.
  intros Hmn [Hx [Hlt | ->]]; [|lra].
  apply Rlt_le, PL_primitive_incr; lra.
Qed.

Lemma PL_cumulative_range (mn mx a x : R) :
  0 < mn < mx -> 0 <= PL_cumulative mn mx a x <= 1.
Proof.
  intros H. pose proof (PL_norm_pos mn mx a H) as HN.
  unfold PL_cumulative. destruct (Rlt_dec mx x); [lra|].
  destruct (Rlt_dec x mn); [lra|].
  pose proof (PL_primitive_le mn a mn x ltac:(lra) ltac:(lra)) as H0.
  pose proof (PL_primitive_le mn a x mx ltac:(lra) ltac:(lra)) as H1.
  rewrite PL_primitive_mn in H0 by lra. fold (PL_norm mn mx a) in H1.
  split.
  - apply Rmult_le_pos; [lra|apply Rlt_le, Rinv_0_lt_compat; lra].
  - apply Rmult_le_reg_r with (PL_norm mn mx a); [lra|].
    unfold Rdiv. rewrite Rmult_assoc, Rinv_l by lra. lra.
Qed.

(** X3.  For [0 < minpl < maxpl] the density of [PowerLaw] at finite
    points is [x^alpha / norm_fact] on [[minpl, maxpl]], with a positive
    [norm_fact], and 0 outside. *)
Theorem PowerLaw_density_closed_form (mn mx a : R) (xs : list R) :
  0 < mn < mx ->
  basic_1dimpdf.pdf (PowerLaw.as_pdf (PowerLaw.__init__ (Fin mn) (Fin mx) (Fin a)))
    (map Fin xs) = Some (map Fin (map (PL_density mn mx a) xs)) /\
  PowerLaw.norm_fact (PowerLaw.__init__ (Fin mn) (Fin mx) (Fin a)) =
  Fin (PL_norm mn mx a) /\
  0 < PL_norm mn mx a /\
  (forall x, mn <= x <= mx ->
             PL_density mn mx a x = Rpower x a / PL_norm mn mx a) /\
  (forall x, x < mn \/ mx < x -> PL_density mn mx a x = 0).
Proof.
  intros H. split; [apply PowerLaw_pdf_finite; assumption|].
  split; [apply PL_normfact_value; lra|].
  split; [apply PL_norm_pos; assumption|]. split.
  - intros x Hx. unfold PL_density.
    destruct (Rlt_dec x mn); [lra|]. destruct (Rlt_dec mx x); [lra|].
    reflexivity.
  - intros x Hx. unfold PL_density.
    destruct (Rlt_dec x mn); [reflexivity|].
    destruct (Rlt_dec mx x); [reflexivity|lra].
Qed.

(** X4.  For [0 < minpl < maxpl] the cumulative of [PowerLaw] at finite
    points is 0 at [minpl] and below, 1 at [maxpl] and above, the normalised
    antiderivative of [x^alpha] in between, and it never decreases. *)
Theorem PowerLaw_cumulative_monotone (mn mx a : R) (xs : list R) :
  0 < mn < mx ->
  basic_1dimpdf.cdf (PowerLaw.as_pdf (PowerLaw.__init__ (Fin mn) (Fin mx) (Fin a)))
    (map Fin xs) = Some (map Fin (map (PL_cumulative mn mx a) xs)) /\
  (forall x, x <= mn -> PL_cumulative mn mx a x = 0) /\
  (forall x, mx <= x -> PL_cumulative mn mx a x = 1) /\
  (forall x, mn <= x <= mx ->
             PL_cumulative mn mx a x =
             PL_primitive mn a x / PL_primitive mn a mx) /\
  (forall x y, x <= y ->
               PL_cumulative mn mx a x <= PL_cumulative mn mx a y).
Proof.
  intros H. pose proof (PL_norm_pos mn mx a H) as HN.
  assert (Hin : forall x, mn <= x <= mx ->
                PL_cumulative mn mx a x =
                PL_primitive mn a x / PL_primitive mn a mx).
  { intros x Hx. unfold PL_cumulative.
    destruct (Rlt_dec mx x); [lra|]. destruct (Rlt_dec x mn); [lra|].
    reflexivity. }
  split; [apply PowerLaw_cdf_finite; assumption|]. split; [|split; [|split]].
  - intros x Hx. destruct (Req_EM_T x mn) as [->|Hne].
    + rewrite Hin by lra. rewrite PL_primitive_mn by lra. lra.
    + unfold PL_cumulative. destruct (Rlt_dec mx x); [lra|].
      destruct (Rlt_dec x mn); [reflexivity|lra].
  - intros x Hx. destruct (Req_EM_T x mx) as [->|Hne].
    + rewrite Hin by lra. fold (PL_norm mn mx a). field. lra.
    + unfold PL_cumulative. destruct (Rlt_dec mx x); [reflexivity|lra].
  - exact Hin.
  - intros x y Hxy.
    pose proof (PL_cumulative_range mn mx a x H) as Rx.
    pose proof (PL_cumulative_range mn mx a y H) as Ry.
    destruct (Rlt_dec mx y) as [Hy|Hy].
    { unfold PL_cumulative at 2. destruct (Rlt_dec mx y); [lra|contradiction]. }
    destruct (Rlt_dec x mn) as [Hx|Hx].
    { unfold PL_cumulative at 1. destruct (Rlt_dec mx x); [lra|].
      destruct (Rlt_dec x mn); [lra|contradiction]. }
    rewrite !Hin by lra. fold (PL_norm mn mx a).
    apply Rmult_le_compat_r; [apply Rlt_le, Rinv_0_lt_compat; lra|].
    apply PL_primitive_le; lra.
Qed.

Lemma PowerLaw_density_closed_form_witness :
  basic_1dimpdf.pdf (PowerLaw.as_pdf (PowerLaw.__init__ (Fin 1) (Fin 10) (Fin (-2))))
    (map Fin [1 / 2; 2]) = Some (map Fin (map (PL_density 1 10 (-2)) [1 / 2; 2])).
Proof.
  exact (proj1 (PowerLaw_density_closed_form 1 10 (-2) [1 / 2; 2] ltac:(lra))).
Defined.

Lemma PowerLaw_cumulative_monotone_witness :
  PL_cumulative 1 10 (-2) 2 <= PL_cumulative 1 10 (-2) 3.
Proof.
  destruct (PowerLaw_cumulative_monotone 1 10 (-2) [] ltac:(lra))
    as [_ [_ [_ [_ Hm]]]].
  apply Hm. lra.
Defined.

Lemma betadistro_muvar_roundtrip_witness :
  exists a b,
    betadistro_muvar2ab (Fin (1 / 2)) (Fin (1 / 12)) = (Fin a, Fin b) /\
    0 < a /\ 0 < b /\
    betadistro_ab2muvar (Fin a) (Fin b) = (Fin (1 / 2), Fin (1 / 12)).
Proof.
  exact (betadistro_muvar_roundtrip (1 / 2) (1 / 12) ltac:(lra) ltac:(lra)).
Defined.

Lemma betadistro_ab_roundtrip_witness :
  exists mu var,
    betadistro_ab2muvar (Fin 2) (Fin 3) = (Fin mu, Fin var) /\
    0 < mu < 1 /\ 0 < var /\
    betadistro_muvar2ab (Fin mu) (Fin var) = (Fin 2, Fin 3).
Proof.
  exact (betadistro_ab_roundtrip 2 3 ltac:(lra) ltac:(lra)).
Defined.

(** ** The truncated Gaussian in closed form *)

Lemma is_integer_2 : is_integer 2 = true /\ Z.odd (Int_part 2) = false.
Proof.
  assert (E : Int_part 2 = 2%Z).
  { replace 2 with (INR 2) by (simpl; lra). apply Int_part_INR. }
  split.
  - unfold is_integer, Reqb, frac_part. rewrite E.
    destruct (Req_EM_T (2 - 2) 0); [reflexivity|lra].
  - rewrite E. reflexivity.
Qed.

Lemma fpower_2 (b : R) : fpower (Fin b) (Fin 2) = Fin (b * b).
Proof.
  destruct is_integer_2 as [Hi Ho]. unfold fpower.
  destruct (Req_EM_T 2 0); [lra|].
  destruct (Rlt_dec 0 b).
  - rewrite Rpower_two by assumption. reflexivity.
  - destruct (Rlt_dec b 0).
    + rewrite Hi, Ho. rewrite Rpower_two by lra. apply Fin_eq. ring.
    + destruct (Rlt_dec 0 2); [|lra]. apply Fin_eq.
      assert (b = 0) as -> by lra. ring.
Qed.

Lemma TG_norm_pos `{Backend} (lo hi mu sg : R) :
  (forall x y, x < y -> erf x < erf y) ->
  0 < sg -> lo < hi -> 0 < TG_norm lo hi mu sg.
Proof.
  intros Herf Hsg Hb. unfold TG_norm, TG_z.
  assert (0 < sqrt 2) by (apply sqrt_lt_R0; lra).
  assert (erf ((lo - mu) / (sg * sqrt 2)) < erf ((hi - mu) / (sg * sqrt 2))).
  { apply Herf. apply Rmult_lt_compat_r; [|lra].
    apply Rinv_0_lt_compat, Rmult_lt_0_compat; lra. }
  lra.
Qed.

Lemma TG_z_le (mu sg x y : R) : 0 < sg -> x <= y -> TG_z mu sg x <= TG_z mu sg y.
Proof.
  intros Hsg Hxy. unfold TG_z.
  assert (0 < sqrt 2) by (apply sqrt_lt_R0; lra).
  apply Rmult_le_compat_r; [|lra].
  apply Rlt_le, Rinv_0_lt_compat, Rmult_lt_0_compat; lra.
Qed.

Lemma erf_le `{Backend} (x y : R) :
  (forall x y, x < y -> erf x < erf y) -> x <= y -> erf x <= erf y.
Proof. intros Herf [Hlt | ->]; [apply Rlt_le, Herf; assumption|lra]. Qed.

Lemma TG_init_norm `{Backend} (mu sg lo hi : R) :
  0 < sg ->
  TruncatedGaussian.norm_fact
    (TruncatedGaussian.__init__ (Fin mu) (Fin sg) (Fin lo) (Fin hi)) =
  Fin (TG_norm lo hi mu sg).
Proof.
  intros Hsg. cbn [TruncatedGaussian.__init__ TruncatedGaussian.norm_fact].
  rewrite gaussian_norm_value by assumption. reflexivity.
Qed.

Lemma TG_log_pdf_kernel `{Backend} (mu sg lo hi : R) (x : array) :
  0 < sg -> 0 < TG_norm lo hi mu sg ->
  TruncatedGaussian._log_pdf
    (TruncatedGaussian.__init__ (Fin mu) (Fin sg) (Fin lo) (Fin hi)) x =
  map (fun xi =>
         fsub (fsub (fsub (Fin (- ln sg)) (Fin (1 / 2 * ln (2 * PI))))
                    (fmul (Fin (1 / 2))
                       (fpower (fdiv (fsub xi (Fin mu)) (Fin sg)) (Fin 2))))
              (Fin (ln (TG_norm lo hi mu sg)))) x.
Proof.
  intros Hsg HN. unfold TruncatedGaussian._log_pdf.
  rewrite TG_init_norm by assumption.
  cbn [TruncatedGaussian.__init__ TruncatedGaussian.sigmag
       TruncatedGaussian.meang].
  apply map_ext. intros xi.
  assert (Hpi : 0 < 2 * PI) by (pose proof PI_RGT_0; lra).
  replace (flog (Fin sg)) with (Fin (ln sg))
    by (simpl; destruct (Rlt_dec 0 sg); [reflexivity|lra]).
  replace (flog (Fin (2 * PI))) with (Fin (ln (2 * PI)))
    by (simpl; destruct (Rlt_dec 0 (2 * PI)); [reflexivity|lra]).
  replace (flog (Fin (TG_norm lo hi mu sg))) with (Fin (ln (TG_norm lo hi mu sg)))
    by (simpl; destruct (Rlt_dec 0 (TG_norm lo hi mu sg)); [reflexivity|lra]).
  reflexivity.
Qed.

Lemma TG_pdf_elem `{Backend} (mu sg lo hi x : R) :
  0 < sg ->
  fexp (clamp_pdf (Fin lo) (Fin hi)
          (fun xi =>
             fsub (fsub (fsub (Fin (- ln sg)) (Fin (1 / 2 * ln (2 * PI))))
                        (fmul (Fin (1 / 2))
                           (fpower (fdiv (fsub xi (Fin mu)) (Fin sg)) (Fin 2))))
                  (Fin (ln (TG_norm lo hi mu sg))))
          (Fin x)) = Fin (TG_density lo hi mu sg x).
Proof.
  intros Hsg. unfold clamp_pdf, TG_density. simpl (flt _ _). simpl (fgt _ _).
  unfold Rltb. destruct (Rlt_dec x lo); [reflexivity|].
  destruct (Rlt_dec hi x); [reflexivity|]. cbn [orb].
  cbn [fsub fneg fadd fdiv]. destruct (Req_EM_T sg 0); [lra|].
  rewrite fpower_2. cbn [fmul fsub fneg fadd fexp].
  apply Fin_eq. f_equal; unfold TG_log_density, Rminus; ring.
Qed.

Lemma TG_cdf_elem `{Backend} (mu sg lo hi x : R) :
  (forall x y, x < y -> erf x < erf y) ->
  0 < sg -> lo < hi ->
  fexp (clamp_cdf (Fin lo) (Fin hi)
          (fun xi =>
             let max_point := fdiv (fsub xi (Fin mu))
                                (fmul (Fin sg) (fsqrt (Fin 2))) in
             let min_point := fdiv (fsub (Fin lo) (Fin mu))
                                (fmul (Fin sg) (fsqrt (Fin 2))) in
             flog (fdiv (fsub (fmul (Fin (1 / 2)) (ferf max_point))
                              (fmul (Fin (1 / 2)) (ferf min_point)))
                        (Fin (TG_norm lo hi mu sg))))
          (Fin x)) = Fin (TG_cumulative lo hi mu sg x).
Proof.
  intros Herf Hsg Hb. pose proof (TG_norm_pos lo hi mu sg Herf Hsg Hb) as HN.
  unfold clamp_cdf, TG_cumulative. simpl (flt _ _). simpl (fgt _ _).
  unfold Rltb. destruct (Rlt_dec hi x); [simpl; apply Fin_eq, exp_0|].
  destruct (Rlt_dec x lo); [reflexivity|].
  assert (0 < sqrt 2) by (apply sqrt_lt_R0; lra).
  assert (sg * sqrt 2 <> 0) by (apply Rgt_not_eq, Rmult_lt_0_compat; lra).
  cbn [fsqrt]. destruct (Rlt_dec 2 0); [lra|].
  cbn [fmul fsub fneg fadd fdiv].
  destruct (Req_EM_T (sg * sqrt 2) 0); [contradiction|].
  cbn [ferf fmul fsub fneg fadd fdiv].
  destruct (Req_EM_T (TG_norm lo hi mu sg) 0); [lra|].
  rewrite fexp_flog_nonneg; [|intros r [= <-]|discriminate].
  - apply Fin_eq. unfold TG_z, Rminus. reflexivity.
  - apply Rmult_le_pos; [|apply Rlt_le, Rinv_0_lt_compat; assumption].
    pose proof (erf_le _ _ Herf (TG_z_le mu sg lo x Hsg ltac:(lra))) as Hle.
    unfold TG_z, Rminus in Hle. lra.
Qed.

Lemma TruncatedGaussian_pdf_finite `{Backend} (mu sg lo hi : R) (xs : list R) :
  (forall x y, x < y -> erf x < erf y) ->
  0 < sg -> lo < hi ->
  basic_1dimpdf.pdf
    (TruncatedGaussian.as_pdf
       (TruncatedGaussian.__init__ (Fin mu) (Fin sg) (Fin lo) (Fin hi)))
    (map Fin xs) = Some (map Fin (map (TG_density lo hi mu sg) xs)).
Proof.
  intros Herf Hsg Hb. pose proof (TG_norm_pos lo hi mu sg Herf Hsg Hb) as HN.
  unfold basic_1dimpdf.pdf.
  erewrite log_pdf_elementwise.
  2:{ cbn [TruncatedGaussian.as_pdf basic_1dimpdf._log_pdf].
      rewrite TG_log_pdf_kernel by assumption. reflexivity. }
  cbn [bind TruncatedGaussian.as_pdf TruncatedGaussian.__init__
       basic_1dimpdf.minval basic_1dimpdf.maxval TruncatedGaussian.minval
       TruncatedGaussian.maxval].
  rewrite !map_map. f_equal. apply map_ext. intros x.
  apply TG_pdf_elem. assumption.
Qed.

Lemma TruncatedGaussian_cdf_finite `{Backend} (mu sg lo hi : R) (xs : list R) :
  (forall x y, x < y -> erf x < erf y) ->
  0 < sg -> lo < hi ->
  basic_1dimpdf.cdf
    (TruncatedGaussian.as_pdf
       (TruncatedGaussian.__init__ (Fin mu) (Fin sg) (Fin lo) (Fin hi)))
    (map Fin xs) = Some (map Fin (map (TG_cumulative lo hi mu sg) xs)).
Proof.
  intros Herf Hsg Hb. unfold basic_1dimpdf.cdf.
  erewrite log_cdf_elementwise.
  2:{ cbn [TruncatedGaussian.as_pdf basic_1dimpdf._log_cdf].
      unfold TruncatedGaussian._log_cdf.
      rewrite TG_init_norm by assumption.
      cbn [TruncatedGaussian.__init__ TruncatedGaussian.sigmag
           TruncatedGaussian.meang TruncatedGaussian.ming].
      reflexivity. }
  cbn [bind TruncatedGaussian.as_pdf TruncatedGaussian.__init__
       basic_1dimpdf.minval basic_1dimpdf.maxval TruncatedGaussian.minval
       TruncatedGaussian.maxval].
  rewrite !map_map. f_equal. apply map_ext. intros x.
  apply (TG_cdf_elem mu sg lo hi x Herf Hsg Hb).
Qed.

(** X5.  For [sigma > 0], [ming < maxg] and an increasing [erf], the
    cumulative of [TruncatedGaussian] at finite points is 0 at [ming] and
    below, 1 at [maxg] and above, and never decreases. *)
Theorem TruncatedGaussian_cumulative_monotone `{Backend}
  (mu sg lo hi : R) (xs : list R) :
  (forall x y, x < y -> erf x < erf y) ->
  0 < sg -> lo < hi ->
  basic_1dimpdf.cdf
    (TruncatedGaussian.as_pdf
       (TruncatedGaussian.__init__ (Fin mu) (Fin sg) (Fin lo) (Fin hi)))
    (map Fin xs) = Some (map Fin (map (TG_cumulative lo hi mu sg) xs)) /\
  (forall x, x <= lo -> TG_cumulative lo hi mu sg x = 0) /\
  (forall x, hi <= x -> TG_cumulative lo hi mu sg x = 1) /\
  (forall x y, x <= y ->
               TG_cumulative lo hi mu sg x <= TG_cumulative lo hi mu sg y).
Proof.
  intros Herf Hsg Hb. pose proof (TG_norm_pos lo hi mu sg Herf Hsg Hb) as HN.
  assert (Hin : forall x, lo <= x <= hi ->
    TG_cumulative lo hi mu sg x =
    (1 / 2 * erf (TG_z mu sg x) - 1 / 2 * erf (TG_z mu sg lo))
    / TG_norm lo hi mu sg).
  { intros x Hx. unfold TG_cumulative.
    destruct (Rlt_dec hi x); [lra|]. destruct (Rlt_dec x lo); [lra|].
    reflexivity. }
  assert (Hrange : forall x, 0 <= TG_cumulative lo hi mu sg x <= 1).
  { intros x. unfold TG_cumulative. destruct (Rlt_dec hi x); [lra|].
    destruct (Rlt_dec x lo); [lra|].
    pose proof (erf_le _ _ Herf (TG_z_le mu sg lo x Hsg ltac:(lra))).
    pose proof (erf_le _ _ Herf (TG_z_le mu sg x hi Hsg ltac:(lra))).
    split.
    - apply Rmult_le_pos; [lra|apply Rlt_le, Rinv_0_lt_compat; lra].
    - apply Rmult_le_reg_r with (TG_norm lo hi mu sg); [lra|].
      unfold Rdiv. rewrite Rmult_assoc, Rinv_l by lra.
      unfold TG_norm in *. lra. }
  split; [apply TruncatedGaussian_cdf_finite; assumption|].
  split; [|split].
  - intros x Hx. destruct (Req_EM_T x lo) as [->|Hne].
    + rewrite Hin by lra. unfold Rdiv. rewrite Rminus_diag. lra.
    + unfold TG_cumulative. destruct (Rlt_dec hi x); [lra|].
      destruct (Rlt_dec x lo); [reflexivity|lra].
  - intros x Hx. destruct (Req_EM_T x hi) as [->|Hne].
    + rewrite Hin by lra. fold (TG_norm lo hi mu sg). field. lra.
    + unfold TG_cumulative. destruct (Rlt_dec hi x); [reflexivity|lra].
  - intros x y Hxy. pose proof (Hrange x). pose proof (Hrange y).
    destruct (Rlt_dec hi y) as [Hy|Hy].
    { unfold TG_cumulative at 2. destruct (Rlt_dec hi y); [lra|contradiction]. }
    destruct (Rlt_dec x lo) as [Hx|Hx].
    { unfold TG_cumulative at 1. destruct (Rlt_dec hi x); [lra|].
      destruct (Rlt_dec x lo); [lra|contradiction]. }
    rewrite !Hin by lra.
    apply Rmult_le_compat_r; [apply Rlt_le, Rinv_0_lt_compat; lra|].
    pose proof (erf_le _ _ Herf (TG_z_le mu sg x y Hsg Hxy)). lra.
Qed.

(** X6.  For [sigma > 0], [ming < maxg] and an increasing [erf], the
    density of [TruncatedGaussian] at finite points is 0 outside [[ming,
    maxg]] and, inside, takes the same value at two points at one distance
    on either side of the mean. *)
Theorem TruncatedGaussian_density_symmetric `{Backend}
  (mu sg lo hi : R) (xs : list R) :
  (forall x y, x < y -> erf x < erf y) ->
  0 < sg -> lo < hi ->
  basic_1dimpdf.pdf
    (TruncatedGaussian.as_pdf
       (TruncatedGaussian.__init__ (Fin mu) (Fin sg) (Fin lo) (Fin hi)))
    (map Fin xs) = Some (map Fin (map (TG_density lo hi mu sg) xs)) /\
  (forall x, x < lo \/ hi < x -> TG_density lo hi mu sg x = 0) /\
  (forall t, lo <= mu - t <= hi -> lo <= mu + t <= hi ->
             TG_density lo hi mu sg (mu + t) = TG_density lo hi mu sg (mu - t)).
Proof.
  intros Herf Hsg Hb.
  split; [apply TruncatedGaussian_pdf_finite; assumption|]. split.
  - intros x Hx. unfold TG_density.
    destruct (Rlt_dec x lo); [reflexivity|].
    destruct (Rlt_dec hi x); [reflexivity|lra].
  - intros t Hm Hp. unfold TG_density.
    destruct (Rlt_dec (mu + t) lo); [lra|].
    destruct (Rlt_dec hi (mu + t)); [lra|].
    destruct (Rlt_dec (mu - t) lo); [lra|].
    destruct (Rlt_dec hi (mu - t)); [lra|].
    f_equal. unfold TG_log_density.
    replace (mu + t - mu) with t by ring.
    replace (mu - t - mu) with (- t) by ring.
    field. lra.
Qed.

Lemma TruncatedGaussian_cumulative_monotone_witness :
  @TG_cumulative sigmoid_backend (-1) 1 0 1 (-1 / 2) <=
  @TG_cumulative sigmoid_backend (-1) 1 0 1 (1 / 2).
Proof.
  assert (Hincr : forall x y, x < y ->
                  @erf sigmoid_backend x < @erf sigmoid_backend y).
  { intros x y Hxy. simpl. apply Rmult_lt_compat_l.
    - apply Rdiv_lt_0_compat; [lra|apply PI_RGT_0].
    - apply atan_increasing. exact Hxy. }
  destruct (@TruncatedGaussian_cumulative_monotone sigmoid_backend
              0 1 (-1) 1 [] Hincr ltac:(lra) ltac:(lra)) as [_ [_ [_ Hm]]].
  apply Hm. lra.
Defined.

Lemma TruncatedGaussian_density_symmetric_witness :
  basic_1dimpdf.pdf
    (@TruncatedGaussian.as_pdf sigmoid_backend
       (@TruncatedGaussian.__init__ sigmoid_backend
          (Fin 0) (Fin 1) (Fin (-1)) (Fin 1)))
    (map Fin [1 / 2; -1 / 2; 2]) =
  Some (map Fin (map (@TG_density sigmoid_backend (-1) 1 0 1)
                   [1 / 2; -1 / 2; 2])) /\
  @TG_density sigmoid_backend (-1) 1 0 1 2 = 0 /\
  @TG_density sigmoid_backend (-1) 1 0 1 (0 + 1 / 2) =
  @TG_density sigmoid_backend (-1) 1 0 1 (0 - 1 / 2).
Proof.
  assert (Hincr : forall x y, x < y ->
                  @erf sigmoid_backend x < @erf sigmoid_backend y).
  { intros x y Hxy. simpl. apply Rmult_lt_compat_l.
    - apply Rdiv_lt_0_compat; [lra|apply PI_RGT_0].
    - apply atan_increasing. exact Hxy. }
  destruct (@TruncatedGaussian_density_symmetric sigmoid_backend
              0 1 (-1) 1 [1 / 2; -1 / 2; 2] Hincr ltac:(lra) ltac:(lra))
    as [Hp [Hz Hs]].
  split; [exact Hp|]. split; [apply Hz; lra|apply Hs; lra].
Defined.

(** ** Mixtures of the building blocks *)

Lemma sigmoid_erf_incr (x y : R) :
  x < y -> @erf sigmoid_backend x < @erf sigmoid_backend y.
Proof.
  intros Hxy. simpl. apply Rmult_lt_compat_l.
  - apply Rdiv_lt_0_compat; [lra|apply PI_RGT_0].
  - apply atan_increasing. exact Hxy.
Qed.

Lemma map_on_fin (g : R -> float) (xs : list R) :
  map (on_fin g) (map Fin xs) = map g xs.
Proof. rewrite map_map. reflexivity. Qed.

Lemma combine_same_map {A B C} (g : A -> B) (h : A -> C) (x : list A) :
  combine (map g x) (map h x) = map (fun xi => (g xi, h xi)) x.
Proof. induction x as [|x0 x IH]; simpl; [reflexivity|]. rewrite IH. reflexivity. Qed.

Lemma broadcast2_map_map {A C} (f : float -> float -> C) (g h : A -> float)
  (x : list A) :
  broadcast2 f (map g x) (map h x) = Some (map (fun xi => f (g xi) (h xi)) x).
Proof.
  rewrite broadcast2_same_length by (rewrite !length_map; reflexivity).
  rewrite combine_same_map, map_map. reflexivity.
Qed.

Lemma broadcast2_map_one {A C} (f : float -> float -> C) (g : A -> float)
  (s : float) (x : list A) :
  broadcast2 f (map g x) [s] = Some (map (fun xi => f (g xi) s) x).
Proof.
  rewrite <- (map_map g (fun y => f y s)).
  destruct (map g x) as [|a0 [|a1 a]]; reflexivity.
Qed.

Lemma PowerLaw_log_pdf_map (mn mx a : R) (x : array) :
  0 < mn < mx ->
  basic_1dimpdf.log_pdf
    (PowerLaw.as_pdf (PowerLaw.__init__ (Fin mn) (Fin mx) (Fin a))) x =
  Some (map (clamp_pdf (Fin mn) (Fin mx) (PL_kernel mn mx a)) x).
Proof.
  intros H.
  rewrite (log_pdf_elementwise _ (PL_kernel mn mx a)); [reflexivity|].
  cbn [PowerLaw.as_pdf basic_1dimpdf._log_pdf]. unfold PowerLaw._log_pdf.
  cbn [PowerLaw.__init__ PowerLaw.alpha PowerLaw.norm_fact].
  rewrite PL_normfact_value by lra. reflexivity.
Qed.

Lemma TruncatedGaussian_log_pdf_map `{Backend} (mu sg lo hi : R) (x : array) :
  0 < sg -> 0 < TG_norm lo hi mu sg ->
  basic_1dimpdf.log_pdf
    (TruncatedGaussian.as_pdf
       (TruncatedGaussian.__init__ (Fin mu) (Fin sg) (Fin lo) (Fin hi))) x =
  Some (map (clamp_pdf (Fin lo) (Fin hi) (TG_kernel lo hi mu sg)) x).
Proof.
  intros Hsg HN.
  rewrite (log_pdf_elementwise _ (TG_kernel lo hi mu sg)); [reflexivity|].
  cbn [TruncatedGaussian.as_pdf basic_1dimpdf._log_pdf].
  rewrite TG_log_pdf_kernel by assumption. reflexivity.
Qed.

Lemma PL_kernel_exp (mn mx a x : R) :
  0 < mn < mx ->
  fexp (clamp_pdf (Fin mn) (Fin mx) (PL_kernel mn mx a) (Fin x)) =
  Fin (PL_density mn mx a x).
Proof. intros H. exact (PL_pdf_elem mn mx a x H). Qed.

Lemma TG_kernel_exp `{Backend} (lo hi mu sg x : R) :
  0 < sg ->
  fexp (clamp_pdf (Fin lo) (Fin hi) (TG_kernel lo hi mu sg) (Fin x)) =
  Fin (TG_density lo hi mu sg x).
Proof. intros H0. exact (TG_pdf_elem mu sg lo hi x H0). Qed.

Lemma fexp_flog_Fin (l : R) : 0 <= l -> fexp (flog (Fin l)) = Fin l.
Proof.
  intros Hl. apply fexp_flog_nonneg; [|discriminate].
  intros r [= <-]. assumption.
Qed.

Lemma fexp_flog1p_neg (l : R) :
  l <= 1 -> fexp (flog1p (fneg (Fin l))) = Fin (1 - l).
Proof.
  intros Hl. unfold flog1p. cbn [fneg fadd]. rewrite fexp_flog_Fin by lra.
  apply Fin_eq. ring.
Qed.

Lemma clamp_pdf_outer (lo hi : R) (K : float -> float) (x v : R) :
  (x < lo \/ hi < x -> v = 0) ->
  (lo <= x <= hi -> fexp (K (Fin x)) = Fin v) ->
  fexp (clamp_pdf (Fin lo) (Fin hi) K (Fin x)) = Fin v.
Proof.
  intros Hout Hin. unfold clamp_pdf. simpl (flt _ _). simpl (fgt _ _).
  unfold Rltb. destruct (Rlt_dec x lo).
  { cbn [orb fexp]. rewrite Hout by (left; assumption). reflexivity. }
  destruct (Rlt_dec hi x).
  { cbn [orb fexp]. rewrite Hout by (right; assumption). reflexivity. }
  cbn [orb]. apply Hin. lra.
Qed.

Lemma clamp_cdf_outer (lo hi : R) (K : float -> float) (x v : R) :
  (hi < x -> v = 1) ->
  (x <= hi -> x < lo -> v = 0) ->
  (lo <= x <= hi -> fexp (K (Fin x)) = Fin v) ->
  fexp (clamp_cdf (Fin lo) (Fin hi) K (Fin x)) = Fin v.
Proof.
  intros Hhi Hlo Hin. unfold clamp_cdf. simpl (flt _ _). simpl (fgt _ _).
  unfold Rltb. destruct (Rlt_dec hi x).
  { rewrite Hhi by assumption. simpl. apply Fin_eq, exp_0. }
  destruct (Rlt_dec x lo).
  { rewrite Hlo by lra. reflexivity. }
  apply Hin. lra.
Qed.

Lemma PL_density_outside (mn mx a x : R) :
  x < mn \/ mx < x -> PL_density mn mx a x = 0.
Proof.
  intros Hx. unfold PL_density. destruct (Rlt_dec x mn); [reflexivity|].
  destruct (Rlt_dec mx x); [reflexivity|lra].
Qed.

Lemma TG_density_outside `{Backend} (lo hi mu sg x : R) :
  x < lo \/ hi < x -> TG_density lo hi mu sg x = 0.
Proof.
  intros Hx. unfold TG_density. destruct (Rlt_dec x lo); [reflexivity|].
  destruct (Rlt_dec hi x); [reflexivity|lra].
Qed.

Lemma Rmin_lt_both (a b x : R) : x < Rmin a b -> x < a /\ x < b.
Proof. intros Hx. pose proof (Rmin_l a b). pose proof (Rmin_r a b). lra. Qed.

Lemma Rmax_lt_both (a b x : R) : Rmax a b < x -> a < x /\ b < x.
Proof. intros Hx. pose proof (Rmax_l a b). pose proof (Rmax_r a b). lra. Qed.

(** X7.  For valid parameters and a weight [lambdag] in [[0,1]], the density
    of [PowerLawGaussian] at finite points is the weighted sum
    [(1 - lambdag) * PL.pdf + lambdag * TG.pdf] of the densities of its two
    parts, on the whole line. *)
Theorem PowerLawGaussian_density_mixture `{Backend}
  (mn mx a l mu sg lo hi : R) (xs : list R) :
  (forall x y, x < y -> erf x < erf y) ->
  0 < mn < mx -> 0 < sg -> lo < hi -> 0 <= l <= 1 ->
  basic_1dimpdf.pdf
    (PowerLawGaussian.as_pdf
       (PowerLawGaussian.__init__ (Fin mn) (Fin mx) (Fin a) (Fin l)
          (Fin mu) (Fin sg) (Fin lo) (Fin hi)))
    (map Fin xs) =
  Some (map Fin
          (map (fun x => (1 - l) * PL_density mn mx a x
                         + l * TG_density lo hi mu sg x) xs)).
Proof.
  intros Herf Hpl Hsg Hb Hl.
  pose proof (TG_norm_pos lo hi mu sg Herf Hsg Hb) as HN.
  unfold basic_1dimpdf.pdf.
  erewrite log_pdf_elementwise.
  2:{ cbn [PowerLawGaussian.as_pdf basic_1dimpdf._log_pdf].
      unfold PowerLawGaussian._log_pdf.
      cbn [PowerLawGaussian.__init__ PowerLawGaussian.PL PowerLawGaussian.TG
           PowerLawGaussian.lambdag].
      generalize (map Fin xs). intros X.
      rewrite PowerLaw_log_pdf_map by assumption. cbn [bind].
      rewrite TruncatedGaussian_log_pdf_map by assumption. cbn [bind].
      rewrite !map_map. rewrite broadcast2_map_map. reflexivity. }
  cbn [bind PowerLawGaussian.as_pdf PowerLawGaussian.__init__
       basic_1dimpdf.minval basic_1dimpdf.maxval PowerLawGaussian.minval
       PowerLawGaussian.maxval].
  rewrite fmin_Fin, fmax_Fin, !map_map. f_equal. apply map_ext. intros x.
  apply clamp_pdf_outer.
  - intros [Hx|Hx].
    + apply Rmin_lt_both in Hx. destruct Hx.
      rewrite PL_density_outside, TG_density_outside by (left; assumption).
      ring.
    + apply Rmax_lt_both in Hx. destruct Hx.
      rewrite PL_density_outside, TG_density_outside by (right; assumption).
      ring.
  - intros _. rewrite fexp_flogaddexp, !fexp_fadd.
    rewrite PL_kernel_exp, TG_kernel_exp by assumption.
    rewrite fexp_flog1p_neg, fexp_flog_Fin by lra. reflexivity.
Qed.

Lemma PowerLawGaussian_density_mixture_witness :
  basic_1dimpdf.pdf
    (@PowerLawGaussian.as_pdf sigmoid_backend
       (@PowerLawGaussian.__init__ sigmoid_backend (Fin 1) (Fin 2) (Fin 0)
          (Fin (1 / 2)) (Fin 0) (Fin 1) (Fin (-1)) (Fin 1)))
    (map Fin [3]) =
  Some (map Fin
          (map (fun x => (1 - 1 / 2) * PL_density 1 2 0 x
                         + 1 / 2 * @TG_density sigmoid_backend (-1) 1 0 1 x)
             [3])).
Proof.
  apply (@PowerLawGaussian_density_mixture sigmoid_backend
           1 2 0 (1 / 2) 0 1 (-1) 1 [3] sigmoid_erf_incr); lra.
Defined.

Lemma PL_cumulative_low (mn mx a x : R) :
  0 < mn < mx -> x <= mn -> PL_cumulative mn mx a x = 0.
Proof.
  intros H Hx. unfold PL_cumulative. destruct (Rlt_dec mx x); [lra|].
  destruct (Rlt_dec x mn); [reflexivity|].
  replace x with mn by lra. rewrite PL_primitive_mn by lra. lra.
Qed.

Lemma PL_cumulative_high (mn mx a x : R) :
  0 < mn < mx -> mx <= x -> PL_cumulative mn mx a x = 1.
Proof.
  intros H Hx. pose proof (PL_norm_pos mn mx a H) as HN.
  unfold PL_cumulative. destruct (Rlt_dec mx x); [reflexivity|].
  destruct (Rlt_dec x mn); [lra|].
  replace x with mx by lra. fold (PL_norm mn mx a). field. lra.
Qed.

Lemma PL_cumulative_le (mn mx a x y : R) :
  0 < mn < mx -> x <= y -> PL_cumulative mn mx a x <= PL_cumulative mn mx a y.
Proof.
  intros H Hxy. pose proof (PL_norm_pos mn mx a H) as HN.
  pose proof (PL_cumulative_range mn mx a x H) as Rx.
  pose proof (PL_cumulative_range mn mx a y H) as Ry.
  destruct (Rlt_dec mx y) as [Hy|Hy].
  { rewrite (PL_cumulative_high mn mx a y) by lra. lra. }
  destruct (Rlt_dec x mn) as [Hx|Hx].
  { rewrite (PL_cumulative_low mn mx a x) by lra. lra. }
  unfold PL_cumulative.
  destruct (Rlt_dec mx x); [lra|]. destruct (Rlt_dec x mn); [lra|].
  destruct (Rlt_dec mx y); [lra|]. destruct (Rlt_dec y mn); [lra|].
  apply Rmult_le_compat_r; [apply Rlt_le, Rinv_0_lt_compat; lra|].
  apply PL_primitive_le; lra.
Qed.

Section TG_cumulative_facts.

Context `{Backend}.
Variables lo hi mu sg : R.
Hypothesis Herf : forall x y, x < y -> erf x < erf y.
Hypothesis Hsg : 0 < sg.
Hypothesis Hb : lo < hi.

Lemma TG_cumulative_range (x : R) : 0 <= TG_cumulative lo hi mu sg x <= 1.
Proof.
  pose proof (TG_norm_pos lo hi mu sg Herf Hsg Hb) as HN.
  unfold TG_cumulative. destruct (Rlt_dec hi x); [lra|].
  destruct (Rlt_dec x lo); [lra|].
  pose proof (erf_le _ _ Herf (TG_z_le mu sg lo x Hsg ltac:(lra))).
  pose proof (erf_le _ _ Herf (TG_z_le mu sg x hi Hsg ltac:(lra))).
  split.
  - apply Rmult_le_pos; [lra|apply Rlt_le, Rinv_0_lt_compat; lra].
  - apply Rmult_le_reg_r with (TG_norm lo hi mu sg); [lra|].
    unfold Rdiv. rewrite Rmult_assoc, Rinv_l by lra.
    unfold TG_norm in *. lra.
Qed.

Lemma TG_cumulative_low (x : R) : x <= lo -> TG_cumulative lo hi mu sg x = 0.
Proof.
  intros Hx. unfold TG_cumulative. destruct (Rlt_dec hi x); [lra|].
  destruct (Rlt_dec x lo); [reflexivity|].
  replace x with lo by lra. unfold Rdiv. rewrite Rminus_diag. lra.
Qed.

Lemma TG_cumulative_high (x : R) : hi <= x -> TG_cumulative lo hi mu sg x = 1.
Proof.
  intros Hx. pose proof (TG_norm_pos lo hi mu sg Herf Hsg Hb) as HN.
  unfold TG_cumulative. destruct (Rlt_dec hi x); [reflexivity|].
  destruct (Rlt_dec x lo); [lra|].
  replace x with hi by lra. fold (TG_norm lo hi mu sg). field. lra.
Qed.

Lemma TG_cumulative_le (x y : R) :
  x <= y -> TG_cumulative lo hi mu sg x <= TG_cumulative lo hi mu sg y.
Proof.
  intros Hxy. pose proof (TG_norm_pos lo hi mu sg Herf Hsg Hb) as HN.
  pose proof (TG_cumulative_range x). pose proof (TG_cumulative_range y).
  destruct (Rlt_dec hi y) as [Hy|Hy].
  { rewrite (TG_cumulative_high y) by lra. lra. }
  destruct (Rlt_dec x lo) as [Hx|Hx].
  { rewrite (TG_cumulative_low x) by lra. lra. }
  unfold TG_cumulative.
  destruct (Rlt_dec hi x); [lra|]. destruct (Rlt_dec x lo); [lra|].
  destruct (Rlt_dec hi y); [lra|]. destruct (Rlt_dec y lo); [lra|].
  apply Rmult_le_compat_r; [apply Rlt_le, Rinv_0_lt_compat; lra|].
  pose proof (erf_le _ _ Herf (TG_z_le mu sg x y Hsg Hxy)). lra.
Qed.

End TG_cumulative_facts.

(** X8.  For valid parameters and a weight [lambdag] in [[0,1]], the
    cumulative of [PowerLawGaussian] at finite points is
    [(1 - lambdag) * PL.cdf + lambdag * TG.cdf]; it is 0 at the lower bound
    of the mixture, 1 at its upper bound, and never decreases. *)
Theorem PowerLawGaussian_cumulative_mixture `{Backend}
  (mn mx a l mu sg lo hi : R) (xs : list R) :
  (forall x y, x < y -> erf x < erf y) ->
  0 < mn < mx -> 0 < sg -> lo < hi -> 0 <= l <= 1 ->
  let F := fun x => (1 - l) * PL_cumulative mn mx a x
                    + l * TG_cumulative lo hi mu sg x in
  basic_1dimpdf.cdf
    (PowerLawGaussian.as_pdf
       (PowerLawGaussian.__init__ (Fin mn) (Fin mx) (Fin a) (Fin l)
          (Fin mu) (Fin sg) (Fin lo) (Fin hi)))
    (map Fin xs) = Some (map Fin (map F xs)) /\
  F (Rmin mn lo) = 0 /\ F (Rmax mx hi) = 1 /\
  (forall x y, x <= y -> F x <= F y).
Proof.
  intros Herf Hpl Hsg Hb Hl F.
  assert (Hlow : forall x, x <= Rmin mn lo -> F x = 0).
  { intros x Hx. pose proof (Rmin_l mn lo). pose proof (Rmin_r mn lo).
    unfold F. rewrite PL_cumulative_low, TG_cumulative_low by (assumption || lra).
    ring. }
  assert (Hhigh : forall x, Rmax mx hi <= x -> F x = 1).
  { intros x Hx. pose proof (Rmax_l mx hi). pose proof (Rmax_r mx hi).
    unfold F.
    rewrite PL_cumulative_high, TG_cumulative_high by (assumption || lra).
    ring. }
  assert (Hpos : forall x, 0 <= F x).
  { intros x. pose proof (PL_cumulative_range mn mx a x Hpl).
    pose proof (TG_cumulative_range lo hi mu sg Herf Hsg Hb x).
    unfold F. apply Rplus_le_le_0_compat; apply Rmult_le_pos; lra. }
  split; [|split; [apply Hlow; lra|split; [apply Hhigh; lra|]]].
  - unfold basic_1dimpdf.cdf.
    rewrite (log_cdf_elementwise _ (on_fin (fun x => flog (Fin (F x))))).
    + cbn [bind PowerLawGaussian.as_pdf PowerLawGaussian.__init__
           basic_1dimpdf.minval basic_1dimpdf.maxval PowerLawGaussian.minval
           PowerLawGaussian.maxval].
      rewrite fmin_Fin, fmax_Fin, !map_map. f_equal. apply map_ext. intros x.
      apply clamp_cdf_outer.
      * intros Hx. apply Hhigh. lra.
      * intros _ Hx. apply Hlow. lra.
      * intros _. cbn [on_fin]. apply fexp_flog_Fin, Hpos.
    + cbn [PowerLawGaussian.as_pdf basic_1dimpdf._log_cdf].
      unfold PowerLawGaussian._log_cdf.
      cbn [PowerLawGaussian.__init__ PowerLawGaussian.PL PowerLawGaussian.TG
           PowerLawGaussian.lambdag].
      rewrite PowerLaw_cdf_finite by assumption. cbn [bind].
      rewrite TruncatedGaussian_cdf_finite by assumption. cbn [bind].
      rewrite !map_map, broadcast2_map_map. cbn [bind].
      rewrite !map_map. reflexivity.
  - intros x y Hxy.
    pose proof (PL_cumulative_le mn mx a x y Hpl Hxy).
    pose proof (TG_cumulative_le lo hi mu sg Herf Hsg Hb x y Hxy).
    unfold F. apply Rplus_le_compat; apply Rmult_le_compat_l; lra.
Qed.

Lemma PowerLawGaussian_cumulative_mixture_witness :
  (1 - 1 / 2) * PL_cumulative 1 2 0 (Rmax 2 1)
  + 1 / 2 * @TG_cumulative sigmoid_backend (-1) 1 0 1 (Rmax 2 1) = 1.
Proof.
  destruct (@PowerLawGaussian_cumulative_mixture sigmoid_backend
              1 2 0 (1 / 2) 0 1 (-1) 1 [] sigmoid_erf_incr
              ltac:(lra) ltac:(lra) ltac:(lra) ltac:(lra)) as [_ [_ [Hh _]]].
  exact Hh.
Defined.

(** X9.  For valid parameters and weights [lambdag], [lambdaglow] in
    [[0,1]], the density of [PowerLawTwoGaussians] at finite points is the
    sum of the power law weighted by [1 - lambdag], the lower Gaussian
    weighted by [lambdag * lambdaglow] and the higher Gaussian weighted by
    [lambdag * (1 - lambdaglow)], on the whole line. *)
Theorem PowerLawTwoGaussians_density_mixture `{Backend}
  (mn mx a l ll mu1 sg1 lo1 hi1 mu2 sg2 lo2 hi2 : R) (xs : list R) :
  (forall x y, x < y -> erf x < erf y) ->
  0 < mn < mx -> 0 < sg1 -> lo1 < hi1 -> 0 < sg2 -> lo2 < hi2 ->
  0 <= l <= 1 -> 0 <= ll <= 1 ->
  basic_1dimpdf.pdf
    (PowerLawTwoGaussians.as_pdf
       (PowerLawTwoGaussians.__init__ (Fin mn) (Fin mx) (Fin a) (Fin l)
          (Fin ll) (Fin mu1) (Fin sg1) (Fin lo1) (Fin hi1)
          (Fin mu2) (Fin sg2) (Fin lo2) (Fin hi2)))
    (map Fin xs) =
  Some (map Fin
          (map (fun x => (1 - l) * PL_density mn mx a x
                         + l * ll * TG_density lo1 hi1 mu1 sg1 x
                         + l * (1 - ll) * TG_density lo2 hi2 mu2 sg2 x) xs)).
Proof.
  intros Herf Hpl Hsg1 Hb1 Hsg2 Hb2 Hl Hll.
  pose proof (TG_norm_pos lo1 hi1 mu1 sg1 Herf Hsg1 Hb1) as HN1.
  pose proof (TG_norm_pos lo2 hi2 mu2 sg2 Herf Hsg2 Hb2) as HN2.
  unfold basic_1dimpdf.pdf.
  erewrite log_pdf_elementwise.
  2:{ cbn [PowerLawTwoGaussians.as_pdf basic_1dimpdf._log_pdf].
      unfold PowerLawTwoGaussians._log_pdf.
      cbn [PowerLawTwoGaussians.__init__ PowerLawTwoGaussians.PL
           PowerLawTwoGaussians.TGlow PowerLawTwoGaussians.TGhigh
           PowerLawTwoGaussians.lambdag PowerLawTwoGaussians.lambdaglow].
      generalize (map Fin xs). intros X.
      rewrite PowerLaw_log_pdf_map by assumption. cbn [bind].
      rewrite !TruncatedGaussian_log_pdf_map by assumption. cbn [bind].
      rewrite !map_map. rewrite broadcast2_map_map. cbn [bind].
      rewrite broadcast2_map_map. reflexivity. }
  cbn [bind PowerLawTwoGaussians.as_pdf PowerLawTwoGaussians.__init__
       basic_1dimpdf.minval basic_1dimpdf.maxval PowerLawTwoGaussians.minval
       PowerLawTwoGaussians.maxval].
  rewrite !fmin_Fin, !fmax_Fin, !map_map. f_equal. apply map_ext. intros x.
  apply clamp_pdf_outer.
  - intros [Hx|Hx].
    + apply Rmin_lt_both in Hx. destruct Hx as [Hx ?].
      apply Rmin_lt_both in Hx. destruct Hx.
      rewrite PL_density_outside, !TG_density_outside by (left; assumption).
      ring.
    + apply Rmax_lt_both in Hx. destruct Hx as [Hx ?].
      apply Rmax_lt_both in Hx. destruct Hx.
      rewrite PL_density_outside, !TG_density_outside by (right; assumption).
      ring.
  - intros _. rewrite !fexp_flogaddexp, !fexp_fadd.
    rewrite PL_kernel_exp, !TG_kernel_exp by assumption.
    rewrite !fexp_flog1p_neg, !fexp_flog_Fin by lra.
    cbn [fmul fadd]. apply Fin_eq. ring.
Qed.

Lemma PowerLawTwoGaussians_density_mixture_witness :
  basic_1dimpdf.pdf
    (@PowerLawTwoGaussians.as_pdf sigmoid_backend
       (@PowerLawTwoGaussians.__init__ sigmoid_backend (Fin 1) (Fin 2) (Fin 0)
          (Fin (1 / 2)) (Fin (1 / 4)) (Fin 0) (Fin 1) (Fin (-1)) (Fin 1)
          (Fin 3) (Fin 1) (Fin 2) (Fin 4)))
    (map Fin [3]) =
  Some (map Fin
          (map (fun x => (1 - 1 / 2) * PL_density 1 2 0 x
                         + 1 / 2 * (1 / 4)
                           * @TG_density sigmoid_backend (-1) 1 0 1 x
                         + 1 / 2 * (1 - 1 / 4)
                           * @TG_density sigmoid_backend 2 4 3 1 x)
             [3])).
Proof.
  apply (@PowerLawTwoGaussians_density_mixture sigmoid_backend
           1 2 0 (1 / 2) (1 / 4) 0 1 (-1) 1 3 1 2 4 [3] sigmoid_erf_incr);
    lra.
Defined.

(** X10.  Under the same conditions the cumulative of
    [PowerLawTwoGaussians] at finite points is the sum of the three
    cumulatives with the same weights; it is 0 at the smallest of the three
    lower bounds, 1 at the largest of the three upper bounds, and never
    decreases. *)
Theorem PowerLawTwoGaussians_cumulative_mixture `{Backend}
  (mn mx a l ll mu1 sg1 lo1 hi1 mu2 sg2 lo2 hi2 : R) (xs : list R) :
  (forall x y, x < y -> erf x < erf y) ->
  0 < mn < mx -> 0 < sg1 -> lo1 < hi1 -> 0 < sg2 -> lo2 < hi2 ->
  0 <= l <= 1 -> 0 <= ll <= 1 ->
  let F := fun x => (1 - l) * PL_cumulative mn mx a x
                    + (TG_cumulative lo1 hi1 mu1 sg1 x * l * ll
                       + TG_cumulative lo2 hi2 mu2 sg2 x * l * (1 - ll)) in
  basic_1dimpdf.cdf
    (PowerLawTwoGaussians.as_pdf
       (PowerLawTwoGaussians.__init__ (Fin mn) (Fin mx) (Fin a) (Fin l)
          (Fin ll) (Fin mu1) (Fin sg1) (Fin lo1) (Fin hi1)
          (Fin mu2) (Fin sg2) (Fin lo2) (Fin hi2)))
    (map Fin xs) = Some (map Fin (map F xs)) /\
  F (Rmin (Rmin mn lo1) lo2) = 0 /\ F (Rmax (Rmax mx hi1) hi2) = 1 /\
  (forall x y, x <= y -> F x <= F y).
Proof.
  intros Herf Hpl Hsg1 Hb1 Hsg2 Hb2 Hl Hll F.
  assert (Hlow : forall x, x <= Rmin (Rmin mn lo1) lo2 -> F x = 0).
  { intros x Hx. pose proof (Rmin_l (Rmin mn lo1) lo2).
    pose proof (Rmin_r (Rmin mn lo1) lo2).
    pose proof (Rmin_l mn lo1). pose proof (Rmin_r mn lo1). unfold F.
    rewrite PL_cumulative_low, !TG_cumulative_low by (assumption || lra).
    ring. }
  assert (Hhigh : forall x, Rmax (Rmax mx hi1) hi2 <= x -> F x = 1).
  { intros x Hx. pose proof (Rmax_l (Rmax mx hi1) hi2).
    pose proof (Rmax_r (Rmax mx hi1) hi2).
    pose proof (Rmax_l mx hi1). pose proof (Rmax_r mx hi1). unfold F.
    rewrite PL_cumulative_high, !TG_cumulative_high by (assumption || lra).
    ring. }
  assert (Hpos : forall x, 0 <= F x).
  { intros x. pose proof (PL_cumulative_range mn mx a x Hpl).
    pose proof (TG_cumulative_range lo1 hi1 mu1 sg1 Herf Hsg1 Hb1 x).
    pose proof (TG_cumulative_range lo2 hi2 mu2 sg2 Herf Hsg2 Hb2 x).
    unfold F. repeat apply Rplus_le_le_0_compat;
      repeat apply Rmult_le_pos; lra. }
  split; [|split; [apply Hlow; lra|split; [apply Hhigh; lra|]]].
  - unfold basic_1dimpdf.cdf.
    rewrite (log_cdf_elementwise _ (on_fin (fun x => flog (Fin (F x))))).
    + cbn [bind PowerLawTwoGaussians.as_pdf PowerLawTwoGaussians.__init__
           basic_1dimpdf.minval basic_1dimpdf.maxval
           PowerLawTwoGaussians.minval PowerLawTwoGaussians.maxval].
      rewrite !fmin_Fin, !fmax_Fin, !map_map. f_equal. apply map_ext.
      intros x. apply clamp_cdf_outer.
      * intros Hx. apply Hhigh. lra.
      * intros _ Hx. apply Hlow. lra.
      * intros _. cbn [on_fin]. apply fexp_flog_Fin, Hpos.
    + cbn [PowerLawTwoGaussians.as_pdf basic_1dimpdf._log_cdf].
      unfold PowerLawTwoGaussians._log_cdf.
      cbn [PowerLawTwoGaussians.__init__ PowerLawTwoGaussians.PL
           PowerLawTwoGaussians.TGlow PowerLawTwoGaussians.TGhigh
           PowerLawTwoGaussians.lambdag PowerLawTwoGaussians.lambdaglow].
      rewrite PowerLaw_cdf_finite by assumption. cbn [bind].
      rewrite !TruncatedGaussian_cdf_finite by assumption. cbn [bind].
      rewrite !map_map, broadcast2_map_map. cbn [bind].
      rewrite broadcast2_map_map. cbn [bind].
      rewrite !map_map. reflexivity.
  - intros x y Hxy.
    pose proof (PL_cumulative_le mn mx a x y Hpl Hxy).
    pose proof (TG_cumulative_le lo1 hi1 mu1 sg1 Herf Hsg1 Hb1 x y Hxy).
    pose proof (TG_cumulative_le lo2 hi2 mu2 sg2 Herf Hsg2 Hb2 x y Hxy).
    unfold F. apply Rplus_le_compat; [apply Rmult_le_compat_l; lra|].
    apply Rplus_le_compat.
    + apply Rmult_le_compat_r; [lra|]. apply Rmult_le_compat_r; lra.
    + apply Rmult_le_compat_r; [lra|]. apply Rmult_le_compat_r; lra.
Qed.

Lemma PowerLawTwoGaussians_cumulative_mixture_witness :
  (1 - 1 / 2) * PL_cumulative 1 2 0 (Rmax (Rmax 2 1) 4)
  + (@TG_cumulative sigmoid_backend (-1) 1 0 1 (Rmax (Rmax 2 1) 4)
     * (1 / 2) * (1 / 4)
     + @TG_cumulative sigmoid_backend 2 4 3 1 (Rmax (Rmax 2 1) 4)
       * (1 / 2) * (1 - 1 / 4)) = 1.
Proof.
  destruct (@PowerLawTwoGaussians_cumulative_mixture sigmoid_backend
              1 2 0 (1 / 2) (1 / 4) 0 1 (-1) 1 3 1 2 4 [] sigmoid_erf_incr
              ltac:(lra) ltac:(lra) ltac:(lra) ltac:(lra) ltac:(lra)
              ltac:(lra) ltac:(lra)) as [_ [_ [Hh _]]].
  exact Hh.
Defined.

(** ** [BrokenPowerLaw] *)

Lemma PL_density_pos (mn mx a x : R) :
  0 < mn < mx -> mn <= x <= mx -> 0 < PL_density mn mx a x.
Proof.
  intros H Hx. pose proof (PL_norm_pos mn mx a H) as HN.
  unfold PL_density. destruct (Rlt_dec x mn); [lra|].
  destruct (Rlt_dec mx x); [lra|].
  apply Rdiv_lt_0_compat; [|assumption]. unfold Rpower. apply exp_pos.
Qed.

Lemma BPL_break_between (mn mx b : R) :
  mn < mx -> 0 < b < 1 -> mn < BPL_break mn mx b < mx.
Proof. intros H Hb. unfold BPL_break. nra. Qed.

Lemma BPL_ratio_pos (mn mx a1 a2 b : R) :
  0 < mn < mx -> 0 < b < 1 -> 0 < BPL_ratio mn mx a1 a2 b.
Proof.
  intros H Hb. pose proof (BPL_break_between mn mx b ltac:(lra) Hb).
  unfold BPL_ratio. apply Rdiv_lt_0_compat; apply PL_density_pos; lra.
Qed.

Lemma BPL_init (mn mx a1 a2 b : R) :
  0 < mn < mx -> 0 < b < 1 ->
  BrokenPowerLaw.__init__ (Fin mn) (Fin mx) (Fin a1) (Fin a2) (Fin b) =
  Some (BrokenPowerLaw.mk (Fin mn) (Fin mx) (Fin mn) (Fin mx) (Fin a1)
          (Fin a2) (Fin b) (Fin (BPL_break mn mx b))
          (PowerLaw.__init__ (Fin mn) (Fin (BPL_break mn mx b)) (Fin a1))
          (PowerLaw.__init__ (Fin (BPL_break mn mx b)) (Fin mx) (Fin a2))
          [Fin (1 + BPL_ratio mn mx a1 a2 b)]).
Proof.
  intros H Hb. pose proof (BPL_break_between mn mx b ltac:(lra) Hb) as Hbp.
  unfold BrokenPowerLaw.__init__.
  change (fadd (Fin mn) (fmul (Fin b) (fsub (Fin mx) (Fin mn))))
    with (Fin (BPL_break mn mx b)).
  set (bp := BPL_break mn mx b) in *.
  change [Fin bp] with (map Fin [bp]).
  rewrite !PowerLaw_pdf_finite by lra. cbn [bind map broadcast2].
  pose proof (PL_density_pos bp mx a2 bp ltac:(lra) ltac:(lra)) as H2.
  cbn [fdiv]. destruct (Req_EM_T (PL_density bp mx a2 bp) 0); [lra|].
  reflexivity.
Qed.

Lemma BPL_pdf_finite (mn mx a1 a2 b : R) (xs : list R) :
  0 < mn < mx -> 0 < b < 1 ->
  exists d,
    BrokenPowerLaw.__init__ (Fin mn) (Fin mx) (Fin a1) (Fin a2) (Fin b) =
    Some d /\
    basic_1dimpdf.pdf (BrokenPowerLaw.as_pdf d) (map Fin xs) =
    Some (map Fin (map (BPL_density mn mx a1 a2 b) xs)).
Proof.
  intros H Hb. pose proof (BPL_break_between mn mx b ltac:(lra) Hb) as Hbp.
  pose proof (BPL_ratio_pos mn mx a1 a2 b H Hb) as Hr.
  eexists. split; [apply BPL_init; assumption|].
  unfold basic_1dimpdf.pdf.
  erewrite log_pdf_elementwise.
  2:{ cbn [BrokenPowerLaw.as_pdf basic_1dimpdf._log_pdf].
      unfold BrokenPowerLaw._log_pdf.
      cbn [BrokenPowerLaw.PL1 BrokenPowerLaw.PL2 BrokenPowerLaw.break_point
           BrokenPowerLaw.norm_fact].
      generalize (map Fin xs). intros X.
      rewrite !PowerLaw_log_pdf_map by lra. cbn [bind map].
      rewrite broadcast2_map_one. cbn [bind].
      rewrite broadcast2_map_one. cbn [bind].
      rewrite broadcast2_map_map. cbn [bind].
      rewrite broadcast2_map_one. reflexivity. }
  cbn [bind BrokenPowerLaw.as_pdf basic_1dimpdf.minval basic_1dimpdf.maxval
       BrokenPowerLaw.minval BrokenPowerLaw.maxval].
  rewrite !map_map. f_equal. apply map_ext. intros x.
  apply clamp_pdf_outer.
  - intros Hx. unfold BPL_density.
    rewrite !PL_density_outside by lra. unfold Rdiv. ring.
  - intros _. rewrite fexp_fsub, fexp_flogaddexp, fexp_fsub, fexp_fadd.
    rewrite !PL_kernel_exp by lra. rewrite fexp_flog_Fin by lra.
    pose proof (PL_density_pos (BPL_break mn mx b) mx a2 (BPL_break mn mx b)
                  ltac:(lra) ltac:(lra)) as H2.
    cbn [fmul fdiv].
    destruct (Req_EM_T (PL_density (BPL_break mn mx b) mx a2
                          (BPL_break mn mx b)) 0); [lra|].
    cbn [fadd fdiv].
    destruct (Req_EM_T (1 + BPL_ratio mn mx a1 a2 b) 0); [lra|].
    apply Fin_eq. unfold BPL_density, BPL_ratio. field. split; [lra|].
    pose proof (PL_density_pos mn (BPL_break mn mx b) a1 (BPL_break mn mx b)
                  ltac:(lra) ltac:(lra)).
    lra.
Qed.

(** X11.  For [0 < minpl < maxpl] and [0 < b < 1], [BrokenPowerLaw] is
    built, and its density at finite points is the first power law divided
    by [norm_fact] below the break point, the second power law scaled by the
    ratio of the two at the break point and divided by [norm_fact] above it,
    and 0 outside [[minpl, maxpl]].  At the break point itself both pieces
    count, so the density there is twice the value of the first piece. *)
Theorem BrokenPowerLaw_density_pieces (mn mx a1 a2 b : R) (xs : list R) :
  0 < mn < mx -> 0 < b < 1 ->
  let bp := BPL_break mn mx b in
  let r := BPL_ratio mn mx a1 a2 b in
  exists d,
    BrokenPowerLaw.__init__ (Fin mn) (Fin mx) (Fin a1) (Fin a2) (Fin b) =
    Some d /\
    BrokenPowerLaw.norm_fact d = [Fin (1 + r)] /\
    basic_1dimpdf.pdf (BrokenPowerLaw.as_pdf d) (map Fin xs) =
    Some (map Fin (map (BPL_density mn mx a1 a2 b) xs)) /\
    0 < r /\
    (forall x, mn <= x < bp ->
       BPL_density mn mx a1 a2 b x =
       Rpower x a1 / PL_norm mn bp a1 / (1 + r)) /\
    (forall x, bp < x <= mx ->
       BPL_density mn mx a1 a2 b x =
       Rpower x a2 / PL_norm bp mx a2 * r / (1 + r)) /\
    BPL_density mn mx a1 a2 b bp =
    2 * (Rpower bp a1 / PL_norm mn bp a1 / (1 + r)) /\
    (forall x, x < mn \/ mx < x -> BPL_density mn mx a1 a2 b x = 0).
Proof.
  intros H Hb bp r.
  pose proof (BPL_break_between mn mx b ltac:(lra) Hb) as Hbp.
  pose proof (BPL_ratio_pos mn mx a1 a2 b H Hb) as Hr.
  fold bp in Hbp. fold r in Hr.
  assert (Hin1 : forall x, mn <= x <= bp ->
                 PL_density mn bp a1 x = Rpower x a1 / PL_norm mn bp a1).
  { intros x Hx. unfold PL_density. destruct (Rlt_dec x mn); [lra|].
    destruct (Rlt_dec bp x); [lra|]. reflexivity. }
  assert (Hin2 : forall x, bp <= x <= mx ->
                 PL_density bp mx a2 x = Rpower x a2 / PL_norm bp mx a2).
  { intros x Hx. unfold PL_density. destruct (Rlt_dec x bp); [lra|].
    destruct (Rlt_dec mx x); [lra|]. reflexivity. }
  destruct (BPL_pdf_finite mn mx a1 a2 b xs H Hb) as [d [Hd Hpdf]].
  exists d. split; [exact Hd|]. split.
  { rewrite BPL_init in Hd by assumption. injection Hd as <-. reflexivity. }
  split; [exact Hpdf|]. split; [exact Hr|].
  unfold BPL_density. fold bp. fold r. split; [|split; [|split]].
  - intros x Hx. rewrite (PL_density_outside bp mx a2 x) by lra.
    rewrite Hin1 by lra. unfold Rdiv. ring.
  - intros x Hx. rewrite (PL_density_outside mn bp a1 x) by lra.
    rewrite Hin2 by lra. unfold Rdiv. ring.
  - rewrite <- Hin1 by lra. unfold r, BPL_ratio. fold bp.
    pose proof (PL_density_pos bp mx a2 bp ltac:(lra) ltac:(lra)).
    pose proof (PL_density_pos mn bp a1 bp ltac:(lra) ltac:(lra)).
    field. split; lra.
  - intros x Hx. rewrite !PL_density_outside by lra. unfold Rdiv. ring.
Qed.

Lemma BrokenPowerLaw_density_pieces_witness :
  BPL_density 1 3 (-2) (-3) (1 / 2) (BPL_break 1 3 (1 / 2)) =
  2 * (Rpower (BPL_break 1 3 (1 / 2)) (-2)
       / PL_norm 1 (BPL_break 1 3 (1 / 2)) (-2)
       / (1 + BPL_ratio 1 3 (-2) (-3) (1 / 2))).
Proof.
  destruct (BrokenPowerLaw_density_pieces 1 3 (-2) (-3) (1 / 2) []
              ltac:(lra) ltac:(lra)) as [d [_ [_ [_ [_ [_ [_ [Hd _]]]]]]]].
  exact Hd.
Defined.

(** X12.  For [0 < minpl < maxpl] and [0 < b < 1], the cumulative of
    [BrokenPowerLaw] at finite points is [(PL1.cdf + PL2.cdf * ratio) /
    norm_fact]: 0 at [minpl], [1 / norm_fact] at the break point, 1 at
    [maxpl], and it never decreases. *)
Theorem BrokenPowerLaw_cumulative (mn mx a1 a2 b : R) (xs : list R) :
  0 < mn < mx -> 0 < b < 1 ->
  let bp := BPL_break mn mx b in
  let r := BPL_ratio mn mx a1 a2 b in
  exists d,
    BrokenPowerLaw.__init__ (Fin mn) (Fin mx) (Fin a1) (Fin a2) (Fin b) =
    Some d /\
    basic_1dimpdf.cdf (BrokenPowerLaw.as_pdf d) (map Fin xs) =
    Some (map Fin (map (BPL_cumulative mn mx a1 a2 b) xs)) /\
    BPL_cumulative mn mx a1 a2 b mn = 0 /\
    BPL_cumulative mn mx a1 a2 b bp = 1 / (1 + r) /\
    BPL_cumulative mn mx a1 a2 b mx = 1 /\
    (forall x y, x <= y ->
       BPL_cumulative mn mx a1 a2 b x <= BPL_cumulative mn mx a1 a2 b y).
Proof.
  intros H Hb bp r.
  pose proof (BPL_break_between mn mx b ltac:(lra) Hb) as Hbp.
  pose proof (BPL_ratio_pos mn mx a1 a2 b H Hb) as Hr.
  fold bp in Hbp. fold r in Hr.
  assert (H1 : 0 < mn < bp) by lra. assert (H2 : 0 < bp < mx) by lra.
  assert (Hpos : forall x, 0 <= BPL_cumulative mn mx a1 a2 b x).
  { intros x. unfold BPL_cumulative. fold bp. fold r.
    pose proof (PL_cumulative_range mn bp a1 x H1).
    pose proof (PL_cumulative_range bp mx a2 x H2).
    apply Rmult_le_pos; [|apply Rlt_le, Rinv_0_lt_compat; lra].
    apply Rplus_le_le_0_compat; [lra|]. apply Rmult_le_pos; lra. }
  eexists. split; [apply BPL_init; assumption|].
  split; [|split; [|split; [|split]]].
  - unfold basic_1dimpdf.cdf.
    rewrite (log_cdf_elementwise _
               (on_fin (fun x => flog (Fin (BPL_cumulative mn mx a1 a2 b x))))).
    + cbn [bind BrokenPowerLaw.as_pdf basic_1dimpdf.minval
           basic_1dimpdf.maxval BrokenPowerLaw.minval BrokenPowerLaw.maxval].
      rewrite !map_map. f_equal. apply map_ext. intros x.
      apply clamp_cdf_outer.
      * intros Hx. unfold BPL_cumulative. fold bp. fold r.
        rewrite !PL_cumulative_high by lra. field. lra.
      * intros _ Hx. unfold BPL_cumulative. fold bp. fold r.
        rewrite !PL_cumulative_low by lra. unfold Rdiv. ring.
      * intros _. cbn [on_fin]. apply fexp_flog_Fin, Hpos.
    + cbn [BrokenPowerLaw.as_pdf basic_1dimpdf._log_cdf].
      unfold BrokenPowerLaw._log_cdf.
      cbn [BrokenPowerLaw.PL1 BrokenPowerLaw.PL2 BrokenPowerLaw.break_point
           BrokenPowerLaw.norm_fact].
      fold bp. fold r.
      rewrite !PowerLaw_cdf_finite by lra. cbn [bind].
      change [Fin bp] with (map Fin [bp]).
      rewrite !PowerLaw_pdf_finite by lra. cbn [bind map broadcast2].
      pose proof (PL_density_pos bp mx a2 bp ltac:(lra) ltac:(lra)) as Hd2.
      cbn [fdiv]. destruct (Req_EM_T (PL_density bp mx a2 bp) 0); [lra|].
      rewrite !map_map, broadcast2_map_one. cbn [bind].
      rewrite broadcast2_map_map. cbn [bind].
      rewrite broadcast2_map_one. cbn [bind].
      rewrite !map_map. f_equal. apply map_ext. intros x.
      cbn [on_fin fmul fadd fdiv].
      destruct (Req_EM_T (1 + r) 0); [lra|]. reflexivity.
  - unfold BPL_cumulative. fold bp. fold r.
    rewrite !PL_cumulative_low by lra. unfold Rdiv. ring.
  - unfold BPL_cumulative. fold bp. fold r.
    rewrite PL_cumulative_high, PL_cumulative_low by lra. f_equal. ring.
  - unfold BPL_cumulative. fold bp. fold r.
    rewrite !PL_cumulative_high by lra. field. lra.
  - intros x y Hxy. unfold BPL_cumulative. fold bp. fold r.
    pose proof (PL_cumulative_le mn bp a1 x y H1 Hxy).
    pose proof (PL_cumulative_le bp mx a2 x y H2 Hxy).
    apply Rmult_le_compat_r; [apply Rlt_le, Rinv_0_lt_compat; lra|].
    apply Rplus_le_compat; [lra|]. apply Rmult_le_compat_r; lra.
Qed.

Lemma BrokenPowerLaw_cumulative_witness :
  BPL_cumulative 1 3 (-2) (-3) (1 / 2) 3 = 1.
Proof.
  destruct (BrokenPowerLaw_cumulative 1 3 (-2) (-3) (1 / 2) []
              ltac:(lra) ltac:(lra)) as [d [_ [_ [_ [_ [Hd _]]]]]].
  exact Hd.
Defined.

(** ** The inverse-transform sampler *)

Lemma finite_as_map (a : array) :
  Forall is_finite a -> exists l, a = map Fin l.
Proof.
  induction 1 as [|y a Hy _ [l ->]]; [exists []; reflexivity|].
  destruct y as [| | |r]; try contradiction. exists (r :: l). reflexivity.
Qed.

Lemma nth_map_Fin (l : list R) (j : nat) :
  (j < length l)%nat -> nth j (map Fin l) NaN = Fin (nth j l 0).
Proof.
  intros Hj. rewrite (nth_indep _ NaN (Fin 0)) by (rewrite length_map; lia).
  apply map_nth.
Qed.

Lemma last_In_nonempty {A} (l : list A) (d : A) : l <> [] -> In (last l d) l.
Proof.
  intros Hl. rewrite (app_removelast_last d Hl) at 2.
  apply in_or_app. right. left. reflexivity.
Qed.

Lemma scan_spec (x : R) (tail : list R) (i0 : nat) :
  let i := scan (Fin x) (map Fin tail) i0 in
  (i0 <= i <= i0 + length tail)%nat /\
  ((i0 < i)%nat -> nth (i - i0 - 1) tail 0 <= x) /\
  ((i < i0 + length tail)%nat -> x < nth (i - i0) tail 0).
Proof.
  revert i0. induction tail as [|a r IH]; intros i0; cbn [map scan length].
  - repeat split; lia.
  - cbn [fge fle]. unfold Rleb. destruct (Rle_dec a x) as [Ha|Ha].
    + destruct (IH (S i0)) as [Hb [Hp Hs]].
      set (i := scan (Fin x) (map Fin r) (S i0)) in *.
      split; [lia|]. split.
      * intros Hi. destruct (Nat.eq_dec i (S i0)) as [E|E].
        -- rewrite E. replace (S i0 - i0 - 1)%nat with 0%nat by lia. exact Ha.
        -- replace (i - i0 - 1)%nat with (S (i - S i0 - 1)) by lia.
           apply Hp. lia.
      * intros Hi. replace (i - i0)%nat with (S (i - S i0)) by lia.
        apply Hs. lia.
    + split; [lia|]. split; [lia|]. intros _.
      rewrite Nat.sub_diag. simpl. lra.
Qed.

Lemma interp_cell_range (lo hi aj ak bj bk x : R) :
  aj <= x < ak -> lo <= bj <= hi -> lo <= bk <= hi ->
  lo <= (bk + - bj) / (ak + - aj) * (x + - aj) + bj <= hi.
Proof.
  intros Hx Hj Hk.
  set (t := (x - aj) / (ak - aj)).
  assert (Ht : 0 <= t <= 1).
  { unfold t. split.
    - apply Rmult_le_pos; [lra|]. apply Rlt_le, Rinv_0_lt_compat. lra.
    - apply Rmult_le_reg_r with (ak - aj); [lra|].
      unfold Rdiv. rewrite Rmult_assoc, Rinv_l by lra. lra. }
  replace ((bk + - bj) / (ak + - aj) * (x + - aj) + bj)
    with ((bk - bj) * t + bj) by (unfold t; field; lra).
  nra.
Qed.

Lemma interp1_within (xr fr : list R) (lo hi x : R) :
  xr <> [] -> length xr = length fr ->
  Forall (fun v => lo <= v <= hi) fr ->
  within lo hi (interp1 (map Fin xr) (map Fin fr) (Fin x)).
Proof.
  intros Hxr Hlen Hfr.
  assert (Hfr0 : fr <> []) by (intros ->; destruct xr; [contradiction|discriminate]).
  assert (Hnth : forall j, (j < length fr)%nat ->
                 within lo hi (nth j (map Fin fr) NaN)).
  { intros j Hj. rewrite nth_map_Fin by assumption.
    eexists. split; [reflexivity|].
    rewrite Forall_forall in Hfr. apply Hfr, nth_In. assumption. }
  unfold interp1. cbn [isnan]. unfold binary_search.
  destruct (fgt (Fin x) (last (map Fin xr) NaN)).
  { rewrite (last_map Fin fr 0 NaN) by assumption.
    eexists. split; [reflexivity|].
    rewrite Forall_forall in Hfr. apply Hfr, last_In_nonempty. assumption. }
  destruct xr as [|a0 tail]; [contradiction|]. cbn [map hd tl].
  destruct (flt (Fin x) (Fin a0)) eqn:E0.
  { destruct fr as [|f0 fr']; [contradiction|]. cbn [map hd].
    eexists. split; [reflexivity|].
    rewrite Forall_forall in Hfr. apply Hfr. left. reflexivity. }
  cbn [flt] in E0. unfold Rltb in E0. destruct (Rlt_dec x a0); [discriminate|].
  destruct (scan_spec x tail 1) as [Hb [Hp Hs]].
  set (i := scan (Fin x) (map Fin tail) 1) in *.
  set (j := (i - 1)%nat).
  cbn [length] in Hlen. cbn [length]. rewrite length_map.
  destruct (Nat.eqb_spec j (S (length tail) - 1)) as [Ej|Ej].
  { apply Hnth. lia. }
  assert (Hj : (S j < length fr)%nat) by lia.
  change (Fin a0 :: map Fin tail) with (map Fin (a0 :: tail)).
  rewrite !(nth_map_Fin (a0 :: tail)) by (cbn [length]; lia).
  assert (Haj : nth j (a0 :: tail) 0 <= x).
  { destruct j as [|j'] eqn:Dj; [simpl; lra|].
    cbn [nth]. replace j' with (i - 1 - 1)%nat by lia. apply Hp. lia. }
  assert (Hak : x < nth (S j) (a0 :: tail) 0).
  { cbn [nth]. unfold j. apply Hs. lia. }
  destruct (feq (Fin (nth j (a0 :: tail) 0)) (Fin x)).
  { apply Hnth. lia. }
  destruct (Hnth j ltac:(lia)) as [bj [-> Hbj]].
  destruct (Hnth (S j) Hj) as [bk [-> Hbk]].
  set (aj := nth j (a0 :: tail) 0) in *.
  set (ak := nth (S j) (a0 :: tail) 0) in *.
  cbn [fsub fneg fadd fdiv].
  destruct (Req_EM_T (ak + - aj) 0); [lra|].
  cbn [fmul fadd isnan].
  eexists. split; [reflexivity|].
  apply interp_cell_range; lra.
Qed.

Lemma linspace_Fin (a b : R) (n : nat) :
  linspace (Fin a) (Fin b) n = map Fin (linspace_R a b n).
Proof.
  destruct n as [|[|m]]; try reflexivity.
  unfold linspace, linspace_R. rewrite map_app, map_map. f_equal.
  apply map_ext. intros i.
  replace (S (S m) - 1)%nat with (S m) by lia.
  unfold INRf. cbn [fsub fneg fadd fdiv].
  destruct (Req_EM_T (INR (S m)) 0) as [E|_].
  - exfalso. revert E. apply not_0_INR. lia.
  - reflexivity.
Qed.

Lemma linspace_R_length (a b : R) (n : nat) : length (linspace_R a b n) = n.
Proof.
  destruct n as [|[|m]]; try reflexivity.
  unfold linspace_R. rewrite length_app, length_map, length_seq. simpl. lia.
Qed.

Lemma linspace_R_range (a b : R) (n : nat) :
  a <= b -> Forall (fun v => a <= v <= b) (linspace_R a b n).
Proof.
  intros Hab. destruct n as [|[|m]].
  - constructor.
  - constructor; [lra|constructor].
  - unfold linspace_R. apply Forall_app. split.
    + apply Forall_forall. intros v Hv. apply in_map_iff in Hv.
      destruct Hv as [i [<- Hi]]. apply in_seq in Hi.
      replace (S (S m) - 1)%nat with (S m) by lia.
      assert (H0 : 0 <= INR i) by apply pos_INR.
      assert (H1 : INR i < INR (S m)) by (apply lt_INR; lia).
      set (t := INR i / INR (S m)).
      assert (Ht : 0 <= t <= 1).
      { unfold t. split.
        - apply Rmult_le_pos; [lra|]. apply Rlt_le, Rinv_0_lt_compat. lra.
        - apply Rmult_le_reg_r with (INR (S m)); [lra|].
          unfold Rdiv. rewrite Rmult_assoc, Rinv_l by lra. lra. }
      replace (a + INR i * ((b - a) / INR (S m))) with (a + t * (b - a))
        by (unfold t; field; lra).
      nra.
    + constructor; [lra|constructor].
Qed.

(** X13.  For a distribution with finite bounds [minval <= maxval] whose
    cumulative on the sampling grid is finite and never decreases,
    [sample N] returns [N] values for any finite draws, each of them inside
    [[minval, maxval]], and leaves the random source advanced by [N]
    draws. *)
Theorem sample_within_bounds (self : basic_1dimpdf.t) (lo hi : R) (N : nat)
  (g : rng) (cdfeval : array) :
  basic_1dimpdf.minval self = Fin lo ->
  basic_1dimpdf.maxval self = Fin hi -> lo <= hi ->
  basic_1dimpdf.cdf self (linspace (Fin lo) (Fin hi) basic_1dimpdf.GRID) =
  Some cdfeval ->
  Forall is_finite cdfeval -> nondecreasing cdfeval ->
  (forall i, is_finite (g i)) ->
  exists s,
    basic_1dimpdf.sample self N g = Some (s, fun i => g (N + i)%nat) /\
    length s = N /\ Forall (within lo hi) s.
Proof.
  intros Hmin Hmax Hle Hcdf Hfin _ Hg.
  pose proof (cdf_length _ _ _ Hcdf) as Hlen.
  rewrite linspace_length in Hlen.
  destruct (finite_as_map cdfeval Hfin) as [cr ->].
  rewrite length_map in Hlen.
  assert (Hcr : cr <> []).
  { intros ->. pose proof GRID_ge_3. simpl in Hlen. lia. }
  unfold basic_1dimpdf.sample. rewrite Hmin, Hmax, Hcdf. cbn [bind rand].
  rewrite linspace_Fin. unfold interp.
  destruct (map Fin cr) as [|c0 cs] eqn:Ec.
  { destruct cr; [contradiction|discriminate]. }
  rewrite <- Ec. rewrite !length_map, linspace_R_length, Hlen, Nat.eqb_refl.
  cbn [bind]. eexists. split; [reflexivity|]. split.
  - rewrite !length_map, length_seq. reflexivity.
  - apply Forall_forall. intros y Hy. apply in_map_iff in Hy.
    destruct Hy as [u [<- Hu]]. apply in_map_iff in Hu.
    destruct Hu as [k [<- _]]. specialize (Hg k).
    destruct (g k) as [| | |x]; try contradiction.
    apply interp1_within.
    + assumption.
    + rewrite linspace_R_length. assumption.
    + apply linspace_R_range. assumption.
Qed.

Lemma nth_map_seq (f : nat -> R) (k i : nat) :
  (i < k)%nat -> nth i (map f (seq 0 k)) 0 = f i.
Proof.
  intros Hi. rewrite (nth_indep _ 0 (f 0%nat)) by (rewrite length_map, length_seq; lia).
  rewrite map_nth, seq_nth by assumption. reflexivity.
Qed.

Lemma linspace_R_sorted (a b : R) (n i : nat) :
  a <= b -> (S i < n)%nat ->
  nth i (linspace_R a b n) 0 <= nth (S i) (linspace_R a b n) 0.
Proof.
  intros Hab Hi. destruct n as [|[|m]]; try lia.
  pose proof (linspace_R_range a b (S (S m)) Hab) as Hr.
  unfold linspace_R in *.
  rewrite app_nth1 by (rewrite length_map, length_seq; lia).
  rewrite nth_map_seq by lia.
  destruct (Nat.eq_dec (S i) (S m)) as [E|E].
  - rewrite app_nth2 by (rewrite length_map, length_seq; lia).
    rewrite length_map, length_seq, E, Nat.sub_diag. cbn [nth].
    apply Forall_app in Hr. destruct Hr as [Hr _].
    rewrite Forall_forall in Hr.
    apply (Hr (a + INR i * ((b - a) / INR (S (S m) - 1)))).
    apply in_map_iff. exists i. split; [reflexivity|]. apply in_seq. lia.
  - rewrite app_nth1 by (rewrite length_map, length_seq; lia).
    rewrite nth_map_seq by lia. rewrite S_INR.
    assert (0 <= (b - a) / INR (S (S m) - 1)).
    { apply Rmult_le_pos; [lra|]. apply Rlt_le, Rinv_0_lt_compat.
      apply lt_0_INR. lia. }
    nra.
Qed.

Lemma nondecreasing_map (C : R -> R) (l : list R) :
  (forall x y, x <= y -> C x <= C y) ->
  (forall i, (S i < length l)%nat -> nth i l 0 <= nth (S i) l 0) ->
  nondecreasing (map Fin (map C l)).
Proof.
  intros HC Hl i Hi. rewrite !length_map in Hi.
  rewrite !nth_map_Fin by (rewrite length_map; lia).
  rewrite !(nth_indep (map C l) 0 (C 0)) by (rewrite length_map; lia).
  rewrite !map_nth. cbn [fle]. unfold Rleb.
  destruct (Rle_dec (C (nth i l 0)) (C (nth (S i) l 0))) as [_|Hn];
    [reflexivity|].
  exfalso. apply Hn, HC, Hl. assumption.
Qed.

Lemma sample_within_bounds_witness :
  exists s,
    basic_1dimpdf.sample example_PL 2 (two_draws (1 / 2) (1 / 3)) =
    Some (s, fun i => two_draws (1 / 2) (1 / 3) (2 + i)%nat) /\
    length s = 2%nat /\ Forall (within 1 10) s.
Proof.
  apply (sample_within_bounds example_PL 1 10 2 (two_draws (1 / 2) (1 / 3))
           (map Fin (map (PL_cumulative 1 10 (-2))
                       (linspace_R 1 10 basic_1dimpdf.GRID)))).
  - reflexivity.
  - reflexivity.
  - lra.
  - rewrite linspace_Fin. unfold example_PL.
    apply PowerLaw_cdf_finite. lra.
  - apply Forall_forall. intros y Hy. apply in_map_iff in Hy.
    destruct Hy as [v [<- _]]. exact I.
  - apply nondecreasing_map.
    + intros x y Hxy. apply PL_cumulative_le; lra.
    + intros i Hi. rewrite linspace_R_length in Hi.
      apply linspace_R_sorted; [lra|assumption].
  - intros [|i]; exact I.
Defined.

Lemma interp_within (x xp : array) (fr : list R) (lo hi : R) :
  Forall is_finite x -> Forall is_finite xp -> xp <> [] ->
  length xp = length fr -> Forall (fun v => lo <= v <= hi) fr ->
  exists s, interp x xp (map Fin fr) = Some s /\
            length s = length x /\ Forall (within lo hi) s.
Proof.
  intros Hx Hxp Hne Hlen Hfr.
  destruct (finite_as_map xp Hxp) as [xr ->].
  destruct (finite_as_map x Hx) as [qs ->].
  rewrite length_map in Hlen.
  unfold interp. destruct (map Fin xr) as [|c0 cs] eqn:Ec; [contradiction|].
  rewrite <- Ec. rewrite !length_map, Hlen, Nat.eqb_refl.
  eexists. split; [reflexivity|]. split; [rewrite !length_map; reflexivity|].
  apply Forall_forall. intros y Hy. apply in_map_iff in Hy.
  destruct Hy as [u [<- Hu]]. apply in_map_iff in Hu.
  destruct Hu as [q [<- _]]. apply interp1_within; try assumption.
  intros ->. discriminate.
Qed.

Lemma rand_finite (N : nat) (g : rng) :
  (forall i, is_finite (g i)) ->
  Forall is_finite (fst (rand N g)) /\ length (fst (rand N g)) = N /\
  (forall i, is_finite (snd (rand N g) i)).
Proof.
  intros Hg. cbn [rand fst snd]. split; [|split].
  - apply Forall_forall. intros y Hy. apply in_map_iff in Hy.
    destruct Hy as [k [<- _]]. apply Hg.
  - rewrite length_map, length_seq. reflexivity.
  - intros i. apply Hg.
Qed.

Lemma fmul_finite (a b : float) : is_finite a -> is_finite b -> is_finite (fmul a b).
Proof. destruct a, b; simpl; tauto. Qed.

(** X14.  The sampler of [conditional_2dimpdf] keeps each component inside
    the support of its own distribution: when the two cumulatives on their
    grids are finite and never decrease, and the cumulative of [pdf2] is
    finite at finite points, [sample N] returns [N] pairs for any finite
    draws, with every [x1] in [[pdf1.minval, pdf1.maxval]] and every [x2] in
    [[pdf2.minval, pdf2.maxval]], and uses [2 N] draws. *)
Theorem conditional_sample_within_bounds (h : store)
  (self : conditional_2dimpdf.t) (p1 p2 : basic_1dimpdf.t)
  (lo1 hi1 lo2 hi2 : R) (N : nat) (g : rng) (c1 c2 : array) :
  h (conditional_2dimpdf.pdf1 self) = Some p1 ->
  h (conditional_2dimpdf.pdf2 self) = Some p2 ->
  basic_1dimpdf.minval p1 = Fin lo1 -> basic_1dimpdf.maxval p1 = Fin hi1 ->
  basic_1dimpdf.minval p2 = Fin lo2 -> basic_1dimpdf.maxval p2 = Fin hi2 ->
  lo1 <= hi1 -> lo2 <= hi2 ->
  basic_1dimpdf.cdf p1 (linspace (Fin lo1) (Fin hi1) basic_1dimpdf.GRID) =
  Some c1 ->
  Forall is_finite c1 -> nondecreasing c1 ->
  basic_1dimpdf.cdf p2 (linspace (Fin lo2) (Fin hi2) basic_1dimpdf.GRID) =
  Some c2 ->
  nondecreasing c2 ->
  (forall x, Forall is_finite x ->
             exists c, basic_1dimpdf.cdf p2 x = Some c /\ Forall is_finite c) ->
  (forall i, is_finite (g i)) ->
  exists x1 x2,
    conditional_2dimpdf.sample h self N g =
    Some (x1, x2, fun i => g (N + (N + i))%nat) /\
    length x1 = N /\ length x2 = N /\
    Forall (within lo1 hi1) x1 /\ Forall (within lo2 hi2) x2.
Proof.
  intros H1 H2 Hmin1 Hmax1 Hmin2 Hmax2 Hle1 Hle2 Hc1 Hf1 _ Hc2 _ Hp2 Hg.
  assert (Hgrid : forall lo hi c (p : basic_1dimpdf.t),
            basic_1dimpdf.cdf p (linspace (Fin lo) (Fin hi) basic_1dimpdf.GRID)
            = Some c -> c <> [] /\ length c = length (linspace_R lo hi basic_1dimpdf.GRID)).
  { intros lo hi c p Hc. pose proof (cdf_length _ _ _ Hc) as Hl.
    rewrite linspace_length in Hl. rewrite linspace_R_length. split; [|exact Hl].
    intros ->. pose proof GRID_ge_3. simpl in Hl. lia. }
  assert (Hf2 : Forall is_finite c2).
  { destruct (Hp2 (linspace (Fin lo2) (Fin hi2) basic_1dimpdf.GRID)) as [c [Hc Hf]].
    - rewrite linspace_Fin. apply Forall_forall. intros y Hy.
      apply in_map_iff in Hy. destruct Hy as [v [<- _]]. exact I.
    - rewrite Hc2 in Hc. injection Hc as <-. exact Hf. }
  destruct (rand_finite N g Hg) as [Hr1 [Hl1 Hg1]].
  destruct (rand_finite N (snd (rand N g)) Hg1) as [Hr2 [Hl2 _]].
  destruct (Hgrid _ _ _ _ Hc1) as [Hn1 Hlen1].
  destruct (Hgrid _ _ _ _ Hc2) as [Hn2 Hlen2].
  destruct (interp_within (fst (rand N g)) c1
              (linspace_R lo1 hi1 basic_1dimpdf.GRID) lo1 hi1 Hr1 Hf1 Hn1
              Hlen1 (linspace_R_range lo1 hi1 _ Hle1))
    as [x1 [Hx1 [Hx1l Hx1r]]].
  assert (Hx1f : Forall is_finite x1).
  { apply Forall_forall. intros y Hy. rewrite Forall_forall in Hx1r.
    destruct (Hx1r y Hy) as [v [-> _]]. exact I. }
  destruct (Hp2 x1 Hx1f) as [c [Hc Hcf]].
  pose proof (cdf_length _ _ _ Hc) as Hcl.
  assert (Hq : Forall is_finite
                 (map (fun p => fmul (fst p) (snd p))
                    (combine (fst (rand N (snd (rand N g)))) c))).
  { apply Forall_forall. intros y Hy. apply in_map_iff in Hy.
    destruct Hy as [[u v] [<- Huv]]. cbn [fst snd].
    rewrite Forall_forall in Hr2, Hcf.
    apply fmul_finite; [apply Hr2|apply Hcf].
    - eapply in_combine_l. exact Huv.
    - eapply in_combine_r. exact Huv. }
  destruct (interp_within _ c2 (linspace_R lo2 hi2 basic_1dimpdf.GRID)
              lo2 hi2 Hq Hf2 Hn2 Hlen2 (linspace_R_range lo2 hi2 _ Hle2))
    as [x2 [Hx2 [Hx2l Hx2r]]].
  exists x1, x2. split; [|split; [|split; [|split]]].
  - unfold conditional_2dimpdf.sample. rewrite H1, H2. cbn [bind].
    unfold conditional_2dimpdf.sample_at.
    rewrite Hmin1, Hmax1, Hmin2, Hmax2, Hc1. cbn [bind].
    rewrite (surjective_pairing (rand N g)).
    rewrite Hc2. cbn [bind].
    rewrite (surjective_pairing (rand N (snd (rand N g)))).
    rewrite !linspace_Fin, Hx1. cbn [bind]. rewrite Hc. cbn [bind].
    rewrite broadcast2_same_length by lia. cbn [bind].
    rewrite Hx2. reflexivity.
  - lia.
  - rewrite Hx2l, length_map, length_combine. lia.
  - exact Hx1r.
  - exact Hx2r.
Qed.

Lemma example_PL_grid_cdf :
  basic_1dimpdf.cdf example_PL (linspace (Fin 1) (Fin 10) basic_1dimpdf.GRID) =
  Some (map Fin (map (PL_cumulative 1 10 (-2))
                   (linspace_R 1 10 basic_1dimpdf.GRID))) /\
  nondecreasing (map Fin (map (PL_cumulative 1 10 (-2))
                            (linspace_R 1 10 basic_1dimpdf.GRID))).
Proof.
  split.
  - rewrite linspace_Fin. unfold example_PL.
    apply PowerLaw_cdf_finite. lra.
  - apply nondecreasing_map.
    + intros x y Hxy. apply PL_cumulative_le; lra.
    + intros i Hi. rewrite linspace_R_length in Hi.
      apply linspace_R_sorted; [lra|assumption].
Qed.

Lemma map_Fin_finite (l : list R) : Forall is_finite (map Fin l).
Proof.
  apply Forall_forall. intros y Hy. apply in_map_iff in Hy.
  destruct Hy as [v [<- _]]. exact I.
Qed.

Lemma conditional_sample_within_bounds_witness :
  exists x1 x2,
    conditional_2dimpdf.sample example_store example_conditional 2
      (two_draws (1 / 2) (1 / 3)) =
    Some (x1, x2, fun i => two_draws (1 / 2) (1 / 3) (2 + (2 + i))%nat) /\
    length x1 = 2%nat /\ length x2 = 2%nat /\
    Forall (within 1 10) x1 /\ Forall (within 1 10) x2.
Proof.
  destruct example_PL_grid_cdf as [Hc Hm].
  apply (conditional_sample_within_bounds example_store example_conditional
           example_PL example_PL 1 10 1 10 2 (two_draws (1 / 2) (1 / 3))
           _ _ eq_refl eq_refl eq_refl eq_refl eq_refl eq_refl
           ltac:(lra) ltac:(lra) Hc (map_Fin_finite _) Hm Hc Hm).
  - intros x Hx. destruct (finite_as_map x Hx) as [xs ->].
    eexists. split; [unfold example_PL; apply PowerLaw_cdf_finite; lra|].
    apply map_Fin_finite.
  - intros [|i]; exact I.
Defined.

(** ** The spline nodes *)

Lemma nth_error_Some_lt {A} (l : list A) (i : nat) :
  (i < length l)%nat -> exists a, nth_error l i = Some a.
Proof.
  intros Hi. destruct (nth_error l i) as [a|] eqn:E; [exists a; reflexivity|].
  apply nth_error_None in E. lia.
Qed.

Lemma fdiv_isfinite_num (a m : float) :
  isfinite (fdiv a m) = true -> isfinite a = true.
Proof.
  destruct a as [| | |x]; [| | |reflexivity];
    destruct m as [| | |y]; cbn [fdiv isfinite]; try discriminate;
    destruct (Rlt_dec y 0); discriminate.
Qed.

Lemma fadd_isfinite_l (a : float) (c : R) :
  isfinite (fadd a (Fin c)) = true -> isfinite a = true.
Proof. destruct a; cbn [fadd isfinite]; congruence. Qed.

Lemma isfinite_as_map (a : array) :
  (forall s, In s a -> isfinite s = true) -> exists l, a = map Fin l.
Proof.
  intros H. apply finite_as_map. apply Forall_forall. intros s Hs.
  specialize (H s Hs). destruct s; try discriminate. exact I.
Qed.

Lemma linspace_first_two (xr : R) (n : nat) :
  (2 <= n)%nat ->
  exists x0 x1 rest,
    linspace (Fin (- xr)) (Fin xr) n = Fin x0 :: Fin x1 :: rest /\
    x1 - x0 = 2 * xr / INR (n - 1).
Proof.
  intros Hn.
  assert (Hn1 : INR (n - 1) <> 0) by (apply not_0_INR; lia).
  pose proof (linspace_length (Fin (- xr)) (Fin xr) n) as L.
  assert (H0 : nth_error (linspace (Fin (- xr)) (Fin xr) n) 0 =
               Some (Fin (- xr + INR 0 * ((xr - - xr) / INR (n - 1)))))
    by (apply linspace_nth; lia).
  assert (H1 : exists x1, nth_error (linspace (Fin (- xr)) (Fin xr) n) 1 =
                          Some (Fin x1) /\
               x1 - (- xr + INR 0 * ((xr - - xr) / INR (n - 1))) =
               2 * xr / INR (n - 1)).
  { destruct (Nat.eq_dec n 2) as [E|E].
    - exists xr. split; [rewrite E; reflexivity|].
      rewrite E. simpl. field.
    - eexists. split; [apply linspace_nth; lia|].
      simpl. field. exact Hn1. }
  destruct H1 as [x1 [H1 Hdx]].
  destruct (linspace (Fin (- xr)) (Fin xr) n) as [|a [|b rest]];
    try discriminate.
  simpl in H0, H1. injection H0 as ->. injection H1 as ->.
  eexists. exists x1, rest. split; [reflexivity|exact Hdx].
Qed.

(** X15.  The constructor of [SplineWrapper] returns exactly when it is
    given at least two slopes, all of them finite, whose offset sum
    [sum (slope_i + 1/2)] is not zero, and a finite [x_range > 0].  In every
    other case it raises: with fewer than two slopes there is no
    [x_points[1]]; a slope that is NaN or infinite, or an offset sum of
    zero, hands [CubicHermiteSpline] a tangent that is not finite; an
    [x_range] that is not finite gives a grid that is not finite, and
    [x_range <= 0] a grid that does not increase. *)
Theorem SplineWrapper_init_returns_iff (sl : array) (xr : float) :
  (exists w, SplineWrapper.__init__ sl xr = Some w) <->
  (exists (ss : list R) (r : R),
     sl = map Fin ss /\ xr = Fin r /\ (2 <= length ss)%nat /\
     Rsum (map (fun s => s + 1 / 2) ss) <> 0 /\ 0 < r).
Proof.
  split.
  - intros [w Hw]. unfold SplineWrapper.__init__ in Hw.
    destruct (SplineWrapper.generate_spline_from_slope_list _ _ _ _)
      as [sp|] eqn:Hg; [clear Hw|discriminate].
    unfold SplineWrapper.generate_spline_from_slope_list in Hg.
    set (n := length sl) in *.
    pose proof (linspace_length (fneg xr) xr n) as Lx.
    destruct (nth_error (linspace (fneg xr) xr n) 1) as [x1|] eqn:E1;
      [|discriminate].
    assert (Hn : (2 <= n)%nat).
    { assert (1 < length (linspace (fneg xr) xr n))%nat; [|lia].
      apply nth_error_Some. rewrite E1. discriminate. }
    destruct (nth_error (linspace (fneg xr) xr n) 0) as [x0|] eqn:E0;
      [|discriminate].
    cbn [bind] in Hg.
    destruct (SplineWrapper.integrate _ _ _ _) as [y'|]; [|discriminate].
    cbn [bind] in Hg.
    destruct (nth_error y' _) as [mid|]; [|discriminate].
    cbn [bind] in Hg.
    destruct (CubicHermiteSpline_accepts _ _ _) eqn:Hacc; [|discriminate].
    clear Hg. unfold CubicHermiteSpline_accepts in Hacc.
    apply andb_prop in Hacc. destruct Hacc as [Hacc Hinc].
    apply andb_prop in Hacc. destruct Hacc as [Hacc Hfd].
    apply andb_prop in Hacc. destruct Hacc as [Hacc _].
    apply andb_prop in Hacc. destruct Hacc as [_ Hfx].
    (* x_range is the last grid point *)
    assert (Hxr : isfinite xr = true).
    { apply (proj1 (forallb_forall _ _) Hfx).
      apply nth_error_In with (n := (n - 1)%nat).
      apply linspace_last. exact Hn. }
    destruct xr as [| | |r]; try discriminate. clear Hxr.
    (* every tangent is a quotient of a slope plus one half *)
    destruct (isfinite_as_map sl) as [ss ->].
    { intros s Hs.
      set (mean := fdiv (fsum _) (INRf n)) in Hfd.
      apply fadd_isfinite_l with (c := 1 / 2).
      apply fdiv_isfinite_num with (m := mean).
      apply (proj1 (forallb_forall _ _) Hfd).
      apply (in_map (fun d => fdiv d mean)).
      apply (in_map (fun s => fadd s SplineWrapper.SPLINE_OFFSET_SLOPE)).
      exact Hs. }
    assert (Ln : length ss = n) by (unfold n; rewrite length_map; reflexivity).
    exists ss, r. split; [reflexivity|]. split; [reflexivity|].
    split; [lia|]. split.
    + intros HT.
      assert (Eoff : map (fun s => fadd s SplineWrapper.SPLINE_OFFSET_SLOPE)
                       (map Fin ss) = map Fin (map (fun s => s + 1 / 2) ss)).
      { rewrite !map_map. reflexivity. }
      rewrite Eoff, fsum_Fin, HT in Hfd. unfold INRf in Hfd.
      cbn [fdiv] in Hfd.
      destruct (Req_EM_T (INR n) 0) as [E|_].
      { revert E. apply not_0_INR. lia. }
      replace (0 / INR n) with 0 in Hfd by (unfold Rdiv; ring).
      destruct ss as [|s ss]; [simpl in Ln; lia|].
      cbn [map forallb fdiv] in Hfd.
      destruct (Req_EM_T 0 0) as [_|C]; [|contradiction].
      unfold inf_signed in Hfd.
      destruct (Rlt_dec 0 (s + 1 / 2)); [discriminate|].
      destruct (Rlt_dec (s + 1 / 2) 0); discriminate.
    + cbn [fneg] in Hinc.
      destruct (linspace_first_two r n Hn) as [a [b [rest [El Hd]]]].
      rewrite El in Hinc. cbn [diff existsb fsub fneg fadd fle] in Hinc.
      unfold Rleb in Hinc.
      destruct (Rle_dec (b + - a) 0) as [_|Hgt]; [discriminate|].
      assert (Hn1 : 0 < INR (n - 1)) by (apply lt_0_INR; lia).
      assert (Hpos : 0 < 2 * r / INR (n - 1)) by lra.
      assert (Hinv : 0 < / INR (n - 1)) by (apply Rinv_0_lt_compat; exact Hn1).
      unfold Rdiv in Hpos. nra.
  - intros (ss & r & -> & -> & Hn & HT & Hr).
    destruct (spline_nodes ss r Hn HT Hr) as [w [Hw _]].
    exists w. exact Hw.
Qed.

Lemma SplineWrapper_init_returns_iff_witness :
  (exists w, SplineWrapper.__init__ [Fin 0; Fin 1; Fin 0] (Fin 3) = Some w) /\
  SplineWrapper.__init__ [Fin 1; PInf; Fin 0] (Fin 3) = None /\
  SplineWrapper.__init__ [Fin 0; Fin 1; Fin 0] (Fin (- 3)) = None /\
  SplineWrapper.__init__ [Fin 1] (Fin 3) = None.
Proof.
  split; [|split; [|split]].
  - apply (proj2 (SplineWrapper_init_returns_iff [Fin 0; Fin 1; Fin 0] (Fin 3))).
    exists [0; 1; 0], 3. repeat split.
    + simpl. lia.
    + unfold Rsum. simpl. lra.
    + lra.
  - destruct (SplineWrapper.__init__ [Fin 1; PInf; Fin 0] (Fin 3)) as [w|] eqn:E;
      [exfalso|reflexivity].
    destruct (proj1 (SplineWrapper_init_returns_iff _ _) (ex_intro _ w E))
      as (ss & r & Hs & _).
    destruct ss as [|a [|b ss]]; discriminate.
  - destruct (SplineWrapper.__init__ [Fin 0; Fin 1; Fin 0] (Fin (- 3)))
      as [w|] eqn:E; [exfalso|reflexivity].
    destruct (proj1 (SplineWrapper_init_returns_iff _ _) (ex_intro _ w E))
      as (ss & r & _ & Hr & _ & _ & Hpos).
    injection Hr as Hr. lra.
  - destruct (SplineWrapper.__init__ [Fin 1] (Fin 3)) as [w|] eqn:E;
      [exfalso|reflexivity].
    destruct (proj1 (SplineWrapper_init_returns_iff _ _) (ex_intro _ w E))
      as (ss & r & Hs & _ & Hn & _).
    apply (f_equal (@length float)) in Hs. rewrite length_map in Hs.
    simpl in Hs. lia.
Defined.

Lemma Rsum_pos (l : list R) :
  l <> [] -> (forall x, In x l -> 0 < x) -> 0 < Rsum l.
Proof.
  induction l as [|x l IH]; [contradiction|]. intros _ H.
  rewrite Rsum_cons. destruct l as [|y l].
  - unfold Rsum. simpl. specialize (H x (or_introl eq_refl)). lra.
  - assert (0 < Rsum (y :: l)).
    { apply IH; [discriminate|]. intros z Hz. apply H. right. assumption. }
    specialize (H x (or_introl eq_refl)). lra.
Qed.

(** X16.  For [n >= 2] finite slopes that are all above [-1/2] (the offset
    the constructor adds) and [x_range > 0], every tangent handed to the
    spline is positive and the node values increase strictly from one grid
    point to the next. *)
Theorem SplineWrapper_nodes_increasing (ss : list R) (xr : R) :
  (2 <= length ss)%nat -> (forall s, In s ss -> - (1 / 2) < s) -> 0 < xr ->
  exists w ts,
    SplineWrapper.__init__ (map Fin ss) (Fin xr) = Some w /\
    SplineWrapper.dy_dx (SplineWrapper.the_spline w) = map Fin ts /\
    (forall t, In t ts -> 0 < t) /\
    (forall j, (S j < length ss)%nat ->
       exists a b,
         nth_error (SplineWrapper.y_points (SplineWrapper.the_spline w)) j =
         Some (Fin a) /\
         nth_error (SplineWrapper.y_points (SplineWrapper.the_spline w)) (S j) =
         Some (Fin b) /\ a < b).
Proof.
  intros Hn Hs Hxr.
  assert (Hne : map (fun s => s + 1 / 2) ss <> []).
  { destruct ss; [simpl in Hn; lia|discriminate]. }
  set (n := length ss) in *.
  set (T := Rsum (map (fun s => s + 1 / 2) ss)).
  assert (HT : 0 < T).
  { apply Rsum_pos.
    - exact Hne.
    - intros x Hx. apply in_map_iff in Hx. destruct Hx as [s [<- Hin]].
      specialize (Hs s Hin). lra. }
  assert (Hn0 : 0 < INR n) by (apply lt_0_INR; lia).
  assert (Hn1 : 0 < INR (n - 1)) by (apply lt_0_INR; lia).
  assert (Hdx : 0 < 2 * xr / INR (n - 1)).
  { apply Rdiv_lt_0_compat; lra. }
  assert (Hpos : forall t,
            In t (map (fun s => (s + 1 / 2) / (T / INR n)) ss) -> 0 < t).
  { intros t Ht. apply in_map_iff in Ht. destruct Ht as [s [<- Hin]].
    specialize (Hs s Hin). apply Rdiv_lt_0_compat; [lra|].
    apply Rdiv_lt_0_compat; assumption. }
  destruct (spline_nodes ss xr Hn ltac:(fold T; lra) Hxr)
    as [w [Hw [_ [_ [Hd [_ Hy]]]]]].
  fold n in Hy. fold T in Hy, Hd.
  exists w, (map (fun s => (s + 1 / 2) / (T / INR n)) ss).
  split; [exact Hw|]. split; [exact Hd|]. split; [exact Hpos|].
  intros j Hj.
  destruct (nth_error_Some_lt
              (map (fun s => (s + 1 / 2) / (T / INR n)) ss) j) as [t Et].
  { rewrite length_map. fold n. lia. }
  eexists. eexists. split; [apply Hy; lia|]. split; [apply Hy; lia|].
  rewrite (Rsum_firstn_S _ _ _ Et).
  assert (0 < t) by (apply Hpos; eapply nth_error_In; exact Et).
  nra.
Qed.

Lemma SplineWrapper_nodes_increasing_witness :
  exists w ts,
    SplineWrapper.__init__ (map Fin [0; 1; 0]) (Fin 3) = Some w /\
    SplineWrapper.dy_dx (SplineWrapper.the_spline w) = map Fin ts /\
    (forall t, In t ts -> 0 < t) /\
    (forall j, (S j < length [0; 1; 0])%nat ->
       exists a b,
         nth_error (SplineWrapper.y_points (SplineWrapper.the_spline w)) j =
         Some (Fin a) /\
         nth_error (SplineWrapper.y_points (SplineWrapper.the_spline w)) (S j) =
         Some (Fin b) /\ a < b).
Proof.
  apply (SplineWrapper_nodes_increasing [0; 1; 0] 3).
  - simpl. lia.
  - intros s [<-|[<-|[<-|[]]]]; lra.
  - lra.
Defined.

(** ** The binned one-dimensional density *)

Module PC := piecewise_constant_distribution_normalized.

Lemma linspace_R_nth_val (a b : R) (n j : nat) :
  (1 <= n)%nat -> (j <= n)%nat ->
  nth j (linspace_R a b (n + 1)) 0 = a + INR j * ((b - a) / INR n).
Proof.
  intros Hn Hj. destruct n as [|m]; [lia|].
  replace (S m + 1)%nat with (S (S m)) by lia. unfold linspace_R.
  replace (S (S m) - 1)%nat with (S m) by lia.
  assert (INR (S m) <> 0) by (apply not_0_INR; lia).
  destruct (Nat.eq_dec j (S m)) as [->|Hne].
  - rewrite app_nth2 by (rewrite length_map, length_seq; lia).
    rewrite length_map, length_seq, Nat.sub_diag. cbn [nth]. field. assumption.
  - rewrite app_nth1 by (rewrite length_map, length_seq; lia).
    apply nth_map_seq. lia.
Qed.

Lemma bwb_nth (l : list R) (i : nat) :
  nth i ((NInf :: map Fin l) ++ [PInf]) NaN =
  match i with
  | O => NInf
  | S j => if Nat.ltb j (length l) then Fin (nth j l 0)
           else if Nat.eqb j (length l) then PInf else NaN
  end.
Proof.
  destruct i as [|j]; [reflexivity|]. cbn [app nth].
  destruct (Nat.ltb_spec j (length l)) as [Hj|Hj].
  - rewrite app_nth1 by (rewrite length_map; assumption).
    apply nth_map_Fin. assumption.
  - rewrite app_nth2 by (rewrite length_map; assumption).
    rewrite length_map. destruct (Nat.eqb_spec j (length l)) as [->|Hne].
    + rewrite Nat.sub_diag. reflexivity.
    + destruct (j - length l)%nat as [|[|q]] eqn:E; try reflexivity. lia.
Qed.

Lemma bin_one_hot (a b x : R) (n k i : nat) :
  a < b -> (k < n)%nat ->
  a + INR k * ((b - a) / INR n) <= x < a + INR (S k) * ((b - a) / INR n) ->
  fle (nth i ((NInf :: map Fin (linspace_R a b (n + 1))) ++ [PInf]) NaN) (Fin x)
  && flt (Fin x)
       (nth (i + 1) ((NInf :: map Fin (linspace_R a b (n + 1))) ++ [PInf]) NaN)
  = Nat.eqb (S k) i.
Proof.
  intros Hab Hk Hx.
  assert (Hd : 0 < (b - a) / INR n).
  { apply Rdiv_lt_0_compat; [lra|]. apply lt_0_INR. lia. }
  set (dl := (b - a) / INR n) in *.
  assert (Hle : forall j, (j <= n)%nat ->
            (nth j (linspace_R a b (n + 1)) 0 <= x <-> (j <= k)%nat)).
  { intros j Hj. rewrite linspace_R_nth_val by lia. fold dl. split.
    - intros H. destruct (Nat.le_gt_cases j k) as [L|L]; [exact L|].
      exfalso. assert (INR (S k) <= INR j) by (apply le_INR; lia). nra.
    - intros L. assert (INR j <= INR k) by (apply le_INR; exact L). nra. }
  replace (i + 1)%nat with (S i) by lia. rewrite !bwb_nth.
  rewrite linspace_R_length.
  destruct i as [|j].
  - (* the cell below the first edge *)
    replace (Nat.ltb 0 (n + 1)) with true by (symmetry; apply Nat.ltb_lt; lia).
    cbn [fle flt Nat.eqb andb]. apply Rltb_false. apply Hle; lia.
  - destruct (Nat.ltb_spec j (n + 1)) as [Hj|Hj].
    + destruct (Nat.ltb_spec (S j) (n + 1)) as [Hj'|Hj'].
      * cbn [fle flt]. unfold Rleb, Rltb.
        pose proof (Hle j ltac:(lia)) as L1.
        pose proof (Hle (S j) ltac:(lia)) as L2.
        destruct (Rle_dec (nth j (linspace_R a b (n + 1)) 0) x) as [E1|E1],
          (Rlt_dec x (nth (S j) (linspace_R a b (n + 1)) 0)) as [E2|E2],
          (Nat.eqb_spec (S k) (S j)) as [E3|E3];
          cbn [andb]; try reflexivity; exfalso.
        -- apply E3. f_equal. apply L1 in E1.
           assert (~ (S j <= k)%nat) by (intros C; apply L2 in C; lra). lia.
        -- apply E2. apply Rnot_le_lt. intros C. apply L2 in C. lia.
        -- apply E1. apply L1. lia.
        -- apply E1. apply L1. lia.
      * assert (j = n) by lia. subst j.
        replace (Nat.eqb (S n) (n + 1)) with true
          by (symmetry; apply Nat.eqb_eq; lia).
        cbn [fle flt]. unfold Rleb.
        destruct (Rle_dec (nth n (linspace_R a b (n + 1)) 0) x) as [E1|E1].
        -- apply (Hle n ltac:(lia)) in E1. lia.
        -- cbn [andb]. symmetry. apply Nat.eqb_neq. lia.
    + destruct (Nat.eqb_spec j (n + 1)).
      * cbn [fle andb]. symmetry. apply Nat.eqb_neq. lia.
      * cbn [fle andb]. symmetry. apply Nat.eqb_neq. lia.
Qed.

Lemma pcdn_init_norm (a b : R) (ws : list R) :
  a <> b -> Rsum ws <> 0 ->
  exists d,
    PC.__init__ (Fin a) (Fin b) (map Fin ws) = Some d /\
    PC.n_bins d = length ws /\
    PC.bins d = linspace (Fin a) (Fin b) (length ws + 1) /\
    PC.bins_with_boundaries d =
    (NInf :: linspace (Fin a) (Fin b) (length ws + 1)) ++ [PInf] /\
    PC.delta_bin d = Fin ((b - a) / INR (length ws)) /\
    PC.weights_with_boundaries_normalized d =
    map Fin (map (Rmult (1 / Rsum ws * 1 / ((b - a) / INR (length ws))))
               (0 :: ws ++ [0])) /\
    PC.cumulated_normalized_weights d =
    cumsum (PC.weights_with_boundaries_normalized d).
Proof.
  intros Hab Hs.
  assert (Hn : (1 <= length ws)%nat).
  { destruct ws; [exfalso; apply Hs; reflexivity|simpl; lia]. }
  unfold PC.__init__. rewrite length_map.
  set (n := length ws) in *.
  assert (Hn0 : INR n <> 0) by (apply not_0_INR; lia).
  assert (Hd : (b - a) / INR n <> 0).
  { intros Z. apply Hab.
    apply (f_equal (fun z => z * INR n)) in Z. field_simplify in Z; lra. }
  pose proof (linspace_R_nth_val a b n 0 Hn ltac:(lia)) as V0.
  pose proof (linspace_R_nth_val a b n 1 Hn ltac:(lia)) as V1.
  rewrite linspace_Fin.
  assert (L : length (linspace_R a b (n + 1)) = (n + 1)%nat)
    by apply linspace_R_length.
  rewrite !(nth_error_nth' _ NaN) by (rewrite length_map; lia).
  rewrite !nth_map_Fin by lia. rewrite V0, V1.
  cbn [bind fsub fneg fadd]. rewrite fsum_Fin. cbn [fdiv].
  destruct (Req_EM_T (Rsum ws) 0); [contradiction|]. cbn [fmul fdiv].
  replace (a + INR 1 * ((b - a) / INR n) + - (a + INR 0 * ((b - a) / INR n)))
    with ((b - a) / INR n) by (simpl; lra).
  destruct (Req_EM_T ((b - a) / INR n) 0); [contradiction|].
  eexists. split; [reflexivity|].
  cbn [PC.n_bins PC.bins PC.bins_with_boundaries PC.delta_bin
       PC.weights_with_boundaries_normalized
       PC.cumulated_normalized_weights].
  do 4 (split; [reflexivity|]). split; [|reflexivity].
  cbn [app map]. rewrite !map_app, !map_map. reflexivity.
Qed.

Lemma pcdn_pdf_in_bin (a b x : R) (ws wn : list R) (k : nat) (d : PC.t) :
  PC.n_bins d = length ws ->
  PC.bins_with_boundaries d =
  (NInf :: linspace (Fin a) (Fin b) (length ws + 1)) ++ [PInf] ->
  PC.weights_with_boundaries_normalized d = map Fin wn ->
  length wn = (length ws + 2)%nat ->
  a < b -> (k < length ws)%nat ->
  a + INR k * ((b - a) / INR (length ws)) <= x
  < a + INR (S k) * ((b - a) / INR (length ws)) ->
  PC.pdf d [Fin x] = Some [Fin (nth (S k) wn 0)].
Proof.
  intros Hn Hb Hw Lw Hab Hk Hx.
  unfold PC.pdf, PC.get_conditions. rewrite Hn, Hb, Hw, linspace_Fin.
  set (n := length ws) in *.
  set (bwb := (NInf :: map Fin (linspace_R a b (n + 1))) ++ [PInf]).
  assert (Lb : length bwb = (n + 3)%nat).
  { unfold bwb. rewrite length_app. cbn [length].
    rewrite length_map, linspace_R_length. lia. }
  rewrite (for_range_map _
             (fun i => [fle (nth i bwb NaN) (Fin x)
                        && flt (Fin x) (nth (i + 1) bwb NaN)])).
  2:{ intros i Hi. apply in_seq in Hi.
      rewrite (nth_error_nth' bwb NaN) by lia.
      rewrite (nth_error_nth' bwb NaN) by lia. reflexivity. }
  cbn [bind]. unfold piecewise.
  rewrite !length_map, length_seq, Lw.
  replace (Nat.eqb (n + 2) (n + 2 - 1) && negb (Nat.eqb (n + 2) 0)) with false.
  2:{ symmetry. apply andb_false_iff. left. apply Nat.eqb_neq. lia. }
  rewrite Nat.eqb_refl. cbn [map].
  rewrite (piecewise_loop_select _ (S k)
             (fun i => fle (nth i bwb NaN) (Fin x)
                       && flt (Fin x) (nth (i + 1) bwb NaN))).
  - replace (Nat.leb 0 (S k) && Nat.ltb (S k) (0 + (n + 2))) with true.
    + rewrite Nat.sub_0_r. rewrite nth_map_Fin by lia. reflexivity.
    + symmetry. apply andb_true_iff. split;
        [apply Nat.leb_le|apply Nat.ltb_lt]; lia.
  - intros i. apply bin_one_hot; assumption.
  - rewrite length_map. assumption.
Qed.

(** X17.  For a [BinModel1d] over finite [dist_min < dist_max] with [n]
    weights that are not negative and not all zero, and a finite [x] in bin
    [k] (from [dist_min + k * delta] up to, not including, [dist_min +
    (k+1) * delta], with [delta = (dist_max - dist_min) / n]), the binned
    density and the density of the model are both [w_k / (sum w * delta)].
    These bin values times the bin width add up to 1. *)
Theorem BinModel1d_density_in_bin (a b x : R) (ws : list R) (k : nat) :
  let n := length ws in
  let delta := (b - a) / INR n in
  a < b -> (forall w, In w ws -> 0 <= w) -> 0 < Rsum ws -> (k < n)%nat ->
  a + INR k * delta <= x < a + INR (S k) * delta ->
  exists m,
    BinModel1d.__init__ (Fin a) (Fin b) (map Fin ws) = Some m /\
    PC.pdf (BinModel1d.distribution m) [Fin x] =
    Some [Fin (nth k ws 0 / (Rsum ws * delta))] /\
    basic_1dimpdf.pdf (BinModel1d.as_pdf m) [Fin x] =
    Some [Fin (nth k ws 0 / (Rsum ws * delta))] /\
    Rsum (map (fun w => w / (Rsum ws * delta) * delta) ws) = 1.
Proof.
  intros n delta Hab Hw Hs Hk Hx.
  assert (Hn0 : 0 < INR n) by (apply lt_0_INR; lia).
  assert (Hd : 0 < delta) by (apply Rdiv_lt_0_compat; lra).
  destruct (pcdn_init_norm a b ws ltac:(lra) ltac:(lra))
    as [d [Ed [Hn [_ [Hb [_ [Hwn _]]]]]]].
  fold n in Hn, Hb, Hwn. fold delta in Hwn.
  set (wn := map (Rmult (1 / Rsum ws * 1 / delta)) (0 :: ws ++ [0])) in *.
  assert (Lw : length wn = (n + 2)%nat).
  { unfold wn. rewrite length_map. cbn [length]. rewrite length_app.
    cbn [length]. fold n. lia. }
  assert (Ev : nth (S k) wn 0 = nth k ws 0 / (Rsum ws * delta)).
  { unfold wn.
    rewrite (nth_indep _ 0 (Rmult (1 / Rsum ws * 1 / delta) 0))
      by (rewrite length_map; cbn [length]; rewrite length_app;
          cbn [length]; fold n; lia).
    rewrite map_nth. cbn [nth]. rewrite app_nth1 by (fold n; lia).
    field. split; lra. }
  pose proof (pcdn_pdf_in_bin a b x ws wn k d Hn Hb Hwn Lw Hab Hk Hx) as Hp.
  rewrite Ev in Hp.
  assert (Hv : 0 <= nth k ws 0 / (Rsum ws * delta)).
  { apply Rmult_le_pos.
    - apply Hw, nth_In. fold n. assumption.
    - apply Rlt_le, Rinv_0_lt_compat, Rmult_lt_0_compat; assumption. }
  unfold BinModel1d.__init__. rewrite Ed. cbn [bind].
  set (m := BinModel1d.mk (Fin a) (Fin b) (Fin a) (Fin b) (map Fin ws) d).
  exists m. split; [reflexivity|]. split; [exact Hp|]. split.
  - unfold basic_1dimpdf.pdf.
    rewrite (log_pdf_singleton _ _
               (flog (Fin (nth k ws 0 / (Rsum ws * delta))))).
    2:{ cbn [BinModel1d.as_pdf basic_1dimpdf._log_pdf].
        unfold BinModel1d._log_pdf. cbn [BinModel1d.distribution m].
        rewrite Hp. reflexivity. }
    cbn [BinModel1d.as_pdf basic_1dimpdf.minval basic_1dimpdf.maxval
         BinModel1d.minval BinModel1d.maxval m].
    assert (Hin : a <= x <= b).
    { assert (0 <= INR k) by apply pos_INR.
      assert (INR (S k) <= INR n) by (apply le_INR; lia).
      assert (INR n * delta = b - a) by (unfold delta; field; lra).
      split; nra. }
    replace (flt (Fin x) (Fin a)) with false
      by (symmetry; apply Rltb_false; lra).
    replace (fgt (Fin x) (Fin b)) with false
      by (symmetry; apply Rltb_false; lra).
    cbn [orb bind map]. rewrite fexp_flog_Fin by assumption. reflexivity.
  - replace (map (fun w => w / (Rsum ws * delta) * delta) ws)
      with (map (fun w => w / Rsum ws) ws)
      by (apply map_ext; intros w; field; split; lra).
    rewrite Rsum_map_div. field. lra.
Qed.

Lemma BinModel1d_density_in_bin_witness :
  exists m,
    BinModel1d.__init__ (Fin 0) (Fin 2) (map Fin [1; 3]) = Some m /\
    basic_1dimpdf.pdf (BinModel1d.as_pdf m) [Fin (3 / 2)] =
    Some [Fin (nth 1 [1; 3] 0
               / (Rsum [1; 3] * ((2 - 0) / INR (length [1; 3]))))].
Proof.
  destruct (BinModel1d_density_in_bin 0 2 (3 / 2) [1; 3] 1)
    as [m [Hm [_ [Hp _]]]].
  - lra.
  - intros w [<-|[<-|[]]]; lra.
  - unfold Rsum. simpl. lra.
  - simpl. lia.
  - simpl. lra.
  - exists m. split; assumption.
Defined.

(** ** The binned one-dimensional cumulative *)

Lemma piecewise_step (x y : float) (c : bool) (pc : piece)
  (cs : list (list bool)) (ps : list piece) :
  (forall g, pc = Func g -> exists v, g [x] = [v]) ->
  piecewise_loop [x] ([c] :: cs) (pc :: ps) [y] =
  piecewise_loop [x] cs ps [if c then piece_at pc x else y].
Proof.
  intros Hg. cbn [piecewise_loop]. destruct pc as [v|g].
  - unfold mask_assign. cbn [length Nat.eqb combine map fst snd bind].
    destruct c; reflexivity.
  - cbn [length Nat.eqb select]. destruct c; [|reflexivity].
    destruct (Hg g eq_refl) as [v Ev]. cbn [piece_at]. rewrite Ev.
    reflexivity.
Qed.

Lemma piecewise_loop_pieces (x : float) (p : nat) (f : nat -> bool) :
  (forall k, f k = Nat.eqb p k) ->
  forall (m s : nat) (ps : list piece) (y : float),
    length ps = m ->
    (forall g, In (Func g) ps -> exists v, g [x] = [v]) ->
    piecewise_loop [x] (map (fun k => [f k]) (seq s m)) ps [y] =
    Some [if Nat.leb s p && Nat.ltb p (s + m)
          then piece_at (nth (p - s) ps (Const NaN)) x else y].
Proof.
  intros Hf. induction m as [|m IH]; intros s [|pc ps] y L Hg; try discriminate.
  - simpl. destruct (Nat.leb_spec s p), (Nat.ltb_spec p (s + 0));
      cbn [andb]; try reflexivity; lia.
  - cbn [seq map]. rewrite Hf.
    rewrite piecewise_step
      by (intros g ->; apply Hg; left; reflexivity).
    rewrite IH; [|simpl in L; lia|intros g Hin; apply Hg; right; exact Hin].
    do 2 f_equal.
    destruct (Nat.eqb_spec p s) as [->|Hne].
    + replace ((S s <=? s)%nat) with false by (symmetry; apply Nat.leb_gt; lia).
      replace ((s <=? s)%nat) with true by (symmetry; apply Nat.leb_le; lia).
      replace ((s <? s + S m)%nat) with true by (symmetry; apply Nat.ltb_lt; lia).
      cbn [andb]. rewrite Nat.sub_diag. reflexivity.
    + destruct (Nat.leb_spec (S s) p), (Nat.leb_spec s p),
        (Nat.ltb_spec p (S s + m)), (Nat.ltb_spec p (s + S m));
        cbn [andb]; try reflexivity; try lia.
      replace (p - s)%nat with (S (p - S s)) by lia. reflexivity.
Qed.

Lemma cumsum_from_length (acc : float) (l : array) :
  length (cumsum_from acc l) = length l.
Proof.
  revert acc. induction l as [|x l IH]; intros acc; simpl; [reflexivity|].
  rewrite IH. reflexivity.
Qed.

Lemma cumsum_from_nth (acc : R) (l : list R) (k : nat) :
  (k < length l)%nat ->
  nth k (cumsum_from (Fin acc) (map Fin l)) NaN =
  Fin (acc + Rsum (firstn (S k) l)).
Proof.
  revert acc k. induction l as [|x l IH]; intros acc k Hk; simpl in Hk; [lia|].
  cbn [map cumsum_from fadd]. destruct k as [|k].
  - cbn [nth firstn]. rewrite Rsum_cons. unfold Rsum. simpl.
    apply Fin_eq. lra.
  - cbn [nth]. rewrite IH by lia.
    change (firstn (S (S k)) (x :: l)) with (x :: firstn (S k) l).
    rewrite Rsum_cons. apply Fin_eq. lra.
Qed.

Lemma Rsum_map_Rmult (c : R) (l : list R) :
  Rsum (map (Rmult c) l) = c * Rsum l.
Proof.
  induction l as [|x l IH]; simpl.
  - unfold Rsum. simpl. lra.
  - rewrite !Rsum_cons, IH. lra.
Qed.

Lemma Rsum_nonneg (l : list R) : (forall x, In x l -> 0 <= x) -> 0 <= Rsum l.
Proof.
  induction l as [|x l IH]; intros H.
  - unfold Rsum. simpl. lra.
  - rewrite Rsum_cons.
    assert (0 <= Rsum l) by (apply IH; intros; apply H; right; assumption).
    specialize (H x (or_introl eq_refl)). lra.
Qed.

Lemma top_one_hot (a b x : R) (n i : nat) :
  a < b -> (1 <= n)%nat -> b <= x ->
  fle (nth i ((NInf :: map Fin (linspace_R a b (n + 1))) ++ [PInf]) NaN) (Fin x)
  && flt (Fin x)
       (nth (i + 1) ((NInf :: map Fin (linspace_R a b (n + 1))) ++ [PInf]) NaN)
  = Nat.eqb (S n) i.
Proof.
  intros Hab Hn Hx.
  assert (Hn0 : 0 < INR n) by (apply lt_0_INR; lia).
  assert (Hd : 0 < (b - a) / INR n) by (apply Rdiv_lt_0_compat; lra).
  assert (Hle : forall j, (j <= n)%nat ->
                          nth j (linspace_R a b (n + 1)) 0 <= x).
  { intros j Hj. rewrite linspace_R_nth_val by lia.
    assert (INR j <= INR n) by (apply le_INR; exact Hj).
    assert (INR n * ((b - a) / INR n) = b - a) by (field; lra).
    nra. }
  replace (i + 1)%nat with (S i) by lia. rewrite !bwb_nth.
  rewrite linspace_R_length.
  destruct i as [|j].
  - replace (Nat.ltb 0 (n + 1)) with true by (symmetry; apply Nat.ltb_lt; lia).
    cbn [fle flt Nat.eqb andb]. apply Rltb_false. apply Hle. lia.
  - destruct (Nat.ltb_spec j (n + 1)) as [Hj|Hj].
    + destruct (Nat.ltb_spec (S j) (n + 1)) as [Hj'|Hj'].
      * cbn [fle flt]. replace (Rltb x (nth (S j) (linspace_R a b (n + 1)) 0))
          with false by (symmetry; apply Rltb_false; apply Hle; lia).
        rewrite andb_false_r. symmetry. apply Nat.eqb_neq. lia.
      * assert (j = n) by lia. subst j.
        replace (Nat.eqb (S n) (n + 1)) with true
          by (symmetry; apply Nat.eqb_eq; lia).
        cbn [fle flt]. unfold Rleb.
        destruct (Rle_dec (nth n (linspace_R a b (n + 1)) 0) x) as [E1|E1].
        -- cbn [andb]. symmetry. apply Nat.eqb_refl.
        -- exfalso. apply E1, Hle. lia.
    + destruct (Nat.eqb_spec j (n + 1)).
      * cbn [fle andb]. symmetry. apply Nat.eqb_neq. lia.
      * cbn [fle andb]. symmetry. apply Nat.eqb_neq. lia.
Qed.

Lemma pcdn_cdf_select (a b x dl : R) (ws wn : list R) (p : nat) (d : PC.t) :
  PC.n_bins d = length ws ->
  PC.bins d = linspace (Fin a) (Fin b) (length ws + 1) ->
  PC.bins_with_boundaries d =
  (NInf :: linspace (Fin a) (Fin b) (length ws + 1)) ++ [PInf] ->
  PC.delta_bin d = Fin dl ->
  PC.weights_with_boundaries_normalized d = map Fin wn ->
  PC.cumulated_normalized_weights d = cumsum (map Fin wn) ->
  length wn = (length ws + 2)%nat ->
  (forall i,
     fle (nth i ((NInf :: map Fin (linspace_R a b (length ws + 1))) ++ [PInf])
            NaN) (Fin x)
     && flt (Fin x)
          (nth (i + 1)
             ((NInf :: map Fin (linspace_R a b (length ws + 1))) ++ [PInf])
             NaN) = Nat.eqb p i) ->
  (p < length ws + 2)%nat ->
  PC.cdf d [Fin x] =
  Some [piece_at
          (nth p
             ([Const (Fin 0)]
              ++ map (fun i =>
                        linear_function (Fin (nth (i + 1) wn 0))
                          (Fin (nth i (linspace_R a b (length ws + 1)) 0))
                          (fmul (nth i (cumsum (map Fin wn)) NaN) (Fin dl)))
                   (seq 0 (length ws))
              ++ [Const (Fin 1)])
             (Const NaN))
          (Fin x)].
Proof.
  intros Hn Hbins Hb Hdl Hw Hcum Lw Hot Hp.
  unfold PC.cdf, PC.get_conditions.
  rewrite Hn, Hbins, Hb, Hdl, Hw, Hcum, linspace_Fin.
  set (n := length ws) in *.
  set (bwb := (NInf :: map Fin (linspace_R a b (n + 1))) ++ [PInf]) in *.
  assert (Lb : length bwb = (n + 3)%nat).
  { unfold bwb. rewrite length_app. cbn [length].
    rewrite length_map, linspace_R_length. lia. }
  rewrite (for_range_map _
             (fun i => [fle (nth i bwb NaN) (Fin x)
                        && flt (Fin x) (nth (i + 1) bwb NaN)])).
  2:{ intros i Hi. apply in_seq in Hi.
      rewrite (nth_error_nth' bwb NaN) by lia.
      rewrite (nth_error_nth' bwb NaN) by lia. reflexivity. }
  cbn [bind].
  rewrite (for_range_map _
             (fun i =>
                linear_function (Fin (nth (i + 1) wn 0))
                  (Fin (nth i (linspace_R a b (n + 1)) 0))
                  (fmul (nth i (cumsum (map Fin wn)) NaN) (Fin dl)))).
  2:{ intros i Hi. apply in_seq in Hi.
      rewrite (nth_error_nth' (map Fin wn) NaN) by (rewrite length_map; lia).
      rewrite (nth_error_nth' (map Fin (linspace_R a b (n + 1))) NaN)
        by (rewrite length_map, linspace_R_length; lia).
      rewrite (nth_error_nth' (cumsum (map Fin wn)) NaN)
        by (unfold cumsum; rewrite cumsum_from_length, length_map; lia).
      cbn [bind]. rewrite !nth_map_Fin
        by (rewrite ?linspace_R_length; lia).
      reflexivity. }
  cbn [bind]. unfold piecewise.
  rewrite !length_app, !length_map, !length_seq. cbn [length].
  replace (Nat.eqb (n + 2) (1 + (n + 1) - 1) && negb (Nat.eqb (1 + (n + 1)) 0))
    with false.
  2:{ symmetry. apply andb_false_iff. left. apply Nat.eqb_neq. lia. }
  replace (Nat.eqb (n + 2) (1 + (n + 1))) with true
    by (symmetry; apply Nat.eqb_eq; lia).
  cbn [map].
  rewrite (piecewise_loop_pieces _ p
             (fun i => fle (nth i bwb NaN) (Fin x)
                       && flt (Fin x) (nth (i + 1) bwb NaN))).
  - replace (Nat.leb 0 p && Nat.ltb p (0 + (n + 2))) with true.
    + rewrite Nat.sub_0_r. reflexivity.
    + symmetry. apply andb_true_iff. split;
        [apply Nat.leb_le|apply Nat.ltb_lt]; lia.
  - exact Hot.
  - rewrite !length_app, length_map, length_seq. cbn [length]. lia.
  - intros g Hg. apply in_app_or in Hg. destruct Hg as [[Hg|[]]|Hg];
      [discriminate|].
    apply in_app_or in Hg. destruct Hg as [Hg|[Hg|[]]]; [|discriminate].
    apply in_map_iff in Hg. destruct Hg as [i [Hg _]].
    unfold linear_function in Hg. injection Hg as <-.
    eexists. reflexivity.
Qed.

Lemma nth_map_seq_gen {A} (f : nat -> A) (k i : nat) (d : A) :
  (i < k)%nat -> nth i (map f (seq 0 k)) d = f i.
Proof.
  intros Hi. rewrite (nth_indep _ d (f 0%nat))
    by (rewrite length_map, length_seq; lia).
  rewrite map_nth, seq_nth by assumption. reflexivity.
Qed.

Lemma In_firstn {A} (k : nat) (l : list A) (x : A) :
  In x (firstn k l) -> In x l.
Proof.
  intros H. rewrite <- (firstn_skipn k l). apply in_or_app. left. exact H.
Qed.

Lemma Rsum_firstn_boundaries (c : R) (ws : list R) (k : nat) :
  (k <= length ws)%nat ->
  Rsum (firstn (S k) (map (Rmult c) (0 :: ws ++ [0]))) =
  c * Rsum (firstn k ws).
Proof.
  intros Hk. rewrite firstn_map, Rsum_map_Rmult.
  cbn [firstn]. rewrite Rsum_cons, firstn_app.
  replace (k - length ws)%nat with 0%nat by lia.
  cbn [firstn]. rewrite app_nil_r. lra.
Qed.

(** X18.  For a [BinModel1d] over finite [dist_min < dist_max] with [n]
    weights that are not negative and not all zero, the cumulative at a
    finite [x] in bin [k] is the share of the weights before [k] plus the
    share of [w_k] times the fraction of the bin below [x]: it starts from 0
    at [dist_min], runs in each bin from the share of the weights before it
    to the share of the weights through it, and is 1 at [dist_max] and
    above. *)
Theorem BinModel1d_cumulative (a b : R) (ws : list R) :
  let n := length ws in
  let delta := (b - a) / INR n in
  let F := fun k x =>
             (Rsum (firstn k ws)
              + nth k ws 0 * ((x - (a + INR k * delta)) / delta)) / Rsum ws in
  a < b -> (forall w, In w ws -> 0 <= w) -> 0 < Rsum ws ->
  exists m,
    BinModel1d.__init__ (Fin a) (Fin b) (map Fin ws) = Some m /\
    (forall k x, (k < n)%nat ->
       a + INR k * delta <= x < a + INR (S k) * delta ->
       PC.cdf (BinModel1d.distribution m) [Fin x] = Some [Fin (F k x)] /\
       basic_1dimpdf.cdf (BinModel1d.as_pdf m) [Fin x] = Some [Fin (F k x)]) /\
    (forall x, b <= x ->
       PC.cdf (BinModel1d.distribution m) [Fin x] = Some [Fin 1] /\
       basic_1dimpdf.cdf (BinModel1d.as_pdf m) [Fin x] = Some [Fin 1]) /\
    F 0%nat a = 0 /\
    (forall k, (k < n)%nat ->
       F k (a + INR k * delta) = Rsum (firstn k ws) / Rsum ws /\
       F k (a + INR (S k) * delta) = Rsum (firstn (S k) ws) / Rsum ws).
Proof.
  intros n delta F Hab Hw Hs.
  assert (Hn : (1 <= n)%nat).
  { unfold n. destruct ws; [unfold Rsum in Hs; simpl in Hs; lra|simpl; lia]. }
  assert (Hn0 : 0 < INR n) by (apply lt_0_INR; lia).
  assert (Hd : 0 < delta) by (apply Rdiv_lt_0_compat; lra).
  assert (Hnd : INR n * delta = b - a) by (unfold delta; field; lra).
  destruct (pcdn_init_norm a b ws ltac:(lra) ltac:(lra))
    as [d [Ed [Hnb [Hbins [Hb [Hdl [Hwn Hcum]]]]]]].
  fold n in Hnb, Hbins, Hb, Hdl, Hwn. fold delta in Hdl, Hwn.
  rewrite Hwn in Hcum.
  set (nr := 1 / Rsum ws * 1 / delta) in *.
  set (wn := map (Rmult nr) (0 :: ws ++ [0])) in *.
  assert (Lw : length wn = (n + 2)%nat).
  { unfold wn. rewrite length_map. cbn [length]. rewrite length_app.
    cbn [length]. fold n. lia. }
  unfold BinModel1d.__init__. rewrite Ed. cbn [bind].
  set (m := BinModel1d.mk (Fin a) (Fin b) (Fin a) (Fin b) (map Fin ws) d).
  assert (Hlift : forall x v, a <= x -> 0 <= v ->
            PC.cdf d [Fin x] = Some [Fin v] ->
            basic_1dimpdf.cdf (BinModel1d.as_pdf m) [Fin x] = Some [Fin v]).
  { intros x v Hx Hv Hc. unfold basic_1dimpdf.cdf.
    rewrite (log_cdf_singleton _ _ (flog (Fin v))).
    2:{ cbn [BinModel1d.as_pdf basic_1dimpdf._log_cdf].
        unfold BinModel1d._log_cdf. cbn [BinModel1d.distribution m].
        rewrite Hc. reflexivity. }
    cbn [BinModel1d.as_pdf basic_1dimpdf.minval basic_1dimpdf.maxval
         BinModel1d.minval BinModel1d.maxval m bind map].
    replace (flt (Fin x) (Fin a)) with false
      by (symmetry; apply Rltb_false; lra).
    destruct (fgt (Fin x) (Fin b)) eqn:Eg.
    - cbn [fgt flt] in Eg. unfold Rltb in Eg.
      destruct (Rlt_dec b x); [|discriminate].
      assert (Ev : v = 1 \/ v <> 1) by (destruct (Req_EM_T v 1); tauto).
      rewrite fexp_0. destruct Ev as [->|Hne]; [reflexivity|].
      exfalso. revert Hc. intros Hc. apply Hne. clear Hne.
      assert (Ht : PC.cdf d [Fin x] = Some [Fin 1]).
      { rewrite (pcdn_cdf_select a b x delta ws wn (S n) d Hnb Hbins Hb Hdl
                   Hwn Hcum Lw).
        - fold n. cbn [app nth].
          rewrite app_nth2 by (rewrite length_map, length_seq; lia).
          rewrite length_map, length_seq, Nat.sub_diag. reflexivity.
        - intros i. fold n. apply top_one_hot; [assumption|assumption|lra].
        - fold n. lia. }
      rewrite Ht in Hc. injection Hc as <-. reflexivity.
    - rewrite fexp_flog_Fin by assumption. reflexivity. }
  exists m. split; [reflexivity|]. split; [|split; [|split]].
  - intros k x Hk Hx.
    assert (Hin : a <= x).
    { assert (0 <= INR k) by apply pos_INR. nra. }
    assert (Hv : 0 <= F k x).
    { unfold F. apply Rmult_le_pos; [|apply Rlt_le, Rinv_0_lt_compat; lra].
      apply Rplus_le_le_0_compat.
      - apply Rsum_nonneg. intros w Hin'. apply Hw.
        apply (In_firstn k). exact Hin'.
      - apply Rmult_le_pos; [apply Hw, nth_In; assumption|].
        apply Rmult_le_pos; [lra|apply Rlt_le, Rinv_0_lt_compat; lra]. }
    assert (Hc : PC.cdf d [Fin x] = Some [Fin (F k x)]).
    { rewrite (pcdn_cdf_select a b x delta ws wn (S k) d Hnb Hbins Hb Hdl
                 Hwn Hcum Lw).
      - fold n. cbn [app nth].
        rewrite app_nth1 by (rewrite length_map, length_seq; lia).
        rewrite nth_map_seq_gen by assumption.
        unfold linear_function. cbn [piece_at map hd].
        unfold cumsum. rewrite cumsum_from_nth by lia.
        rewrite linspace_R_nth_val by lia. fold delta.
        replace (k + 1)%nat with (S k) by lia.
        assert (Ev : nth (S k) wn 0 = nr * nth k ws 0).
        { unfold wn.
          rewrite (nth_indep _ 0 (Rmult nr 0))
            by (rewrite length_map; cbn [length]; rewrite length_app;
                cbn [length]; fold n; lia).
          rewrite map_nth. cbn [nth]. rewrite app_nth1 by (fold n; lia).
          reflexivity. }
        rewrite Ev. unfold wn. rewrite Rsum_firstn_boundaries by (fold n; lia).
        cbn [fsub fneg fadd fmul]. do 2 f_equal. apply Fin_eq.
        unfold F, nr. field. split; lra.
      - intros i. fold n. apply bin_one_hot; assumption.
      - fold n. lia. }
    split; [exact Hc|]. apply Hlift; assumption.
  - intros x Hx.
    assert (Hc : PC.cdf d [Fin x] = Some [Fin 1]).
    { rewrite (pcdn_cdf_select a b x delta ws wn (S n) d Hnb Hbins Hb Hdl
                 Hwn Hcum Lw).
      - fold n. cbn [app nth].
        rewrite app_nth2 by (rewrite length_map, length_seq; lia).
        rewrite length_map, length_seq, Nat.sub_diag. reflexivity.
      - intros i. fold n. apply top_one_hot; assumption.
      - fold n. lia. }
    split; [exact Hc|]. apply Hlift; [lra|lra|exact Hc].
  - unfold F. cbn [firstn]. unfold Rsum at 1. simpl. field. split; lra.
  - intros k Hk. split.
    + unfold F. field. split; lra.
    + unfold F.
      destruct (nth_error_Some_lt ws k Hk) as [w Ew].
      rewrite (Rsum_firstn_S _ _ _ Ew).
      rewrite (nth_error_nth _ _ 0 Ew). rewrite S_INR. field. split; lra.
Qed.

Lemma BinModel1d_cumulative_witness :
  exists m,
    BinModel1d.__init__ (Fin 0) (Fin 2) (map Fin [1; 3]) = Some m /\
    basic_1dimpdf.cdf (BinModel1d.as_pdf m) [Fin 2] = Some [Fin 1].
Proof.
  destruct (BinModel1d_cumulative 0 2 [1; 3]) as [m [Hm [_ [Ht _]]]].
  - lra.
  - intros w [<-|[<-|[]]]; lra.
  - unfold Rsum. simpl. lra.
  - exists m. split; [exact Hm|]. apply Ht. lra.
Defined.

(** ** The triangular grid of the binned two-dimensional distribution *)

Lemma P2_init_some_triangular (a b : float) (ws : array) (d : P2.t) :
  P2.__init__ a b ws = Some d ->
  (1 <= P2.n_bins_1d d)%nat /\
  (length ws * 2 = P2.n_bins_1d d * (P2.n_bins_1d d + 1))%nat.
Proof.
  unfold P2.__init__.
  set (n := P2.invert_triangular (length ws)).
  destruct (nth_error (linspace a b (n + 1)) 1) as [a1|] eqn:E1;
    [|discriminate].
  destruct (nth_error (linspace a b (n + 1)) 0) as [a0|] eqn:E0;
    [|discriminate].
  cbn [bind].
  destruct (P2.compute_norm n ws (fsub a1 a0) (fsub a1 a0)) as [nr|] eqn:En;
    [|discriminate].
  cbn [bind]. intros [= <-]. cbn [P2.n_bins_1d].
  assert (Hn : (1 <= n)%nat).
  { assert (H : (1 < length (linspace a b (n + 1)))%nat).
    { apply nth_error_Some. rewrite E1. discriminate. }
    rewrite linspace_length in H. lia. }
  split; [exact Hn|].
  unfold P2.compute_norm, P2.assign in En.
  rewrite triu_length in En.
  destruct (Nat.eqb_spec (length ws) (triu_offset n n)) as [E|E].
  - rewrite E. apply triu_offset_total.
  - destruct ws as [|v [|v' ws']]; try discriminate.
    exfalso. apply E. unfold n.
    rewrite (invert_triangular_spec 1 (length [v])) by reflexivity.
    reflexivity.
Qed.

Lemma P2_init_total (a b : float) (ws : array) (n : nat) :
  (1 <= n)%nat -> (length ws * 2 = n * (n + 1))%nat ->
  exists d, P2.__init__ a b ws = Some d /\ P2.n_bins_1d d = n /\
            P2.n_bins d = length ws /\
            length (P2.grid_x1 d) = (n + 1)%nat /\
            length (P2.grid_x2 d) = (n + 1)%nat /\
            length (P2.weights_normalized d) = length ws.
Proof.
  intros Hn HN. unfold P2.__init__.
  rewrite (invert_triangular_spec n (length ws) HN).
  pose proof (linspace_length a b (n + 1)) as Lg.
  destruct (nth_error_Some_lt (linspace a b (n + 1)) 1 ltac:(lia))
    as [a1 ->].
  destruct (nth_error_Some_lt (linspace a b (n + 1)) 0 ltac:(lia))
    as [a0 ->].
  cbn [bind]. unfold P2.compute_norm, P2.assign.
  assert (L : length ws = triu_offset n n).
  { pose proof (triu_offset_total n). lia. }
  rewrite triu_length, L, Nat.eqb_refl.
  destruct (assign_loop_spec (P2.triu_indices n) ws (P2.zeros n n))
    as [M [EM [Hr [Hc _]]]].
  { rewrite triu_length. exact L. }
  { intros r c Hin. apply triu_In in Hin. simpl. lia. }
  rewrite EM. cbn [bind].
  destruct (halve_diagonal_spec n 0 M) as [M' [EM' _]].
  { rewrite Hr. simpl. lia. }
  { rewrite Hc. simpl. lia. }
  rewrite EM'. cbn [bind]. eexists. split; [reflexivity|].
  cbn [P2.n_bins_1d P2.n_bins P2.grid_x1 P2.grid_x2 P2.weights_normalized].
  rewrite length_map. repeat split; assumption.
Qed.

(** X19.  The number of weights decides alone whether the binned
    two-dimensional distribution can be built: with [n (n+1) / 2] weights,
    [n >= 1], the constructor returns for any weights and bounds, with an
    [n] by [n] grid of [n + 1] edges per axis and one normalised weight per
    weight; with a count that is no such number it raises. *)
Theorem P2_init_triangular_count (a b : float) (ws : array) :
  (forall n, (1 <= n)%nat -> (length ws * 2 = n * (n + 1))%nat ->
             exists d, P2.__init__ a b ws = Some d /\ P2.n_bins_1d d = n /\
                       P2.n_bins d = length ws /\
                       length (P2.grid_x1 d) = (n + 1)%nat /\
                       length (P2.grid_x2 d) = (n + 1)%nat /\
                       length (P2.weights_normalized d) = length ws) /\
  ((forall n, (1 <= n)%nat -> (length ws * 2 <> n * (n + 1))%nat) ->
   P2.__init__ a b ws = None).
Proof.
  split.
  - intros n Hn HN. apply P2_init_total; assumption.
  - intros Hno. destruct (P2.__init__ a b ws) as [d|] eqn:Hd; [|reflexivity].
    exfalso. destruct (P2_init_some_triangular a b ws d Hd) as [Hn HN].
    exact (Hno _ Hn HN).
Qed.

Lemma P2_init_triangular_count_witness :
  (exists d, P2.__init__ (Fin 0) (Fin 3) [Fin 1; NaN; Fin 2] = Some d /\
             P2.n_bins_1d d = 2%nat) /\
  P2.__init__ (Fin 0) (Fin 3) [Fin 1; Fin 2] = None.
Proof.
  destruct (P2_init_triangular_count (Fin 0) (Fin 3) [Fin 1; NaN; Fin 2])
    as [Hyes _].
  destruct (P2_init_triangular_count (Fin 0) (Fin 3) [Fin 1; Fin 2])
    as [_ Hno].
  split.
  - destruct (Hyes 2%nat ltac:(lia) ltac:(reflexivity)) as [d [Hd [Hn _]]].
    exists d. split; assumption.
  - apply Hno. intros n Hn. simpl. nia.
Defined.

Lemma flat_position_value (d : P2.t) (n i j : nat) :
  P2.n_bins_1d d = n -> (j <= i < n)%nat ->
  P2.compute_flat_position d ([INRf i], [INRf j]) =
  Some [INRf (triu_place n j i)].
Proof.
  intros Hn Hij. unfold P2.compute_flat_position. rewrite Hn. unfold INRf.
  cbn [map broadcast2 bind fmul fadd fsub fneg].
  cbn [fdiv]. destruct (Req_EM_T 2 0); [lra|]. cbn [map fadd fsub fneg bind].
  do 2 f_equal. apply Fin_eq. rewrite triu_place_INR by lia. lra.
Qed.

(** X20.  [compute_flat_position] numbers the bins of the triangular grid
    one to one: for an [n] by [n] grid, the bins [(i, j)] with [j <= i < n]
    get the positions [0 .. n (n+1) / 2 - 1], two different bins never get
    one position, and every position is the position of a bin. *)
Theorem compute_flat_position_numbering (d : P2.t) (n : nat) :
  P2.n_bins_1d d = n ->
  (forall i j, (j <= i < n)%nat ->
     exists k, (2 * k < n * (n + 1))%nat /\
               P2.compute_flat_position d ([INRf i], [INRf j]) =
               Some [INRf k]) /\
  (forall i j i' j', (j <= i < n)%nat -> (j' <= i' < n)%nat ->
     P2.compute_flat_position d ([INRf i], [INRf j]) =
     P2.compute_flat_position d ([INRf i'], [INRf j']) ->
     i = i' /\ j = j') /\
  (forall k, (2 * k < n * (n + 1))%nat ->
     exists i j, (j <= i < n)%nat /\
                 P2.compute_flat_position d ([INRf i], [INRf j]) =
                 Some [INRf k]).
Proof.
  intros Hn. pose proof (triu_offset_total n) as HT.
  split; [|split].
  - intros i j Hij. exists (triu_place n j i). split.
    + pose proof (triu_place_lt n j i ltac:(lia)). lia.
    + apply flat_position_value; assumption.
  - intros i j i' j' Hij Hij' E.
    rewrite (flat_position_value d n i j Hn Hij) in E.
    rewrite (flat_position_value d n i' j' Hn Hij') in E.
    injection E as E. apply INR_eq in E.
    pose proof (triu_place_nth n j i ltac:(lia)) as P1.
    pose proof (triu_place_nth n j' i' ltac:(lia)) as P2'.
    rewrite E in P1. rewrite P1 in P2'. injection P2' as -> ->.
    split; reflexivity.
  - intros k Hk.
    destruct (nth_error_Some_lt (P2.triu_indices n) k) as [[r c] Erc].
    { rewrite triu_length. lia. }
    assert (Hin : (r <= c < n)%nat).
    { apply triu_In. eapply nth_error_In. exact Erc. }
    exists c, r. split; [exact Hin|].
    rewrite (flat_position_value d n c r Hn Hin).
    rewrite (triu_nth_place n k r c Erc). reflexivity.
Qed.

Lemma compute_flat_position_numbering_witness :
  exists d,
    P2.__init__ (Fin 0) (Fin 3) (map Fin [1; 1; 1; 1; 1; 1]) = Some d /\
    P2.compute_flat_position d ([INRf 2], [INRf 1]) <>
    P2.compute_flat_position d ([INRf 1], [INRf 1]).
Proof.
  destruct (P2_init_total (Fin 0) (Fin 3) (map Fin [1; 1; 1; 1; 1; 1]) 3
              ltac:(lia) ltac:(reflexivity)) as [d [Hd [E3 _]]].
  exists d. split; [exact Hd|]. intros E.
  destruct (compute_flat_position_numbering d 3 E3) as [_ [Hinj _]].
  destruct (Hinj 2%nat 1%nat 1%nat 1%nat ltac:(lia) ltac:(lia) E). lia.
Defined.

(** ** The linear map of the normalizing flow *)

(** X21.  [linear_function_with_jacobian] between two intervals with
    distinct finite end points sends the end points of the source interval
    to those of the target; mapping back with the two intervals exchanged
    returns every finite input, and the two jacobians multiply to 1. *)
Theorem linear_function_with_jacobian_roundtrip
  (zs : list R) (tmin tmax zmin zmax : R) :
  tmin <> tmax -> zmin <> zmax ->
  let fwd := linear_function_with_jacobian (map Fin zs)
               (Fin tmin) (Fin tmax) (Fin zmin) (Fin zmax) in
  let bwd := linear_function_with_jacobian (fst fwd)
               (Fin zmin) (Fin zmax) (Fin tmin) (Fin tmax) in
  fst bwd = map Fin zs /\
  fmul (snd fwd) (snd bwd) = Fin 1 /\
  fst (linear_function_with_jacobian [Fin zmin; Fin zmax]
         (Fin tmin) (Fin tmax) (Fin zmin) (Fin zmax)) = [Fin tmin; Fin tmax].
Proof.
  intros Ht Hz. unfold linear_function_with_jacobian. cbn [fst snd].
  assert (Hz' : zmax + - zmin <> 0) by lra.
  assert (Ht' : tmax + - tmin <> 0) by lra.
  split; [|split].
  - rewrite !map_map. apply map_ext. intros z.
    cbn [fsub fneg fadd fdiv]. destruct (Req_EM_T (zmax + - zmin) 0); [lra|].
    cbn [fmul fadd fsub fneg fdiv].
    destruct (Req_EM_T (tmax + - tmin) 0); [lra|].
    cbn [fmul fadd]. apply Fin_eq. field. split; assumption.
  - cbn [fsub fneg fadd fdiv].
    destruct (Req_EM_T (tmax + - tmin) 0); [lra|].
    destruct (Req_EM_T (zmax + - zmin) 0); [lra|].
    cbn [fmul]. apply Fin_eq. field. split; assumption.
  - cbn [map fsub fneg fadd fdiv].
    destruct (Req_EM_T (zmax + - zmin) 0); [lra|].
    cbn [fmul fadd]. f_equal; [|f_equal]; apply Fin_eq; field; assumption.
Qed.

Lemma linear_function_with_jacobian_roundtrip_witness :
  fst (linear_function_with_jacobian
         (fst (linear_function_with_jacobian (map Fin [5; 7])
                 (Fin (-3)) (Fin 3) (Fin 2) (Fin 10)))
         (Fin 2) (Fin 10) (Fin (-3)) (Fin 3)) = map Fin [5; 7].
Proof.
  apply (linear_function_with_jacobian_roundtrip [5; 7] (-3) 3 2 10); lra.
Defined.

(** ** The window function on the whole line *)

Lemma S_elem_window (minval w x : R) :
  0 < w -> S_elem (Fin minval) (Fin w) (Fin x) = Fin (S_window minval w x).
Proof.
  intros Hw. unfold S_elem, S_window.
  cbn [fgt flt fle fge fadd]. unfold Rltb, Rleb.
  destruct (Rle_dec (w + minval) x) as [H1|H1].
  { destruct (Rle_dec x minval); [lra|].
    destruct (Rle_dec (minval + w) x); [reflexivity|lra]. }
  destruct (Rle_dec x minval) as [H0|H0]; [reflexivity|].
  destruct (Rle_dec (minval + w) x); [lra|].
  destruct (Rlt_dec minval x); [|lra].
  destruct (Rlt_dec x (w + minval)); [|lra].
  cbn [andb fsub fneg fadd fdiv].
  destruct (Req_EM_T (x + - minval) 0); [lra|].
  destruct (Req_EM_T (x + - minval + - w) 0); [lra|].
  cbn [fadd nan_to_num fexp fdiv].
  pose proof (exp_pos (w / (x + - minval) + w / (x + - minval + - w))).
  destruct (Req_EM_T (exp (w / (x + - minval) + w / (x + - minval + - w)) + 1) 0);
    [lra|].
  reflexivity.
Qed.

Lemma S_window_range (minval w x : R) : 0 <= S_window minval w x <= 1.
Proof.
  unfold S_window. destruct (Rle_dec x minval); [lra|].
  destruct (Rle_dec (minval + w) x); [lra|].
  pose proof (exp_pos (w / (x - minval) + w / (x - minval - w))) as He.
  split.
  - apply Rlt_le, Rdiv_lt_0_compat; lra.
  - apply Rmult_le_reg_r
      with (exp (w / (x - minval) + w / (x - minval - w)) + 1); [lra|].
    unfold Rdiv. rewrite Rmult_assoc, Rinv_l by lra. lra.
Qed.




(** ** The smoothed distribution *)

Lemma Some_inj {A} (a b : A) : Some a = Some b -> a = b.
Proof. intros [= E]. exact E. Qed.

Lemma SmoothedProb_init_fields `{Quadrature} (o : basic_1dimpdf.t)
  (w : float) (sp : SmoothedProb.t) :
  SmoothedProb.__init__ o w = Some sp ->
  SmoothedProb.origin_prob sp = o /\
  SmoothedProb.bottom sp = basic_1dimpdf.minval o /\
  SmoothedProb.bottom_smooth sp = w /\
  SmoothedProb.minval sp = basic_1dimpdf.minval o /\
  SmoothedProb.maxval sp = basic_1dimpdf.maxval o /\
  SmoothedProb.norm sp =
  fadd (fsub (Fin 1) (SmoothedProb.integral_before sp))
    (SmoothedProb.integral_now sp).
Proof.
  unfold SmoothedProb.__init__. intros H0.
  repeat match type of H0 with
         | context [bind ?m _] =>
             destruct m; cbn [bind] in H0; [|discriminate]
         end.
  apply Some_inj in H0. subst sp. repeat split.
Qed.




Lemma smoothing_window_range (lo w x : R) : 0 <= smoothing_window lo w x <= 1.
Proof.
  unfold smoothing_window. destruct (Req_EM_T w 0); [lra|].
  apply S_window_range.
Qed.


Lemma map_combine_const {A B C} (f : A * B -> C) (c : B) (l : list A)
  (x : list B) :
  length l = length x -> (forall b, In b x -> b = c) ->
  map f (combine l x) = map (fun a => f (a, c)) l.
Proof.
  revert x. induction l as [|a l IH]; intros [|b x] L Hc; try discriminate;
    [reflexivity|].
  cbn [combine map]. rewrite (Hc b (or_introl eq_refl)).
  rewrite IH; [reflexivity|simpl in L; lia|].
  intros b' Hb'. apply Hc. right. exact Hb'.
Qed.

Lemma mask_assign_idem (m : list bool) (v : float) (y y' : array) :
  mask_assign m v y = Some y' -> mask_assign m v y' = Some y'.
Proof.
  unfold mask_assign.
  destruct (Nat.eqb_spec (length m) (length y)) as [L|]; [|discriminate].
  intros [= <-]. rewrite length_map, length_combine, L, Nat.min_id, Nat.eqb_refl.
  f_equal. revert y L. induction m as [|b m IH]; intros [|e y] L;
    try discriminate; [reflexivity|].
  cbn [combine map fst snd]. rewrite IH by (simpl in L; lia).
  destruct b; reflexivity.
Qed.

Lemma S_factor_zero_width (x : array) (mmin : float) :
  _S_factor x mmin (Fin 0) = Some (ones_like x).
Proof.
  unfold _S_factor. replace (feq (Fin 0) (Fin 0)) with true by (simpl; fcmp).
  reflexivity.
Qed.

Lemma fmul_ones (p : array) (x : array) :
  length p = length x -> broadcast2 fmul p (ones_like x) = Some p.
Proof.
  intros L. unfold ones_like.
  rewrite broadcast2_same_length by (rewrite length_map; exact L).
  rewrite (map_combine_const _ (Fin 1)).
  - f_equal. rewrite <- (map_id p) at 2. apply map_ext. intros a.
    cbn [fst snd]. apply fmul_1_r.
  - rewrite length_map. exact L.
  - intros b Hb. apply in_map_iff in Hb. destruct Hb as [? [<- _]]. reflexivity.
Qed.

Lemma pdf_length (d : basic_1dimpdf.t) (x y : array) :
  basic_1dimpdf.pdf d x = Some y -> length y = length x.
Proof.
  unfold basic_1dimpdf.pdf.
  destruct (basic_1dimpdf.log_pdf d x) as [l|] eqn:E; [|discriminate].
  cbn [bind]. intros [= <-]. rewrite length_map.
  apply (log_pdf_length _ _ _ E).
Qed.

(** X24.  With a smoothing width of zero, [SmoothedProb] is its origin: the
    two integrals of the constructor are one value, [norm] is 1 when that
    value is finite, and then [log_pdf] and [pdf] return on every array what
    the origin returns, errors included. *)
Theorem SmoothedProb_zero_width `{Quadrature} (o : basic_1dimpdf.t)
  (sp : SmoothedProb.t) :
  SmoothedProb.__init__ o (Fin 0) = Some sp ->
  is_finite (SmoothedProb.integral_before sp) ->
  SmoothedProb.integral_now sp = SmoothedProb.integral_before sp /\
  SmoothedProb.norm sp = Fin 1 /\
  (forall x, basic_1dimpdf.log_pdf (SmoothedProb.as_pdf sp) x =
             basic_1dimpdf.log_pdf o x) /\
  (forall x, basic_1dimpdf.pdf (SmoothedProb.as_pdf sp) x =
             basic_1dimpdf.pdf o x).
Proof.
  intros Hsp Hfin.
  destruct (SmoothedProb_init_fields o (Fin 0) sp Hsp)
    as [Ho [Hb [Hbs [Hmin [Hmax Hnorm]]]]].
  assert (Hint : SmoothedProb.integral_now sp = SmoothedProb.integral_before sp).
  { revert Hsp. unfold SmoothedProb.__init__.
    destruct (basic_1dimpdf.pdf o _) as [p|] eqn:Ep; [|discriminate].
    cbn [bind]. rewrite S_factor_zero_width. cbn [bind].
    rewrite fmul_ones by (apply (pdf_length _ _ _ Ep)). cbn [bind].
    intros H0.
    repeat match type of H0 with
           | context [bind ?m _] =>
               destruct m; cbn [bind] in H0; [|discriminate]
           end.
    apply Some_inj in H0. subst sp. reflexivity. }
  assert (Hn1 : SmoothedProb.norm sp = Fin 1).
  { rewrite Hnorm, Hint.
    destruct (SmoothedProb.integral_before sp) as [| | |i]; try contradiction.
    cbn [fsub fneg fadd]. apply Fin_eq. lra. }
  assert (Hlog : forall x, basic_1dimpdf.log_pdf (SmoothedProb.as_pdf sp) x =
                           basic_1dimpdf.log_pdf o x).
  { intros x. unfold basic_1dimpdf.log_pdf at 1.
    cbn [SmoothedProb.as_pdf basic_1dimpdf._log_pdf].
    unfold SmoothedProb._log_pdf. rewrite Hbs, Ho, Hn1.
    rewrite S_factor_zero_width. cbn [bind].
    destruct (basic_1dimpdf.log_pdf o x) as [l|] eqn:El; [|reflexivity].
    cbn [bind]. pose proof (log_pdf_length _ _ _ El) as Ll.
    unfold ones_like. rewrite map_map.
    rewrite broadcast2_same_length by (rewrite length_map; exact Ll).
    rewrite (map_combine_const _ (flog (Fin 1)));
      [|rewrite length_map; exact Ll
       |intros b Hin; apply in_map_iff in Hin; destruct Hin as [? [<- _]];
        reflexivity].
    cbn [bind fst snd]. rewrite map_map.
    rewrite (map_ext _ (fun a => a)), map_id.
    2:{ intros a. rewrite flog_1, fadd_0_r, fsub_0_r. reflexivity. }
    unfold basic_1dimpdf._check_bound_pdf.
    cbn [SmoothedProb.as_pdf basic_1dimpdf.minval basic_1dimpdf.maxval].
    rewrite Hmin, Hmax.
    revert El. unfold basic_1dimpdf.log_pdf, basic_1dimpdf._check_bound_pdf.
    destruct (basic_1dimpdf._log_pdf o x) as [k|]; [|discriminate].
    cbn [bind]. apply mask_assign_idem. }
  split; [exact Hint|]. split; [exact Hn1|]. split; [exact Hlog|].
  intros x. unfold basic_1dimpdf.pdf. rewrite Hlog. reflexivity.
Qed.

Lemma length_removelast_pred {A} (l : list A) :
  length (removelast l) = (length l - 1)%nat.
Proof.
  rewrite removelast_firstn_len, length_firstn. lia.
Qed.

Lemma S_factor_total (mass : array) (mmin dm : float) :
  exists s, _S_factor mass mmin dm = Some s /\ length s = length mass.
Proof.
  destruct (feq dm (Fin 0)) eqn:E.
  - exists (ones_like mass). unfold _S_factor. rewrite E.
    split; [reflexivity|apply length_map].
  - exists (map (S_elem mmin dm) mass).
    split; [apply S_factor_elementwise; exact E|apply length_map].
Qed.

Lemma midpoints_total (x_eval : array) :
  exists m, SmoothedProb.midpoints x_eval = Some m /\
            length m = (length x_eval - 1)%nat.
Proof.
  unfold SmoothedProb.midpoints.
  rewrite broadcast2_same_length
    by (rewrite length_removelast_pred, length_tl; reflexivity).
  cbn [bind]. eexists. split; [reflexivity|].
  rewrite !length_map, length_combine, length_removelast_pred, length_tl.
  apply Nat.min_id.
Qed.

Lemma SmoothedProb_init_total `{Quadrature} (o : basic_1dimpdf.t) (w : float) :
  (forall x, exists l, basic_1dimpdf.log_pdf o x = Some l) ->
  let int_array :=
    linspace (basic_1dimpdf.minval o) (fadd (basic_1dimpdf.minval o) w)
      SmoothedProb.N_INT in
  exists sp p sf,
    SmoothedProb.__init__ o w = Some sp /\
    basic_1dimpdf.pdf o int_array = Some p /\
    _S_factor int_array (basic_1dimpdf.minval o) w = Some sf /\
    SmoothedProb.integral_before sp = trapz p int_array /\
    SmoothedProb.integral_now sp =
    trapz (map (fun pr => fmul (fst pr) (snd pr)) (combine p sf)) int_array.
Proof.
  intros Hlog int_array.
  assert (Hpdf : forall x, exists p, basic_1dimpdf.pdf o x = Some p /\
                                     length p = length x).
  { intros x. destruct (Hlog x) as [l El]. exists (map fexp l).
    unfold basic_1dimpdf.pdf. rewrite El. split; [reflexivity|].
    rewrite length_map. apply (log_pdf_length _ _ _ El). }
  destruct (Hpdf int_array) as [p [Ep Lp]].
  destruct (S_factor_total int_array (basic_1dimpdf.minval o) w)
    as [sf [Esf Lsf]].
  unfold SmoothedProb.__init__. fold int_array.
  rewrite Ep. cbn [bind]. rewrite Esf. cbn [bind].
  rewrite broadcast2_same_length by congruence. cbn [bind].
  destruct (midpoints_total int_array) as [mids [Em Lm]].
  rewrite Em. cbn [bind].
  set (pre := SmoothedProb.mk _ _ _ _ _ _ _ _ _ []).
  assert (Hpre : exists pd, basic_1dimpdf.pdf (SmoothedProb.as_pdf pre) mids =
                            Some pd /\ length pd = length mids).
  { unfold basic_1dimpdf.pdf, basic_1dimpdf.log_pdf.
    cbn [SmoothedProb.as_pdf basic_1dimpdf._log_pdf].
    unfold SmoothedProb._log_pdf.
    destruct (S_factor_total mids (SmoothedProb.bottom pre)
                (SmoothedProb.bottom_smooth pre)) as [s2 [Es2 Ls2]].
    rewrite Es2. cbn [bind].
    destruct (Hlog mids) as [l2 El2].
    cbn [SmoothedProb.origin_prob pre]. rewrite El2. cbn [bind].
    pose proof (log_pdf_length _ _ _ El2) as Ll2.
    rewrite broadcast2_same_length by (rewrite length_map; congruence).
    cbn [bind]. unfold basic_1dimpdf._check_bound_pdf.
    match goal with
    | |- context [mask_assign ?m ?v ?y] =>
        destruct (mask_assign_total m v y) as [y' Ey]
    end.
    { rewrite !length_map, length_combine, length_map, Ll2, Ls2.
      rewrite Nat.min_id. reflexivity. }
    rewrite Ey. cbn [bind]. eexists. split; [reflexivity|].
    rewrite length_map.
    destruct (mask_assign_length _ _ _ _ Ey) as [L1 L2].
    rewrite L2, !length_map, length_combine, length_map, Ll2, Ls2.
    apply Nat.min_id. }
  destruct Hpre as [pd [Epd Lpd]]. rewrite Epd. cbn [bind].
  rewrite broadcast2_same_length
    by (rewrite length_removelast_pred, length_tl; reflexivity).
  cbn [bind].
  rewrite broadcast2_same_length.
  2:{ unfold cumsum. rewrite cumsum_from_length, Lpd, Lm.
      rewrite length_map, length_combine, length_removelast_pred, length_tl.
      rewrite Nat.min_id. reflexivity. }
  cbn [bind]. eexists. exists p, sf.
  split; [reflexivity|]. split; [reflexivity|]. split; [reflexivity|].
  split; reflexivity.
Qed.

Lemma trapezoid_cons2 (y0 y1 x0 x1 : float) (yr xr : array) :
  trapezoid (y0 :: y1 :: yr) (x0 :: x1 :: xr) =
  fadd (fdiv (fmul (fsub x1 x0) (fadd y0 y1)) (Fin 2))
    (trapezoid (y1 :: yr) (x1 :: xr)).
Proof. reflexivity. Qed.

(** The trapezoid rule on samples in [[0, M]] over a grid that never
    decreases is finite, and lies between 0 and [M] times the length of the
    grid. *)
Lemma trapezoid_bound (M : R) :
  0 <= M ->
  forall (ys xs : list R),
    length ys = length xs ->
    Forall (fun v => 0 <= v <= M) ys ->
    (forall i, (S i < length xs)%nat -> nth i xs 0 <= nth (S i) xs 0) ->
    exists T, trapezoid (map Fin ys) (map Fin xs) = Fin T /\
              0 <= T <= M * (last xs 0 - hd 0 xs).
Proof.
  intros HM. induction ys as [|y0 yr IH]; intros [|x0 xr] L Hy Hx;
    try discriminate.
  - exists 0. split; [reflexivity|]. simpl. lra.
  - destruct yr as [|y1 yr'], xr as [|x1 xr']; try discriminate.
    + exists 0. split; [reflexivity|]. simpl. lra.
    + destruct (IH (x1 :: xr')) as [T [ET HT]].
      * simpl in L. simpl. lia.
      * inversion Hy. assumption.
      * intros i Hi. apply (Hx (S i)). simpl in Hi. simpl. lia.
      * cbn [map]. rewrite trapezoid_cons2. cbn [map] in ET. rewrite ET.
        cbn [fsub fneg fadd fmul fdiv]. destruct (Req_EM_T 2 0); [lra|].
        cbn [fadd]. eexists. split; [reflexivity|].
        inversion Hy as [|? ? H0 Hr]; subst.
        inversion Hr as [|? ? H1 _]; subst.
        pose proof (Hx 0%nat ltac:(simpl; lia)) as H01. cbn [nth] in H01.
        change (last (x0 :: x1 :: xr') 0) with (last (x1 :: xr') 0).
        cbn [hd] in *. nra.
Qed.

Lemma trapezoid_bound_range (M a b : R) (ys xs : list R) :
  0 <= M -> a <= b -> length ys = length xs ->
  Forall (fun v => 0 <= v <= M) ys ->
  Forall (fun v => a <= v <= b) xs ->
  (forall i, (S i < length xs)%nat -> nth i xs 0 <= nth (S i) xs 0) ->
  exists T, trapezoid (map Fin ys) (map Fin xs) = Fin T /\
            0 <= T <= M * (b - a).
Proof.
  intros HM Hab L Hy Hr Hx.
  destruct (trapezoid_bound M HM ys xs L Hy Hx) as [T [ET HT]].
  exists T. split; [exact ET|]. split; [lra|].
  destruct xs as [|x0 xr].
  - simpl in HT. nra.
  - rewrite Forall_forall in Hr.
    assert (H0 : a <= x0 <= b) by (apply Hr; left; reflexivity).
    assert (H1 : a <= last (x0 :: xr) 0 <= b)
      by (apply Hr, last_In_nonempty; discriminate).
    cbn [hd] in HT. nra.
Qed.

Lemma S_factor_smoothing_map (lo w : R) (xs : list R) :
  0 <= w ->
  _S_factor (map Fin xs) (Fin lo) (Fin w) =
  Some (map Fin (map (smoothing_window lo w) xs)).
Proof.
  intros Hw. unfold smoothing_window. destruct (Req_EM_T w 0) as [->|Hne].
  - rewrite S_factor_zero_width. unfold ones_like. rewrite !map_map.
    reflexivity.
  - rewrite S_factor_elementwise by (simpl; fcmp).
    rewrite !map_map. f_equal. apply map_ext. intros x.
    apply S_elem_window. lra.
Qed.

Lemma example_PL_density_bound (x : R) :
  0 <= PL_density 1 10 (-2) x <= 10 / 9.
Proof.
  assert (EN : PL_norm 1 10 (-2) = 9 / 10).
  { pose proof (PL_normfact_value 1 10 (-2) ltac:(lra) ltac:(lra)) as E.
    rewrite PL_normfact_example in E. injection E as E. symmetry. exact E. }
  unfold PL_density. destruct (Rlt_dec x 1); [lra|].
  destruct (Rlt_dec 10 x); [lra|]. rewrite EN.
  assert (H0 : 0 < Rpower x (-2)) by (unfold Rpower; apply exp_pos).
  assert (H1 : Rpower x (-2) <= 1).
  { unfold Rpower. rewrite <- exp_0.
    assert (0 <= ln x).
    { rewrite <- ln_1. destruct (Req_EM_T x 1) as [->|Hne]; [lra|].
      apply Rlt_le, ln_increasing; lra. }
    destruct (Req_EM_T (-2 * ln x) 0) as [->|Hne]; [lra|].
    apply Rlt_le, exp_increasing. lra. }
  split.
  - apply Rlt_le, Rdiv_lt_0_compat; lra.
  - apply Rmult_le_reg_r with (9 / 10); [lra|].
    unfold Rdiv at 1. rewrite Rmult_assoc, Rinv_l by lra. lra.
Qed.

Lemma N_INT_ge_2 : (2 <= SmoothedProb.N_INT)%nat.
Proof. apply Nat.leb_le. vm_compute. reflexivity. Qed.

(** The power law on [[1, 10]] with exponent [-2], smoothed over a width of
    at most [1/2] with the trapezoid rule. *)
Lemma example_PL_smoothed (w : R) :
  0 <= w <= 1 / 2 ->
  exists sp Ib In,
    @SmoothedProb.__init__ trapezoid_quadrature example_PL (Fin w) = Some sp /\
    SmoothedProb.integral_before sp = Fin Ib /\
    SmoothedProb.integral_now sp = Fin In /\
    0 <= Ib <= 5 / 9 /\ 0 <= In.
Proof.
  intros Hw.
  destruct (@SmoothedProb_init_total trapezoid_quadrature example_PL (Fin w))
    as [sp [p [sf [Hsp [Hp [Hsf [Hb Hn]]]]]]].
  { intros x. eexists. unfold example_PL. apply PowerLaw_log_pdf_map. lra. }
  change (basic_1dimpdf.minval example_PL) with (Fin 1) in *.
  cbn [fadd] in Hp, Hsf, Hb, Hn.
  rewrite linspace_Fin in Hp, Hsf, Hb, Hn.
  set (grid := linspace_R 1 (1 + w) SmoothedProb.N_INT) in *.
  unfold example_PL in Hp. rewrite PowerLaw_pdf_finite in Hp by lra.
  apply Some_inj in Hp. subst p.
  rewrite S_factor_smoothing_map in Hsf by lra.
  apply Some_inj in Hsf. subst sf.
  assert (Hgrid : Forall (fun v => 1 <= v <= 1 + w) grid)
    by (apply linspace_R_range; lra).
  assert (Hsorted : forall i, (S i < length grid)%nat ->
                              nth i grid 0 <= nth (S i) grid 0).
  { intros i Hi. unfold grid in *. rewrite linspace_R_length in Hi.
    apply linspace_R_sorted; [lra|assumption]. }
  destruct (trapezoid_bound_range (10 / 9) 1 (1 + w)
              (map (PL_density 1 10 (-2)) grid) grid)
    as [Ib [EIb HIb]]; try assumption; try lra.
  { apply length_map. }
  { apply Forall_forall. intros v Hv. apply in_map_iff in Hv.
    destruct Hv as [g [<- _]]. apply example_PL_density_bound. }
  assert (Eprod :
    map (fun pr => fmul (fst pr) (snd pr))
      (combine (map Fin (map (PL_density 1 10 (-2)) grid))
         (map Fin (map (smoothing_window 1 w) grid))) =
    map Fin (map (fun g => PL_density 1 10 (-2) g * smoothing_window 1 w g)
               grid)).
  { rewrite !map_map, combine_same_map, map_map. reflexivity. }
  rewrite Eprod in Hn.
  destruct (trapezoid_bound_range (10 / 9) 1 (1 + w)
              (map (fun g => PL_density 1 10 (-2) g * smoothing_window 1 w g)
                 grid) grid)
    as [In [EIn HIn]]; try assumption; try lra.
  { apply length_map. }
  { apply Forall_forall. intros v Hv. apply in_map_iff in Hv.
    destruct Hv as [g [<- _]].
    pose proof (example_PL_density_bound g).
    pose proof (smoothing_window_range 1 w g). nra. }
  exists sp, Ib, In. split; [exact Hsp|].
  split; [rewrite Hb; exact EIb|]. split; [rewrite Hn; exact EIn|].
  split; [|lra]. split; [lra|]. nra.
Qed.


Lemma SmoothedProb_zero_width_witness :
  exists sp,
    @SmoothedProb.__init__ trapezoid_quadrature example_PL (Fin 0) = Some sp /\
    SmoothedProb.norm sp = Fin 1 /\
    forall x, basic_1dimpdf.pdf (SmoothedProb.as_pdf sp) x =
              basic_1dimpdf.pdf example_PL x.
Proof.
  destruct (example_PL_smoothed 0 ltac:(lra))
    as [sp [Ib [In [Hsp [Hb _]]]]].
  exists sp. split; [exact Hsp|].
  destruct (@SmoothedProb_zero_width trapezoid_quadrature example_PL sp Hsp)
    as [_ [Hn [_ Hpdf]]].
  - rewrite Hb. exact I.
  - split; assumption.
Defined.

(** ** The bivariate Gaussian without correlation *)

Module B2 := Bivariate2DGaussian.

Lemma fsqrt_Fin (v : R) : 0 <= v -> fsqrt (Fin v) = Fin (sqrt v).
Proof. intros Hv. simpl. destruct (Rlt_dec v 0); [lra|reflexivity]. Qed.

Lemma flog_Fin_pos (v : R) : 0 < v -> flog (Fin v) = Fin (ln v).
Proof. intros Hv. simpl. destruct (Rlt_dec 0 v); [reflexivity|lra]. Qed.

Lemma ln_sqrt_half (v : R) : 0 < v -> ln (sqrt v) = ln v / 2.
Proof.
  intros Hv. assert (Hs : 0 < sqrt v) by (apply sqrt_lt_R0; assumption).
  assert (E : ln v = ln (sqrt v) + ln (sqrt v)).
  { rewrite <- ln_mult by assumption. rewrite sqrt_sqrt by lra. reflexivity. }
  lra.
Qed.

Lemma gaussian_log_forms (v d N : R) :
  0 < v ->
  - (1 / 2) * ln (2 * PI * v) + - (1 / 2 * (d * d) / v) + - ln N =
  - ln (sqrt v) - 1 / 2 * ln (2 * PI) - 1 / 2 * (d / sqrt v * (d / sqrt v))
  - ln N.
Proof.
  intros Hv. assert (Hpi : 0 < 2 * PI) by (pose proof PI_RGT_0; lra).
  assert (Hs : 0 < sqrt v) by (apply sqrt_lt_R0; assumption).
  rewrite ln_mult by assumption. rewrite ln_sqrt_half by assumption.
  replace (d / sqrt v * (d / sqrt v)) with (d * d / (sqrt v * sqrt v))
    by (field; lra).
  rewrite sqrt_sqrt by lra. field. lra.
Qed.

Lemma B2_kernel_point `{Backend} (lo1 hi1 mu1 lo2 hi2 mu2 v1 v2 a b : R) :
  (forall x y, x < y -> erf x < erf y) ->
  0 < v1 -> 0 < v2 -> lo1 < hi1 -> lo2 < hi2 ->
  B2.log_pdf
    (B2.__init__ (Fin lo1) (Fin hi1) (Fin mu1) (Fin lo2) (Fin hi2) (Fin mu2)
       (Fin v1) (Fin 0) (Fin v2)) [Fin a] [Fin b] =
  Some [if ((Rltb a lo1 || Rltb hi1 a) || Rltb b lo2) || Rltb hi2 b
        then NInf
        else Fin (TG_log_density lo1 hi1 mu1 (sqrt v1) a
                  + TG_log_density lo2 hi2 mu2 (sqrt v2) b)].
Proof.
  intros Herf Hv1 Hv2 Hb1 Hb2.
  assert (Hs1 : 0 < sqrt v1) by (apply sqrt_lt_R0; assumption).
  assert (Hs2 : 0 < sqrt v2) by (apply sqrt_lt_R0; assumption).
  pose proof (TG_norm_pos lo1 hi1 mu1 (sqrt v1) Herf Hs1 Hb1) as HN1.
  pose proof (TG_norm_pos lo2 hi2 mu2 (sqrt v2) Herf Hs2 Hb2) as HN2.
  assert (Hpi : 0 < 2 * PI) by (pose proof PI_RGT_0; lra).
  unfold B2.log_pdf, B2.__init__, B2._check_bound_pdf.
  cbn [B2.x1min B2.x1max B2.x1mean B2.x2min B2.x2max B2.x2mean B2.x1variance
       B2.x12covariance B2.x2variance B2.norm_marginal_1 map].
  rewrite fpower_2. cbn [fdiv]. destruct (Req_EM_T v1 0); [lra|].
  cbn [fsub fneg fadd fmul].
  replace (v2 + - (0 * 0 / v1)) with v2 by (field; lra).
  replace (mu2 + 0 / v1 * (a + - mu1)) with mu2 by (field; lra).
  rewrite !fsqrt_Fin by lra. rewrite !gaussian_norm_value by assumption.
  fold (TG_z mu1 (sqrt v1) hi1). fold (TG_z mu1 (sqrt v1) lo1).
  fold (TG_z mu2 (sqrt v2) hi2). fold (TG_z mu2 (sqrt v2) lo2).
  fold (TG_norm lo1 hi1 mu1 (sqrt v1)). fold (TG_norm lo2 hi2 mu2 (sqrt v2)).
  rewrite !flog_Fin_pos by (try assumption; nra).
  cbn [broadcast2 map bind fsub fneg fadd fmul]. rewrite !fpower_2.
  cbn [fmul fdiv]. destruct (Req_EM_T v1 0); [lra|].
  destruct (Req_EM_T v2 0); [lra|].
  cbn [fsub fneg fadd bind map broadcast2 fst snd].
  unfold mask_assign. cbn [length Nat.eqb combine map fst snd flt fgt].
  do 2 f_equal.
  destruct (((Rltb a lo1 || Rltb hi1 a) || Rltb b lo2) || Rltb hi2 b);
    [reflexivity|].
  apply Fin_eq. unfold TG_log_density.
  rewrite <- (gaussian_log_forms v1 (a + - mu1) (TG_norm lo1 hi1 mu1 (sqrt v1)))
    by assumption.
  rewrite <- (gaussian_log_forms v2 (b + - mu2) (TG_norm lo2 hi2 mu2 (sqrt v2)))
    by assumption.
  reflexivity.
Qed.

Lemma TG_kernel_value `{Backend} (lo hi mu sg x : R) :
  0 < sg -> TG_kernel lo hi mu sg (Fin x) = Fin (TG_log_density lo hi mu sg x).
Proof.
  intros Hsg. unfold TG_kernel. cbn [fsub fneg fadd fdiv].
  destruct (Req_EM_T sg 0); [lra|].
  rewrite fpower_2. cbn [fmul fsub fneg fadd].
  apply Fin_eq. unfold TG_log_density, Rminus. ring.
Qed.

(** X25.  With zero covariance, positive variances and an increasing
    [erf], the bivariate Gaussian at a finite point is the product of two
    truncated Gaussians, one per coordinate, with the square roots of the
    variances as widths: its log-density is the sum of their log-densities
    and its density the product of their densities, also where a coordinate
    is outside its interval.  The order of the two coordinates plays no
    part. *)
Theorem Bivariate2DGaussian_independent `{Backend}
  (lo1 hi1 mu1 lo2 hi2 mu2 v1 v2 a b : R) :
  (forall x y, x < y -> erf x < erf y) ->
  0 < v1 -> 0 < v2 -> lo1 < hi1 -> lo2 < hi2 ->
  let G1 := TruncatedGaussian.as_pdf
              (TruncatedGaussian.__init__ (Fin mu1) (fsqrt (Fin v1))
                 (Fin lo1) (Fin hi1)) in
  let G2 := TruncatedGaussian.as_pdf
              (TruncatedGaussian.__init__ (Fin mu2) (fsqrt (Fin v2))
                 (Fin lo2) (Fin hi2)) in
  let B := B2.__init__ (Fin lo1) (Fin hi1) (Fin mu1) (Fin lo2) (Fin hi2)
             (Fin mu2) (Fin v1) (Fin 0) (Fin v2) in
  exists l1 l2,
    basic_1dimpdf.log_pdf G1 [Fin a] = Some [l1] /\
    basic_1dimpdf.log_pdf G2 [Fin b] = Some [l2] /\
    B2.log_pdf B [Fin a] [Fin b] = Some [fadd l1 l2] /\
    B2.pdf B [Fin a] [Fin b] = Some [fmul (fexp l1) (fexp l2)].
Proof.
  intros Herf Hv1 Hv2 Hb1 Hb2 G1 G2 B.
  assert (Hs1 : 0 < sqrt v1) by (apply sqrt_lt_R0; assumption).
  assert (Hs2 : 0 < sqrt v2) by (apply sqrt_lt_R0; assumption).
  pose proof (TG_norm_pos lo1 hi1 mu1 (sqrt v1) Herf Hs1 Hb1) as HN1.
  pose proof (TG_norm_pos lo2 hi2 mu2 (sqrt v2) Herf Hs2 Hb2) as HN2.
  exists (clamp_pdf (Fin lo1) (Fin hi1) (TG_kernel lo1 hi1 mu1 (sqrt v1))
            (Fin a)),
         (clamp_pdf (Fin lo2) (Fin hi2) (TG_kernel lo2 hi2 mu2 (sqrt v2))
            (Fin b)).
  assert (HB : B2.log_pdf B [Fin a] [Fin b] =
               Some [fadd (clamp_pdf (Fin lo1) (Fin hi1)
                             (TG_kernel lo1 hi1 mu1 (sqrt v1)) (Fin a))
                          (clamp_pdf (Fin lo2) (Fin hi2)
                             (TG_kernel lo2 hi2 mu2 (sqrt v2)) (Fin b))]).
  { unfold B. rewrite B2_kernel_point by assumption. do 2 f_equal.
    unfold clamp_pdf. rewrite !TG_kernel_value by assumption.
    cbn [flt fgt].
    destruct (Rltb a lo1), (Rltb hi1 a), (Rltb b lo2), (Rltb hi2 b);
      reflexivity. }
  split; [|split; [|split]].
  - unfold G1. rewrite fsqrt_Fin by lra.
    exact (TruncatedGaussian_log_pdf_map mu1 (sqrt v1) lo1 hi1 [Fin a] Hs1 HN1).
  - unfold G2. rewrite fsqrt_Fin by lra.
    exact (TruncatedGaussian_log_pdf_map mu2 (sqrt v2) lo2 hi2 [Fin b] Hs2 HN2).
  - exact HB.
  - unfold B2.pdf. rewrite HB. cbn [bind map]. rewrite fexp_fadd. reflexivity.
Qed.

Lemma Bivariate2DGaussian_independent_witness :
  exists l1 l2,
    basic_1dimpdf.log_pdf
      (@TruncatedGaussian.as_pdf sigmoid_backend
         (@TruncatedGaussian.__init__ sigmoid_backend (Fin 0) (fsqrt (Fin 4))
            (Fin (-1)) (Fin 1))) [Fin (1 / 2)] = Some [l1] /\
    basic_1dimpdf.log_pdf
      (@TruncatedGaussian.as_pdf sigmoid_backend
         (@TruncatedGaussian.__init__ sigmoid_backend (Fin 1) (fsqrt (Fin 9))
            (Fin 0) (Fin 5))) [Fin 3] = Some [l2] /\
    @B2.log_pdf sigmoid_backend
      (@B2.__init__ sigmoid_backend (Fin (-1)) (Fin 1) (Fin 0) (Fin 0) (Fin 5)
         (Fin 1) (Fin 4) (Fin 0) (Fin 9)) [Fin (1 / 2)] [Fin 3] =
    Some [fadd l1 l2].
Proof.
  destruct (@Bivariate2DGaussian_independent sigmoid_backend
              (-1) 1 0 0 5 1 4 9 (1 / 2) 3 sigmoid_erf_incr
              ltac:(lra) ltac:(lra) ltac:(lra) ltac:(lra))
    as [l1 [l2 [H1 [H2 [H3 _]]]]].
  exists l1, l2. split; [exact H1|]. split; [exact H2|exact H3].
Defined.
